(** * Query-port client: connection pool and request drivers

    A shallow embedding of [secondary/queryport/client]: the connection
    pool ([connectionPool], [GetWithTimeout], [Return], [releaseConns],
    [releaseConnsRoutine], [Close]) and the query client built on it
    ([Statistics], [Scan], [ScanAll], [streamResponse], [closeStream]).

    Conventions of the embedding
    - Go [int32] values are integers in [Z]; every arithmetic operation on
      them is wrapped by [wrap32].  Go [int] is 64 bits wide ([wrap64]).
    - A buffered channel is its FIFO buffer, its capacity and its closed
      flag.  A [select] is resolved by the runtime: the case it picks is an
      input of the model ([select_case]), and a function returns [None]
      when the case it is given is not ready in the current state.
    - Every pool method is modelled twice.  As a function it runs the
      whole call on the state it finds and returns the state it leaves:
      this is the method when no other goroutine steps in ([exec], [run],
      [reachable]: calls that do not overlap).  As a goroutine it performs
      one operation on the shared pool at a time ([step_caller],
      [step_routine]), and [interleaved] are the states the pool reaches
      when its callers and its routine overtake one another in any order.
      A caller waiting in a [select] of [GetWithTimeout] is resolved on the
      state of that moment.  Network endpoints closed on the way are logged
      in [netClosed].
    - The peer is a script: the results of the successive [Send] and
      [Receive] calls on the borrowed connection. *)

From Stdlib Require Import ZArith List Bool Lia String QArith.
Import ListNotations.
Open Scope Z_scope.

(** ** Machine integers *)

Definition wrap32 (z : Z) : Z := (z + 2 ^ 31) mod 2 ^ 32 - 2 ^ 31.
Definition wrap64 (z : Z) : Z := (z + 2 ^ 63) mod 2 ^ 64 - 2 ^ 63.

Definition is_int32 (z : Z) : Prop := - 2 ^ 31 <= z < 2 ^ 31.
Definition is_int (z : Z) : Prop := - 2 ^ 63 <= z < 2 ^ 63.

Definition add32 (a b : Z) : Z := wrap32 (a + b).
Definition sub32 (a b : Z) : Z := wrap32 (a - b).

(** [int32(f)] for a finite float64 [f], seen as the rational it denotes:
    the fraction is dropped (truncation toward zero).  Go leaves the result
    unspecified when the truncated value does not fit; the model wraps. *)
Definition truncate (f : Q) : Z := Z.quot (Qnum f) (Zpos (Qden f)).

Definition int32_of_float64 (f : Q) : Z := wrap32 (truncate f).

(** Rounding to the nearest integer, half away from zero ([math.Round]). *)
Definition round_half_away (f : Q) : Z :=
  Z.sgn (Qnum f) * ((2 * Z.abs (Qnum f) + Zpos (Qden f)) / (2 * Zpos (Qden f))).

(** ** Buffered channels *)

Record chan (A : Type) : Type := mkChan {
  buf : list A;
  cap : Z;
  closed : bool
}.
Arguments mkChan {A} _ _ _.
Arguments buf {A} _.
Arguments cap {A} _.
Arguments closed {A} _.

(** [make(chan A, n)].  The runtime ([makechan]) panics when the size is
    negative and when the buffer, [elemsize] bytes a slot, is beyond what
    it can allocate: [mem > maxAlloc - hchanSize].  The limit depends on the
    platform; [maxAlloc] is its largest value on a 64-bit platform (48 bits
    of heap addresses) and [hchanSize] the channel header.  So [None] is a
    panic on every such platform, while a buffer that passes may still be
    refused where the limit is lower or the memory is not there, which the
    model leaves out. *)
Definition maxAlloc : Z := 2 ^ 48.
Definition hchanSize : Z := 96.

Definition make (A : Type) (elemsize n : Z) : option (chan A) :=
  if n <? 0 then None
  else if elemsize * n >? maxAlloc - hchanSize then None
  else Some (mkChan [] n false).
Arguments make A elemsize n : clear implicits.

(** Slot sizes on a 64-bit platform: a [*connection] and a [bool]. *)
Definition sizeofPointer : Z := 8.
Definition sizeofBool : Z := 1.

Definition len {A} (ch : chan A) : Z := Z.of_nat (List.length (buf ch)).

Inductive recv_result (A : Type) : Type :=
| RecvVal (a : A) (ch' : chan A)   (* a buffered value, ok = true *)
| RecvClosed                       (* closed and drained: zero value, ok = false *)
| RecvNotReady.                    (* open and empty: the receive would block *)
Arguments RecvVal {A} _ _.
Arguments RecvClosed {A}.
Arguments RecvNotReady {A}.

Definition recv {A} (ch : chan A) : recv_result A :=
  match buf ch with
  | x :: rest => RecvVal x (mkChan rest (cap ch) (closed ch))
  | [] => if closed ch then RecvClosed else RecvNotReady
  end.

Inductive send_result (A : Type) : Type :=
| SendOk (ch' : chan A)
| SendPanic                        (* send on a closed channel *)
| SendNotReady.                    (* buffer full: the send would block *)
Arguments SendOk {A} _.
Arguments SendPanic {A}.
Arguments SendNotReady {A}.

Definition send {A} (ch : chan A) (x : A) : send_result A :=
  if closed ch then SendPanic
  else if len ch <? cap ch then SendOk (mkChan (buf ch ++ [x]) (cap ch) false)
  else SendNotReady.

(** ** Errors *)

Inductive error : Type :=
| ErrorProtocol                    (* queryport.protocol *)
| ErrorClosedPool                  (* queryport.closedPool *)
| ErrorNoPool                      (* queryport.errorNoPool *)
| ErrorPoolTimeout                 (* queryport.connPoolTimeout *)
| EOF                              (* io.EOF *)
| ErrOther (msg : string).         (* dial, transport and errors.New(...) *)

(** Outcome of a call that may block for ever, panic, or spin. *)
Inductive result (A : Type) : Type :=
| Done (a : A)
| Blocked
| Panic
| OutOfFuel.
Arguments Done {A} _.
Arguments Blocked {A}.
Arguments Panic {A}.
Arguments OutOfFuel {A}.

(** ** The connection pool *)

Definition netConn := nat.

Record TransportPacket : Type := { pktMaxPayload : Z }.

(** [connection]: a nil [net.Conn] is [None]; a nil [*connection] is
    [None : option connection]. *)
Record connection : Type := mkConnection {
  conn : option netConn;
  pkt : TransportPacket
}.

Definition CONN_RELEASE_INTERVAL : Z := 5.
Definition NUM_CONN_RELEASE_INTERVALS : Z := 60.
Definition CONN_COUNT_LOG_INTERVAL : Z := 60.

Record connectionPool : Type := mkPool {
  host : string;
  connections : chan connection;
  createsem : chan bool;
  maxPayload : Z;
  timeout : Z;
  availTimeout : Z;
  curActConns : Z;
  minPoolSizeWM : Z;
  freeConns : Z;
  relConnBatchSize : Z;
  stopCh : chan bool
}.

Definition set_connections (p : connectionPool) (c : chan connection) :=
  mkPool (host p) c (createsem p) (maxPayload p) (timeout p) (availTimeout p)
         (curActConns p) (minPoolSizeWM p) (freeConns p) (relConnBatchSize p)
         (stopCh p).
Definition set_createsem (p : connectionPool) (c : chan bool) :=
  mkPool (host p) (connections p) c (maxPayload p) (timeout p) (availTimeout p)
         (curActConns p) (minPoolSizeWM p) (freeConns p) (relConnBatchSize p)
         (stopCh p).
Definition set_curActConns (p : connectionPool) (n : Z) :=
  mkPool (host p) (connections p) (createsem p) (maxPayload p) (timeout p)
         (availTimeout p) n (minPoolSizeWM p) (freeConns p)
         (relConnBatchSize p) (stopCh p).
Definition set_freeConns (p : connectionPool) (n : Z) :=
  mkPool (host p) (connections p) (createsem p) (maxPayload p) (timeout p)
         (availTimeout p) (curActConns p) (minPoolSizeWM p) n
         (relConnBatchSize p) (stopCh p).
Definition set_stopCh (p : connectionPool) (c : chan bool) :=
  mkPool (host p) (connections p) (createsem p) (maxPayload p) (timeout p)
         (availTimeout p) (curActConns p) (minPoolSizeWM p) (freeConns p)
         (relConnBatchSize p) c.

(** The pool together with the log of closed network endpoints. *)
Record state : Type := mkState {
  cp : connectionPool;
  netClosed : list netConn
}.

Definition with_pool (s : state) (p : connectionPool) : state :=
  mkState p (netClosed s).

(** [c.Close()] on a [net.Conn]; a nil interface panics. *)
Definition netClose (s : state) (c : option netConn) : result state :=
  match c with
  | Some n => Done (mkState (cp s) (netClosed s ++ [n]))
  | None => Panic
  end.

(** [atomic.AddInt32(&cp.freeConns, d)] and the like. *)
Definition addFreeConns (s : state) (d : Z) : state :=
  with_pool s (set_freeConns (cp s) (add32 (freeConns (cp s)) d)).
Definition addCurActConns (s : state) (d : Z) : state :=
  with_pool s (set_curActConns (cp s) (add32 (curActConns (cp s)) d)).

(** [newConnectionPool]: a [make] call panics on a size it refuses,
    [poolSize+poolOverflow] is an [int] addition.  [Panic] is [None]. *)
Definition newConnectionPool (host : string)
    (poolSize poolOverflow maxPayload timeout availTimeout : Z)
    (minPoolSizeWM relConnBatchSize : Z) : option connectionPool :=
  match make connection sizeofPointer poolSize with
  | None => None
  | Some conns =>
    match make bool sizeofBool (wrap64 (poolSize + poolOverflow)) with
    | None => None
    | Some sem =>
      match make bool sizeofBool 1 with
      | None => None
      | Some stop =>
        Some (mkPool host conns sem maxPayload timeout availTimeout
                     0 minPoolSizeWM 0 relConnBatchSize stop)
      end
    end
  end.

(** *** Acquisition *)

(** The case a blocking [select] of [GetWithTimeout] resolves to. *)
Inductive select_case : Type :=
| CaseConn      (* connectn, ok = <-cp.connections *)
| CaseCreate    (* cp.createsem <- true *)
| CaseTimer.    (* <-t.C *)

(** What [cp.mkConn(cp.host)] answers: the pair it returns.  The dialer
    behind [defaultMkConn] ([security.MakeConn]) is not among the sources;
    its answer is an input of the model. *)
Definition mkConn_result : Type := (option connection * option error)%type.

Record get_ret : Type := mkGetRet {
  got : option connection;
  gerr : option error;
  path : string          (* the label handed to ConnPoolCallback *)
}.

(** The body shared by the three [case connectn, ok = <-cp.connections]
    branches; [None] when the receive is not ready. *)
Definition takeConn (s : state) (label : string) : option (state * get_ret) :=
  match recv (connections (cp s)) with
  | RecvVal c ch' =>
      let s1 := with_pool s (set_connections (cp s) ch') in
      let s2 := addFreeConns s1 (-1) in
      let s3 := addCurActConns s2 1 in
      Some (s3, mkGetRet (Some c) None label)
  | RecvClosed => Some (s, mkGetRet None (Some ErrorClosedPool) label)
  | RecvNotReady => None
  end.

(** The [case cp.createsem <- true] branch. *)
Definition createConn (s : state) (mk : mkConn_result)
  : option (state * get_ret) :=
  match send (createsem (cp s)) true with
  | SendOk sem' =>
      let s1 := with_pool s (set_createsem (cp s) sem') in
      let '(connectn, err) := mk in
      match err with
      | Some _ =>
          (* On error, release our create hold *)
          match recv (createsem (cp s1)) with
          | RecvVal _ sem'' =>
              Some (with_pool s1 (set_createsem (cp s1) sem''),
                    mkGetRet connectn err "create")
          | _ => None
          end
      | None => Some (addCurActConns s1 1, mkGetRet connectn err "create")
      end
  | _ => None
  end.

(** The third [select], reached when the avail timer has fired. *)
Definition stageC (s : state) (ev : select_case) (mk : mkConn_result)
  : option (state * get_ret) :=
  match ev with
  | CaseConn => takeConn s "avail2"
  | CaseCreate => createConn s mk
  | CaseTimer => Some (s, mkGetRet None (Some ErrorPoolTimeout) "short-circuit")
  end.

(** The second [select]: an idle connection within [availTimeout], or the
    timer and then [stageC]. *)
Definition stageB (s : state) (evB evC : select_case) (mk : mkConn_result)
  : option (state * get_ret) :=
  match evB with
  | CaseConn => takeConn s "avail1"
  | CaseTimer => stageC s evC mk
  | CaseCreate => None
  end.

(** [GetWithTimeout] on a non-nil pool.  The first [select] has a
    [default]: it takes a connection exactly when one is ready. *)
Definition GetWithTimeout (s : state) (d : Z) (evB evC : select_case)
    (mk : mkConn_result) : option (state * get_ret) :=
  match takeConn s "short-circuit" with
  | Some r => Some r
  | None => stageB s evB evC mk
  end.

(** [Get] passes the configured timeout. *)
Definition Get (s : state) (evB evC : select_case) (mk : mkConn_result)
  : option (state * get_ret) :=
  GetWithTimeout s (timeout (cp s) * 1000000) evB evC mk.

(** *** Return *)

(** [<-cp.createsem]: blocks while no permit is held. *)
Definition releasePermit (s : state) : result state :=
  match recv (createsem (cp s)) with
  | RecvVal _ sem' => Done (with_pool s (set_createsem (cp s) sem'))
  | _ => Blocked
  end.

Definition bind {A B} (r : result A) (k : A -> result B) : result B :=
  match r with
  | Done a => k a
  | Blocked => Blocked
  | Panic => Panic
  | OutOfFuel => OutOfFuel
  end.

(** The body of [Return] before the deferred decrement. *)
Definition Return_body (s : state) (connectn : option connection)
    (healthy : bool) : result state :=
  match connectn with
  | None => Done s
  | Some c =>
    match conn c with
    | None => Done s
    | Some n =>
      if healthy then
        match send (connections (cp s)) c with
        | SendOk ch' =>
            Done (addFreeConns (with_pool s (set_connections (cp s) ch')) 1)
        | SendNotReady =>
            bind (releasePermit s) (fun s1 => netClose s1 (conn c))
        | SendPanic =>
            (* recover(): the pool is closed, just close the connection *)
            netClose s (conn c)
        end
      else
        bind (releasePermit s) (fun s1 => netClose s1 (conn c))
    end
  end.

(** [Return]: [defer atomic.AddInt32(&cp.curActConns, -1)] runs when the
    body returns; a body blocked on [<-cp.createsem] never returns. *)
Definition Return (s : state) (connectn : option connection) (healthy : bool)
  : result state :=
  bind (Return_body s connectn healthy) (fun s1 => Done (addCurActConns s1 (-1))).

(** *** Renew *)
Definition Renew (s : state) (c : connection) (mk : mkConn_result)
  : result (state * (option connection * option error)) :=
  let '(newConn, err) := mk in
  match err with
  | None => bind (netClose s (conn c)) (fun s1 => Done (s1, (newConn, err)))
  | Some _ => Done (s, (Some c, err))
  end.

(** *** Retention *)

Definition max (a b : Z) : Z := if a >? b then a else b.

Definition numConnsToRetain (p : connectionPool) (avg : Q) : Z * bool :=
  let act := curActConns p in
  let num := max act (int32_of_float64 avg) in
  let num := max (minPoolSizeWM p) num in
  let fc := freeConns p in
  let totalConns := add32 act fc in
  if sub32 totalConns (relConnBatchSize p) >=? num
  then (sub32 totalConns (relConnBatchSize p), true)
  else (totalConns, false).

(** [releaseConns]: one unit of fuel per turn of the [for] loop.  The
    [break] under [default] leaves the [select] only, so that turn changes
    nothing and the loop goes round again. *)
Fixpoint releaseConns (fuel : nat) (s : state) (numRetConns : Z)
  : result state :=
  match fuel with
  | O => OutOfFuel
  | S fuel' =>
    let fc := freeConns (cp s) in
    let act := curActConns (cp s) in
    let totalConns := add32 act fc in
    if (totalConns >? numRetConns) && (fc >? 0) then
      match recv (connections (cp s)) with
      | RecvVal c ch' =>
          let s1 := with_pool s (set_connections (cp s) ch') in
          let s2 := addFreeConns s1 (-1) in
          bind (netClose s2 (conn c))
               (fun s3 => releaseConns fuel' s3 numRetConns)
      | RecvClosed => Done s
      | RecvNotReady => releaseConns fuel' s numRetConns
      end
    else Done s
  end.

(** The loop counters of [releaseConnsRoutine]. *)
Record routine : Type := mkRoutine {
  ri : Z;
  rj : Z;
  stopped : bool
}.

(** One turn of [releaseConnsRoutine] after its one-second sleep.  The
    moving average is kept by the [go-metrics] library; [avg] is what
    [cp.ewma.Rate()] answers if it is asked on this turn. *)
Definition routineTick (fuel : nat) (s : state) (r : routine) (avg : Q)
  : result (state * routine) :=
  if stopped r then Done (s, r)
  else
    match recv (stopCh (cp s)) with
    | RecvVal _ ch' =>
        Done (with_pool s (set_stopCh (cp s) ch'), mkRoutine (ri r) (rj r) true)
    | RecvClosed => Done (s, mkRoutine (ri r) (rj r) true)
    | RecvNotReady =>
        let next := mkRoutine ((ri r + 1) mod CONN_RELEASE_INTERVAL)
                              ((rj r + 1) mod CONN_COUNT_LOG_INTERVAL) false in
        if ri r =? CONN_RELEASE_INTERVAL - 1 then
          let '(numRetConns, needToFreeConns) := numConnsToRetain (cp s) avg in
          if needToFreeConns
          then bind (releaseConns fuel s numRetConns) (fun s1 => Done (s1, next))
          else Done (s, next)
        else Done (s, next)
    end.

(** *** Close *)

(** [for connectn := range cp.connections { connectn.conn.Close() }]: what
    stays buffered and the log of closed endpoints.  A panic on a nil
    endpoint is recovered by [Close] and ends the draining. *)
Fixpoint drain (l : list connection) (closedLog : list netConn)
  : list connection * list netConn :=
  match l with
  | [] => ([], closedLog)
  | c :: rest =>
      match conn c with
      | Some n => drain rest (closedLog ++ [n])
      | None => (rest, closedLog)
      end
  end.

Definition Close (s : state) : result state :=
  match send (stopCh (cp s)) true with
  | SendOk stop' =>
      let p1 := set_stopCh (cp s) stop' in
      let ch := connections p1 in
      if closed ch then Done (mkState p1 (netClosed s))  (* close panics, recovered *)
      else
        let '(remaining, closedLog) := drain (buf ch) (netClosed s) in
        Done (mkState (set_connections p1 (mkChan remaining (cap ch) true))
                      closedLog)
  | _ => Blocked
  end.

(** ** The query client *)

Record IndexStatistics : Type := { statCount : Z }.

(** Modelled from the spec: the frames of package [protobuf/query], whose
    declarations are not among the sources.  The client tells them apart
    by type only: a statistics response (with its embedded error and its
    statistics), a data frame of a scan, the end-of-stream marker. *)
Inductive message : Type :=
| StatisticsResponse (err : option string) (stats : IndexStatistics)
| ResponseStream (payload : list Byte.byte)
| StreamEndResponse.

(** Modelled from the spec: the request frames the client builds. *)
Inductive request : Type :=
| StatisticsRequest (index bucket : string) (low high : list Byte.byte)
                    (equal : list (list Byte.byte)) (inclusion : Z)
| ScanRequest (index bucket : string) (low high : list Byte.byte)
              (equal : list (list Byte.byte)) (inclusion : Z)
              (pageSize : Z) (distinct : bool) (limit : Z)
| ScanAllRequest (index bucket : string) (pageSize limit : Z)
| EndStreamRequest.

(** Modelled from the spec: the codec handle of package [transport]
    ([send(endpoint, message)], [receive(endpoint)] giving a message or an
    error), which is not among the sources.  The peer of one borrowed
    connection is a script: what each successive [pkt.Send] and
    [pkt.Receive] answers, and the frames that went out.  When the receive
    script is used up the read deadline expires. *)
Record wire : Type := mkWire {
  sendq : list (option error);
  recvq : list (message + error);
  sent : list request
}.

Definition errDeadline : error := ErrOther "i/o timeout".

(** Modelled from the spec: [pkt.Send(conn, req)]. *)
Definition pktSend (w : wire) (req : request) : wire * option error :=
  match sendq w with
  | [] => (mkWire [] (recvq w) (sent w ++ [req]), None)
  | None :: rest => (mkWire rest (recvq w) (sent w ++ [req]), None)
  | Some e :: rest => (mkWire rest (recvq w) (sent w), Some e)
  end.

(** Modelled from the spec: [pkt.Receive(conn)]; the frame is nil when the
    error is not. *)
Definition pktReceive (w : wire) : wire * (message + error) :=
  match recvq w with
  | [] => (w, inr errDeadline)
  | r :: rest => (mkWire (sendq w) rest (sent w), r)
  end.

(** A value of [interface{}] handed to a [ResponseHandler]. *)
Inductive iface : Type :=
| IMsg (m : message)
| IErr (e : error).

Record Client : Type := mkClient {
  raddr : string;
  readDeadline : Z;
  writeDeadline : Z;
  poolSize : Z;
  poolOverflow : Z;
  cpTimeout : Z;
  cpAvailWaitTimeout : Z
}.

(** [sendRequest]: the write deadline is set, then the frame is sent. *)
Definition sendRequest (n : netConn) (w : wire) (req : request)
  : wire * option error :=
  pktSend w req.

(** The statements of [Statistics] after the [defer]; the second component
    is the local variable [healthy] when the body ends. *)
Definition Statistics_body (connectn : option connection) (req : request)
    (w : wire) (healthy : bool)
  : result (option IndexStatistics * option error) * bool * wire :=
  match connectn with
  | None => (Panic, healthy, w)
  | Some c =>
    match conn c with
    | None => (Panic, healthy, w)
    | Some n =>
      let '(w1, serr) := sendRequest n w req in
      match serr with
      | Some e => (Done (None, Some e), false, w1)
      | None =>
        let '(w2, r1) := pktReceive w1 in
        match r1 with
        | inr e => (Done (None, Some e), false, w2)
        | inl resp =>
          let '(w3, r2) := pktReceive w2 in
          match r2 with
          | inl StreamEndResponse =>
            match resp with
            | StatisticsResponse (Some msg) _ =>
                (Done (None, Some (ErrOther msg)), healthy, w3)
            | StatisticsResponse None stats =>
                (Done (Some stats, None), healthy, w3)
            | _ => (Panic, healthy, w3)   (* unchecked type assertion on resp *)
            end
          | _ => (Done (None, Some ErrorProtocol), healthy, w3)
          end
        end
      end
    end
  end.

(** What a client call leaves behind. *)
Record call (A : Type) : Type := mkCall {
  body_ret : result A;        (* what the body returned, before the defers *)
  ret : result A;             (* what the caller observes *)
  deferred : option (option connection * bool);
                              (* arguments saved by [defer c.pool.Return] *)
  healthy_var : bool;         (* the local [healthy] when the body ends *)
  after : state;              (* the pool the call leaves *)
  wire_after : wire;
  calls : list iface          (* the arguments the handler was called with *)
}.
Arguments mkCall {A} _ _ _ _ _ _ _.
Arguments body_ret {A} _.
Arguments ret {A} _.
Arguments deferred {A} _.
Arguments healthy_var {A} _.
Arguments after {A} _.
Arguments wire_after {A} _.
Arguments calls {A} _.

(** Runs the deferred [c.pool.Return(connectn, healthy)] with the
    arguments saved when the [defer] statement executed.  A body that never
    returns runs no deferred call; a deferred call that blocks keeps the
    caller waiting. *)
Definition finish {A} (s1 : state) (saved : option connection * bool)
    (b : result A) (hv : bool) (w : wire) (cs : list iface) : call A :=
  match b with
  | OutOfFuel | Blocked => mkCall b b (Some saved) hv s1 w cs
  | _ =>
    match Return s1 (fst saved) (snd saved) with
    | Done s2 => mkCall b b (Some saved) hv s2 w cs
    | Blocked => mkCall b Blocked (Some saved) hv s1 w cs
    | Panic => mkCall b Panic (Some saved) hv s1 w cs
    | OutOfFuel => mkCall b OutOfFuel (Some saved) hv s1 w cs
    end
  end.

Definition Statistics (s : state) (evB evC : select_case) (mk : mkConn_result)
    (index bucket : string) (low high : list Byte.byte)
    (equal : list (list Byte.byte)) (inclusion : Z) (w : wire)
  : option (call (option IndexStatistics * option error)) :=
  match Get s evB evC mk with
  | None => None
  | Some (s1, g) =>
    match gerr g with
    | Some e => Some (mkCall (Done (None, Some e)) (Done (None, Some e))
                             None true s1 w [])
    | None =>
      let healthy := true in
      let saved := (got g, healthy) in   (* defer c.pool.Return(connectn, healthy) *)
      let req := StatisticsRequest index bucket low high equal inclusion in
      let '(b, healthy', w') := Statistics_body (got g) req w healthy in
      Some (finish s1 saved b healthy' w' [])
    end
  end.

Section Streaming.

(** A [ResponseHandler] is a closure: [H] is what it captures. *)
Variable H : Type.
Variable callb : H -> iface -> H * bool.

(** The flushing loop of [closeStream]; one unit of fuel per turn. *)
Fixpoint closeStream_loop (fuel : nat) (w : wire)
  : result (wire * option error) :=
  match fuel with
  | O => OutOfFuel
  | S fuel' =>
    let '(w1, r) := pktReceive w in
    match r with
    | inr e => Done (w1, Some e)          (* io.EOF and every other error *)
    | inl StreamEndResponse => Done (w1, None)
    | inl _ => closeStream_loop fuel' w1
    end
  end.

Definition closeStream (fuel : nat) (n : netConn) (w : wire)
  : result (wire * option error) :=
  let '(w1, serr) := sendRequest n w EndStreamRequest in
  match serr with
  | Some e => Done (w1, Some e)
  | None => closeStream_loop fuel w1
  end.

(** [streamResponse] returns [(cont, healthy, err)]. *)
Definition streamResponse (fuel : nat) (n : netConn) (w : wire) (h : H)
  : result (wire * H * list iface * (bool * bool * option error)) :=
  let '(w1, r) := pktReceive w in
  match r with
  | inr e =>
      let '(h1, _) := callb h (IErr e) in
      Done (w1, h1, [IErr e], (false, false, Some e))
  | inl StreamEndResponse =>
      let '(h1, _) := callb h (IMsg StreamEndResponse) in
      Done (w1, h1, [IMsg StreamEndResponse], (false, true, None))
  | inl resp =>
      let '(h1, cont) := callb h (IMsg resp) in
      if cont then Done (w1, h1, [IMsg resp], (true, true, None))
      else
        bind (closeStream fuel n w1)
             (fun '(w2, err) => Done (w2, h1, [IMsg resp], (false, true, err)))
  end.

(** [for cont { cont, healthy, err = c.streamResponse(conn, pkt, callb) }] *)
Fixpoint streamLoop (fuel : nat) (n : netConn) (w : wire) (h : H)
    (healthy : bool) (cs : list iface)
  : result (wire * H * list iface * bool) :=
  match fuel with
  | O => OutOfFuel
  | S fuel' =>
    bind (streamResponse fuel' n w h)
         (fun '(w1, h1, cs1, (cont, healthy1, _)) =>
            if cont then streamLoop fuel' n w1 h1 healthy1 (cs ++ cs1)
            else Done (w1, h1, cs ++ cs1, healthy1))
  end.

(** The statements of [Scan] and of [ScanAll] after the [defer]. *)
Definition scan_body (fuel : nat) (connectn : option connection)
    (req : request) (w : wire) (h : H) (healthy : bool)
  : result (option error) * bool * wire * H * list iface :=
  match connectn with
  | None => (Panic, healthy, w, h, [])
  | Some c =>
    match conn c with
    | None => (Panic, healthy, w, h, [])
    | Some n =>
      let '(w1, serr) := sendRequest n w req in
      match serr with
      | Some e => (Done (Some e), false, w1, h, [])
      | None =>
        match streamLoop fuel n w1 h healthy [] with
        | Done (w2, h2, cs, healthy2) => (Done None, healthy2, w2, h2, cs)
        | Blocked => (Blocked, healthy, w1, h, [])
        | Panic => (Panic, healthy, w1, h, [])
        | OutOfFuel => (OutOfFuel, healthy, w1, h, [])
        end
      end
    end
  end.

Definition scan_call (fuel : nat) (s : state) (evB evC : select_case)
    (mk : mkConn_result) (req : request) (w : wire) (h : H)
  : option (call (option error) * H) :=
  match Get s evB evC mk with
  | None => None
  | Some (s1, g) =>
    match gerr g with
    | Some e => Some (mkCall (Done (Some e)) (Done (Some e)) None true s1 w [], h)
    | None =>
      let healthy := true in
      let saved := (got g, healthy) in   (* defer c.pool.Return(connectn, healthy) *)
      let '(b, healthy', w', h', cs) := scan_body fuel (got g) req w h healthy in
      Some (finish s1 saved b healthy' w' cs, h')
    end
  end.

Definition Scan (fuel : nat) (s : state) (evB evC : select_case)
    (mk : mkConn_result) (index bucket : string) (low high : list Byte.byte)
    (equal : list (list Byte.byte)) (inclusion : Z) (pageSize : Z)
    (distinct : bool) (limit : Z) (w : wire) (h : H)
  : option (call (option error) * H) :=
  scan_call fuel s evB evC mk
    (ScanRequest index bucket low high equal inclusion pageSize distinct limit)
    w h.

Definition ScanAll (fuel : nat) (s : state) (evB evC : select_case)
    (mk : mkConn_result) (index bucket : string) (pageSize limit : Z)
    (w : wire) (h : H)
  : option (call (option error) * H) :=
  scan_call fuel s evB evC mk (ScanAllRequest index bucket pageSize limit) w h.

End Streaming.

(** ** The pool and its callers, one call after the other *)

(** Executions in which no two calls overlap: every action is a whole
    method, run from its first statement to its return before the next
    action begins.  [borrowed] lists what [Get] handed out with a nil error
    and the caller has not returned yet; [rel] is the retention routine. *)
Record system : Type := mkSystem {
  sys_state : state;
  borrowed : list (option connection);
  rel : routine
}.

Inductive action : Type :=
| ActGet (evB evC : select_case) (mk : mkConn_result)
    (* a caller runs [Get] *)
| ActGetLate (evB evC : select_case) (mk : mkConn_result)
    (* a caller that found no idle connection earlier and has been waiting
       in the second or third [select] is resolved now *)
| ActReturn (i : nat) (healthy : bool)
    (* the caller holding the [i]-th borrowed connection returns it *)
| ActRenew (i : nat) (mk : mkConn_result)
    (* the caller holding the [i]-th borrowed connection renews it *)
| ActTick (avg : Q)
    (* the routine wakes up from its one-second sleep *)
| ActClose.

Fixpoint remove_nth {A} (i : nat) (l : list A) : list A :=
  match l, i with
  | [], _ => []
  | _ :: rest, O => rest
  | x :: rest, S j => x :: remove_nth j rest
  end.

Fixpoint replace_nth {A} (i : nat) (x : A) (l : list A) : list A :=
  match l, i with
  | [], _ => []
  | _ :: rest, O => x :: rest
  | a :: rest, S j => a :: replace_nth j x rest
  end.

Definition handed_out (y : system) (r : state * get_ret) : system :=
  let '(s1, g) := r in
  mkSystem s1
           (match gerr g with
            | None => borrowed y ++ [got g]
            | Some _ => borrowed y
            end)
           (rel y).

(** Fuel that lets [releaseConns] take every buffered connection. *)
Definition enough (s : state) : nat := S (List.length (buf (connections (cp s)))).

Definition exec (y : system) (a : action) : option system :=
  match a with
  | ActGet evB evC mk =>
      option_map (handed_out y) (Get (sys_state y) evB evC mk)
  | ActGetLate evB evC mk =>
      option_map (handed_out y) (stageB (sys_state y) evB evC mk)
  | ActReturn i healthy =>
      match nth_error (borrowed y) i with
      | Some c =>
          match Return (sys_state y) c healthy with
          | Done s1 => Some (mkSystem s1 (remove_nth i (borrowed y)) (rel y))
          | _ => None
          end
      | None => None
      end
  | ActRenew i mk =>
      match nth_error (borrowed y) i with
      | Some (Some c) =>
          match Renew (sys_state y) c mk with
          | Done (s1, (c', _)) =>
              Some (mkSystem s1 (replace_nth i c' (borrowed y)) (rel y))
          | _ => None
          end
      | _ => None
      end
  | ActTick avg =>
      match routineTick (enough (sys_state y)) (sys_state y) (rel y) avg with
      | Done (s1, r1) => Some (mkSystem s1 (borrowed y) r1)
      | _ => None
      end
  | ActClose =>
      match Close (sys_state y) with
      | Done s1 => Some (mkSystem s1 (borrowed y) (rel y))
      | _ => None
      end
  end.

Fixpoint run (y : system) (l : list action) : option system :=
  match l with
  | [] => Some y
  | a :: rest =>
      match exec y a with
      | Some y1 => run y1 rest
      | None => None
      end
  end.

Definition init (p : connectionPool) : system :=
  mkSystem (mkState p []) [] (mkRoutine 0 0 false).

(** The states a pool built by [newConnectionPool] with the given
    [poolSize] and [poolOverflow] is in between two calls, when calls do
    not overlap. *)
Inductive reachable (poolSize poolOverflow : Z) : system -> Prop :=
| reach_init : forall host maxPayload timeout availTimeout wm batch p,
    is_int poolSize -> is_int poolOverflow ->
    newConnectionPool host poolSize poolOverflow maxPayload timeout
                      availTimeout wm batch = Some p ->
    reachable poolSize poolOverflow (init p)
| reach_step : forall y a y',
    reachable poolSize poolOverflow y ->
    exec y a = Some y' ->
    reachable poolSize poolOverflow y'.

(** The quantities the specification speaks of. *)
Definition free_count (y : system) : Z := freeConns (cp (sys_state y)).
Definition cur_active (y : system) : Z := curActConns (cp (sys_state y)).
Definition permits_held (y : system) : Z := len (createsem (cp (sys_state y))).

(** A pool whose counter agrees with its open idle buffer, every buffered
    connection having an endpoint. *)
Definition consistent (s : state) : Prop :=
  closed (connections (cp s)) = false /\
  freeConns (cp s) = len (connections (cp s)) /\
  Forall (fun c => conn c <> None) (buf (connections (cp s))).

(** A run of the routine over successive ticks. *)
Fixpoint runTicks (avgs : list Q) (s : state) (r : routine)
  : result (state * routine) :=
  match avgs with
  | [] => Done (s, r)
  | avg :: rest =>
      bind (routineTick (enough s) s r avg)
           (fun '(s1, r1) => runTicks rest s1 r1)
  end.

(** ** Predicates used in the statements *)




(** [b] connections are out with callers; [k] is the number the counter
    [freeConns] stands for.  While the idle buffer is open [k] is its
    length; [Close] drains the buffer and leaves the counter alone. *)
Definition pool_inv (P O : Z) (s : state) (b : Z) : Prop :=
  cap (connections (cp s)) = P /\
  cap (createsem (cp s)) = P + O /\
  closed (createsem (cp s)) = false /\
  len (createsem (cp s)) <= P + O /\
  0 <= b /\
  curActConns (cp s) = wrap32 b /\
  exists k,
    0 <= k <= P /\
    freeConns (cp s) = wrap32 k /\
    k + b <= len (createsem (cp s)) /\
    (closed (connections (cp s)) = false -> k = len (connections (cp s))) /\
    len (connections (cp s)) <= k.

Definition delta (g : get_ret) : Z :=
  match gerr g with
  | None => 1
  | Some _ => 0
  end.

(** ** Example states, scripts and handlers *)

Definition conn7 : connection := mkConnection (Some 7%nat) (Build_TransportPacket 1024).

Definition connN (n : nat) : connection :=
  mkConnection (Some n) (Build_TransportPacket 1024).

(** A pool of two idle slots and one overflow permit, nothing in it. *)
Definition emptyPool : connectionPool :=
  mkPool "127.0.0.1:9101" (mkChan [] 2 false) (mkChan [] 3 false)
         1024 1000 1 0 0 0 1 (mkChan [] 1 false).

(** A pool without idle slots whose single permit is taken. *)
Definition saturatedPool : connectionPool :=
  mkPool "127.0.0.1:9101" (mkChan [] 0 false) (mkChan [true] 1 false)
         1024 1000 1 1 0 0 1 (mkChan [] 1 false).

(** The pool in which [freeConns] is one ahead of the idle buffer: the
    state a concurrent [GetWithTimeout] leaves between its receive from
    [cp.connections] and its decrement of [cp.freeConns]. *)
Definition counterAhead : state :=
  mkState (mkPool "127.0.0.1:9101" (mkChan [] 2 false) (mkChan [true] 3 false)
                  1024 1000 1 0 0 1 1 (mkChan [] 1 false))
          [].

(** Five idle connections, nothing borrowed, floor 0, batch 3. *)
Definition fiveIdle : state :=
  mkState (mkPool "127.0.0.1:9101"
                  (mkChan (map connN [1; 2; 3; 4; 5]%nat) 10 false)
                  (mkChan [true; true; true; true; true] 10 false)
                  1024 1000 1 0 0 5 3 (mkChan [] 1 false))
          [].

(** One connection is created, returned healthy, and five seconds pass
    with no traffic. *)
Definition idleFiveSeconds : list action :=
  [ActGet CaseTimer CaseCreate (Some conn7, None);
   ActReturn 0 true;
   ActTick 0; ActTick 0; ActTick 0; ActTick 0; ActTick 0].

Definition brokenPipe : error := ErrOther "write: broken pipe".

Definition connReset : error := ErrOther "read: connection reset by peer".

Definition someStats : IndexStatistics := Build_IndexStatistics 42.

(** A handler that counts what it is given and asks for more. *)
Definition countingHandler (h : nat) (x : iface) : nat * bool := (S h, true).

(** A handler that loses interest after its second frame. *)
Definition twoFrames (h : nat) (x : iface) : nat * bool :=
  (S h, Nat.ltb h 1).

(** ** Further parts of the pool and of its callers *)


(** Every buffered connection has an endpoint. *)
Definition buf_ok (s : state) : Prop :=
  Forall (fun c => conn c <> None) (buf (connections (cp s))).

(** The endpoints of a list of connections. *)
Definition endpoints (l : list connection) : list netConn :=
  flat_map (fun c => match conn c with Some n => [n] | None => [] end) l.

(** What a handler answers, call after call, when it is given [cs]. *)
Fixpoint replay {H : Type} (callb : H -> iface -> H * bool) (h : H)
    (cs : list iface) : list bool :=
  match cs with
  | [] => []
  | x :: rest => snd (callb h x) :: replay callb (fst (callb h x)) rest
  end.

(** The handler state after it was given [cs]. *)
Fixpoint handler_after {H : Type} (callb : H -> iface -> H * bool) (h : H)
    (cs : list iface) : H :=
  match cs with
  | [] => h
  | x :: rest => handler_after callb (fst (callb h x)) rest
  end.

(** Every borrowed entry is a connection with an endpoint. *)
Definition all_live (bl : list (option connection)) : Prop :=
  Forall (fun oc => exists c n, oc = Some c /\ conn c = Some n) bl.

(** The end-of-stream marker, told apart by type. *)
Definition is_end (m : message) : bool :=
  match m with
  | StreamEndResponse => true
  | _ => false
  end.

(** What ends a flush: the end marker, or a failed receive. *)
Definition flush_result (r : message + error) : option error :=
  match r with
  | inl _ => None
  | inr e => Some e
  end.

Definition ends_flush (r : message + error) : bool :=
  match r with
  | inl m => is_end m
  | inr _ => true
  end.

(** The first [k] sends of the script go through. *)
Definition sends_ok (k : nat) (w : wire) : Prop :=
  Forall (eq None) (firstn k (sendq w)).

(** The call came back to its caller, by a return or by a panic. *)
Definition came_back {A} (r : call A) : Prop :=
  (exists v, ret r = Done v) \/ ret r = Panic.

(** ** Helpers of the restore planner ([manager/restore.go]) *)

(** The declarations of package [planner] and of [common.IndexInst] are not
    among the sources; the records below hold the fields the helpers
    read.  A nil [Instance] is [None].  The helpers compare indexer nodes
    by pointer: [nodeRef] is the identity of the node. *)
Record IndexInst : Type := mkIndexInst {
  ReplicaId : Z;
  Version : Z;
  RState : Z
}.

Record IndexUsage : Type := mkIndexUsage {
  DefnId : Z;
  InstId : Z;
  PartnId : Z;
  Name : string;
  Bucket : string;
  Instance : option IndexInst
}.

Record IndexerNode : Type := mkIndexerNode {
  nodeRef : nat;
  IndexerId : string;
  Indexes : list IndexUsage
}.

Record Plan : Type := mkPlan {
  Placement : list IndexerNode
}.

(** [isMember]: is the node (the same pointer) among the candidates? *)
Fixpoint isMember (candidates : list IndexerNode) (indexer : IndexerNode)
  : bool :=
  match candidates with
  | [] => false
  | candidate :: rest =>
      if Nat.eqb (nodeRef candidate) (nodeRef indexer) then true
      else isMember rest indexer
  end.

(** The test in the inner loop of [isSubset]. *)
Definition sameReplica (super sub : IndexUsage) : bool :=
  String.eqb (Bucket super) (Bucket sub) &&
  String.eqb (Name super) (Name sub) &&
  (PartnId super =? PartnId sub) &&
  match Instance super, Instance sub with
  | Some a, Some b => ReplicaId a =? ReplicaId b
  | _, _ => false
  end.

(** The inner loop of [isSubset]: [found]. *)
Fixpoint foundIn (superset : list IndexUsage) (sub : IndexUsage) : bool :=
  match superset with
  | [] => false
  | super :: rest => if sameReplica super sub then true else foundIn rest sub
  end.

Fixpoint isSubset (superset subset : list IndexUsage) : bool :=
  match subset with
  | [] => true
  | sub :: rest => if foundIn superset sub then isSubset superset rest else false
  end.

(** The loop of [findMatchingIndexer] over the candidates. *)
Fixpoint findMatchingIndexer_loop (indexerId : string)
    (indexes : list IndexUsage) (candidates excludes : list IndexerNode)
  : option IndexerNode :=
  match candidates with
  | [] => None
  | indexer :: rest =>
      if isMember excludes indexer
      then findMatchingIndexer_loop indexerId indexes rest excludes
      else if String.eqb indexerId (IndexerId indexer) then Some indexer
      else if negb (Nat.eqb (List.length (Indexes indexer)) 0)
              && isSubset indexes (Indexes indexer)
      then Some indexer
      else findMatchingIndexer_loop indexerId indexes rest excludes
  end.

Definition findMatchingIndexer (indexerId : string) (indexes : list IndexUsage)
    (candidates excludes : list IndexerNode) : option IndexerNode :=
  if Nat.eqb (List.length indexes) 0 then None
  else findMatchingIndexer_loop indexerId indexes candidates excludes.

Fixpoint findNumEmptyIndexer (indexers excludes : list IndexerNode) : Z :=
  match indexers with
  | [] => 0
  | indexer :: rest =>
      if isMember excludes indexer then findNumEmptyIndexer rest excludes
      else if Nat.eqb (List.length (Indexes indexer)) 0
      then findNumEmptyIndexer rest excludes + 1
      else findNumEmptyIndexer rest excludes
  end.

Fixpoint findIndexer_loop (placement : list IndexerNode) (indexerId : string)
  : option IndexerNode :=
  match placement with
  | [] => None
  | indexer :: rest =>
      if String.eqb (IndexerId indexer) indexerId then Some indexer
      else findIndexer_loop rest indexerId
  end.

Definition findIndexer (plan : Plan) (indexerId : string) : option IndexerNode :=
  findIndexer_loop (Placement plan) indexerId.

(** The two nested loops shared by [findMatchingInst],
    [findMatchingReplica] and [findAnyReplica]: the first usage, in
    placement order, that has an instance and passes the test. *)
Fixpoint firstUsage (test : IndexUsage -> IndexInst -> bool)
    (indexes : list IndexUsage) : option IndexUsage :=
  match indexes with
  | [] => None
  | index :: rest =>
      match Instance index with
      | Some inst => if test index inst then Some index else firstUsage test rest
      | None => firstUsage test rest
      end
  end.

Fixpoint firstInPlacement (test : IndexUsage -> IndexInst -> bool)
    (placement : list IndexerNode) : option IndexUsage :=
  match placement with
  | [] => None
  | indexers :: rest =>
      match firstUsage test (Indexes indexers) with
      | Some index => Some index
      | None => firstInPlacement test rest
      end
  end.

Definition findMatchingInst (current : Plan) (bucket name : string)
  : option IndexUsage :=
  firstInPlacement
    (fun index _ => String.eqb (Bucket index) bucket && String.eqb (Name index) name)
    (Placement current).

Definition findMatchingReplica (current : Plan) (bucket name : string)
    (partnId replicaId : Z) : option IndexUsage :=
  firstInPlacement
    (fun index inst =>
       String.eqb (Bucket index) bucket && String.eqb (Name index) name &&
       (PartnId index =? partnId) && (ReplicaId inst =? replicaId))
    (Placement current).

Definition findAnyReplica (current : Plan) (bucket name : string)
    (replicaId : Z) : option IndexUsage :=
  firstInPlacement
    (fun index inst =>
       String.eqb (Bucket index) bucket && String.eqb (Name index) name &&
       (ReplicaId inst =? replicaId))
    (Placement current).

(** [replicaMap[id] = true] on a map used as a set: the keys, without
    repetition. *)
Definition setKey (replicaMap : list Z) (id : Z) : list Z :=
  if existsb (Z.eqb id) replicaMap then replicaMap else id :: replicaMap.

(** The loops of [findNumReplica]; reading the replica id of a usage
    without instance is a nil dereference ([None]). *)
Fixpoint numReplica_indexes (indexes : list IndexUsage) (defnId : Z)
    (replicaMap : list Z) : option (list Z) :=
  match indexes with
  | [] => Some replicaMap
  | index :: rest =>
      if defnId =? DefnId index then
        match Instance index with
        | Some inst => numReplica_indexes rest defnId (setKey replicaMap (ReplicaId inst))
        | None => None
        end
      else numReplica_indexes rest defnId replicaMap
  end.

Fixpoint numReplica_nodes (indexers : list IndexerNode) (defnId : Z)
    (replicaMap : list Z) : option (list Z) :=
  match indexers with
  | [] => Some replicaMap
  | indexer :: rest =>
      match numReplica_indexes (Indexes indexer) defnId replicaMap with
      | Some m => numReplica_nodes rest defnId m
      | None => None
      end
  end.

Definition findNumReplica (indexers : list IndexerNode) (defnId : Z)
  : option Z :=
  option_map (fun m => Z.of_nat (List.length m))
             (numReplica_nodes indexers defnId []).

(** Example data for the helpers. *)
Definition usage (name : string) (partn replica : Z) : IndexUsage :=
  mkIndexUsage 1 10 partn name "default" (Some (mkIndexInst replica 0 0)).

Definition nodeA : IndexerNode :=
  mkIndexerNode 1 "indexer-a" [usage "idx1" 0 0; usage "idx2" 0 0].

Definition nodeB : IndexerNode :=
  mkIndexerNode 2 "indexer-b" [usage "idx1" 0 1].

Definition nodeEmpty : IndexerNode := mkIndexerNode 3 "indexer-c" [].

(** The test [findMatchingIndexer] applies to a candidate. *)
Definition acceptable (indexerId : string) (indexes : list IndexUsage)
    (excludes : list IndexerNode) (indexer : IndexerNode) : Prop :=
  isMember excludes indexer = false /\
  (indexerId = IndexerId indexer \/
   (Indexes indexer <> [] /\ isSubset indexes (Indexes indexer) = true)).

(** The replica ids [findNumReplica] is to count: those of the usages of
    definition [defnId] in the given list. *)
Definition replicaOf (defnId : Z) (indexes : list IndexUsage) (id : Z) : Prop :=
  exists u inst,
    In u indexes /\ DefnId u = defnId /\ Instance u = Some inst /\
    ReplicaId inst = id.

Definition lacksInstance (defnId : Z) (indexes : list IndexUsage) : Prop :=
  exists u, In u indexes /\ DefnId u = defnId /\ Instance u = None.

(** ** The pool under concurrent callers *)

(** [GetWithTimeout], [Return] and [Close] run in the goroutines of their
    callers and [releaseConnsRoutine] in its own; a goroutine can be
    overtaken between any two of its operations on the pool.  A [pc] is a
    goroutine inside one of the three methods: the operation on the shared
    pool it is about to perform - a channel operation, an atomic add, the
    closing of an endpoint - together with the locals it holds.  Statements
    that touch nothing shared run with the operation that follows them. *)
Inductive pc : Type :=
(* GetWithTimeout *)
| GetSelect1                                      (* the select with default *)
| GetSelect2                                      (* conn or avail timer *)
| GetSelect3                                      (* conn, permit or timer *)
| GetDecFree (c : connection) (label : string)    (* AddInt32(&freeConns, -1) *)
| GetIncAct (c : connection) (label : string)     (* AddInt32(&curActConns, 1) *)
| GetMkConn                                       (* cp.mkConn(cp.host) *)
| GetUnhold (connectn : option connection) (e : error)   (* <-cp.createsem *)
| GetIncActNew (connectn : option connection)     (* AddInt32(&curActConns, 1) *)
| GetDone (g : get_ret)
(* Return *)
| RetStart (connectn : option connection) (healthy : bool)
| RetIncFree                                      (* AddInt32(&freeConns, 1) *)
| RetUnhold (n : netConn)                         (* <-cp.createsem *)
| RetNetClose (n : netConn)                       (* connectn.conn.Close() *)
| RetDecAct                                       (* the deferred decrement *)
| RetDone
(* Close *)
| CloseSignal                                     (* cp.stopCh <- true *)
| CloseChan                                       (* close(cp.connections) *)
| CloseRange                                      (* range cp.connections *)
| CloseNetClose (c : connection)                  (* connectn.conn.Close() *)
| CloseDone.

(** A receive from [cp.connections] in [GetWithTimeout]; [wait] is where
    the goroutine goes when nothing is ready ([None]: it stays). *)
Definition take (s : state) (label : string) (wait : option pc)
  : option (state * pc) :=
  match recv (connections (cp s)) with
  | RecvVal c ch' =>
      Some (with_pool s (set_connections (cp s) ch'), GetDecFree c label)
  | RecvClosed =>
      Some (s, GetDone (mkGetRet None (Some ErrorClosedPool) label))
  | RecvNotReady => option_map (pair s) wait
  end.

(** One operation of a caller; [None] when the goroutine cannot move:
    it waits on a channel, or it has returned.  [ev] is the case a
    blocking [select] resolves to, [mk] what [cp.mkConn] answers. *)
Definition step_caller (s : state) (p : pc) (ev : select_case)
    (mk : mkConn_result) : option (state * pc) :=
  match p with
  | GetSelect1 => take s "short-circuit" (Some GetSelect2)
  | GetSelect2 =>
      match ev with
      | CaseConn => take s "avail1" None
      | CaseTimer => Some (s, GetSelect3)
      | CaseCreate => None
      end
  | GetSelect3 =>
      match ev with
      | CaseConn => take s "avail2" None
      | CaseCreate =>
          match send (createsem (cp s)) true with
          | SendOk sem' =>
              Some (with_pool s (set_createsem (cp s) sem'), GetMkConn)
          | _ => None
          end
      | CaseTimer =>
          Some (s, GetDone (mkGetRet None (Some ErrorPoolTimeout)
                                     "short-circuit"))
      end
  | GetDecFree c label => Some (addFreeConns s (-1), GetIncAct c label)
  | GetIncAct c label =>
      Some (addCurActConns s 1, GetDone (mkGetRet (Some c) None label))
  | GetMkConn =>
      let '(connectn, err) := mk in
      match err with
      | Some e => Some (s, GetUnhold connectn e)
      | None => Some (s, GetIncActNew connectn)
      end
  | GetUnhold connectn e =>
      match recv (createsem (cp s)) with
      | RecvVal _ sem' =>
          Some (with_pool s (set_createsem (cp s) sem'),
                GetDone (mkGetRet connectn (Some e) "create"))
      | _ => None
      end
  | GetIncActNew connectn =>
      Some (addCurActConns s 1, GetDone (mkGetRet connectn None "create"))
  | GetDone _ => None
  | RetStart connectn healthy =>
      match connectn with
      | None => Some (addCurActConns s (-1), RetDone)
      | Some c =>
        match conn c with
        | None => Some (addCurActConns s (-1), RetDone)
        | Some n =>
          if healthy then
            match send (connections (cp s)) c with
            | SendOk ch' =>
                Some (with_pool s (set_connections (cp s) ch'), RetIncFree)
            | SendNotReady => Some (s, RetUnhold n)
            | SendPanic => Some (s, RetNetClose n)   (* recovered *)
            end
          else
            match releasePermit s with
            | Done s1 => Some (s1, RetNetClose n)
            | _ => None
            end
        end
      end
  | RetIncFree => Some (addFreeConns s 1, RetDecAct)
  | RetUnhold n =>
      match releasePermit s with
      | Done s1 => Some (s1, RetNetClose n)
      | _ => None
      end
  | RetNetClose n =>
      match netClose s (Some n) with
      | Done s1 => Some (s1, RetDecAct)
      | _ => None
      end
  | RetDecAct => Some (addCurActConns s (-1), RetDone)
  | RetDone => None
  | CloseSignal =>
      match send (stopCh (cp s)) true with
      | SendOk stop' => Some (with_pool s (set_stopCh (cp s) stop'), CloseChan)
      | _ => None
      end
  | CloseChan =>
      let ch := connections (cp s) in
      if closed ch then Some (s, CloseDone)      (* close panics, recovered *)
      else Some (with_pool s (set_connections (cp s)
                                (mkChan (buf ch) (cap ch) true)),
                 CloseRange)
  | CloseRange =>
      match recv (connections (cp s)) with
      | RecvVal c ch' =>
          Some (with_pool s (set_connections (cp s) ch'), CloseNetClose c)
      | RecvClosed => Some (s, CloseDone)
      | RecvNotReady => None
      end
  | CloseNetClose c =>
      match netClose s (conn c) with
      | Done s1 => Some (s1, CloseRange)
      | _ => Some (s, CloseDone)                 (* nil endpoint, recovered *)
      end
  | CloseDone => None
  end.





    (* the routine performs its next operation *)












Fixpoint total (f : pc -> Z) (l : list pc) : Z :=
  match l with
  | [] => 0
  | p :: rest => f p + total f rest
  end.













(** A goroutine running alone: [n] operations in a row, the second
    [select] of [GetWithTimeout] resolved to [evB], the third to [evC]. *)
Fixpoint alone (n : nat) (s : state) (p : pc) (evB evC : select_case)
    (mk : mkConn_result) : state * pc :=
  match n with
  | O => (s, p)
  | S n' =>
      match step_caller s p (match p with GetSelect2 => evB | _ => evC end) mk
      with
      | Some (s', p') => alone n' s' p' evB evC mk
      | None => (s, p)
      end
  end.









(** * Properties *)

(** ** Arithmetic of the wrapped integers *)

Lemma wrap32_small (z : Z) : is_int32 z -> wrap32 z = z.
Proof.
  unfold is_int32, wrap32. intros Hz.
  rewrite Z.mod_small; lia.
Qed.

Lemma wrap32_range (z : Z) : is_int32 (wrap32 z).
Proof.
  unfold is_int32, wrap32.
  pose proof (Z.mod_pos_bound (z + 2 ^ 31) (2 ^ 32)). lia.
Qed.


Lemma wrap32_add_l (a b : Z) : wrap32 (wrap32 a + b) = wrap32 (a + b).
Proof.
  unfold wrap32.
  replace ((a + 2 ^ 31) mod 2 ^ 32 - 2 ^ 31 + b + 2 ^ 31)
    with ((a + 2 ^ 31) mod 2 ^ 32 + b) by lia.
  rewrite Zplus_mod_idemp_l. f_equal. f_equal. lia.
Qed.

Lemma add32_wrap (a d : Z) : add32 (wrap32 a) d = wrap32 (a + d).
Proof. unfold add32. apply wrap32_add_l. Qed.

Lemma wrap64_nonneg (z : Z) :
  - 2 ^ 63 <= z < 2 ^ 64 -> 0 <= wrap64 z -> wrap64 z = z.
Proof.
  unfold wrap64. intros Hz Hw.
  destruct (Z_lt_le_dec z (2 ^ 63)) as [Hlt | Hge].
  - rewrite Z.mod_small; lia.
  - exfalso.
    replace (z + 2 ^ 63) with (z - 2 ^ 63 + 1 * 2 ^ 64) in Hw by lia.
    rewrite Z_mod_plus_full in Hw.
    rewrite Z.mod_small in Hw; lia.
Qed.

Lemma max_is_Zmax (a b : Z) : max a b = Z.max a b.
Proof. unfold max. destruct (Z.gtb_spec a b); lia. Qed.

(** ** Acquisition: the grow-or-wait stage *)

Lemma createConn_ok (s : state) (c : option connection) :
  closed (createsem (cp s)) = false ->
  len (createsem (cp s)) < cap (createsem (cp s)) ->
  createConn s (c, None) =
    Some (addCurActConns
            (with_pool s (set_createsem (cp s)
               (mkChan (buf (createsem (cp s)) ++ [true])
                       (cap (createsem (cp s))) false))) 1,
          mkGetRet c None "create").
Proof.
  intros Hopen Hroom. unfold createConn, send.
  rewrite Hopen. apply Z.ltb_lt in Hroom. rewrite Hroom. reflexivity.
Qed.

Lemma createConn_dial_error (s : state) (c : option connection) (e : error) :
  closed (createsem (cp s)) = false ->
  len (createsem (cp s)) < cap (createsem (cp s)) ->
  exists s',
    createConn s (c, Some e) = Some (s', mkGetRet c (Some e) "create") /\
    len (createsem (cp s')) = len (createsem (cp s)) /\
    cap (createsem (cp s')) = cap (createsem (cp s)) /\
    curActConns (cp s') = curActConns (cp s) /\
    freeConns (cp s') = freeConns (cp s) /\
    connections (cp s') = connections (cp s) /\
    netClosed s' = netClosed s.
Proof.
  intros Hopen Hroom. unfold createConn, send.
  rewrite Hopen. apply Z.ltb_lt in Hroom. rewrite Hroom.
  unfold recv. cbn [cp with_pool set_createsem createsem buf].
  destruct (buf (createsem (cp s))) as [| b rest] eqn:Hbuf; cbn [app].
  - eexists. split; [reflexivity |]. cbn. unfold len. rewrite Hbuf.
    repeat split; reflexivity.
  - eexists. split; [reflexivity |]. cbn. unfold len. rewrite Hbuf. cbn [buf].
    repeat split; try reflexivity.
    rewrite length_app. cbn [List.length]. f_equal. lia.
Qed.

Lemma takeConn_not_ready (s : state) (label : string) :
  buf (connections (cp s)) = [] ->
  closed (connections (cp s)) = false ->
  takeConn s label = None.
Proof.
  intros Hbuf Hopen. unfold takeConn, recv. rewrite Hbuf, Hopen. reflexivity.
Qed.

Lemma createConn_not_ready (s : state) (mk : mkConn_result) :
  cap (createsem (cp s)) <= len (createsem (cp s)) ->
  createConn s mk = None.
Proof.
  intros Hfull. unfold createConn, send.
  destruct (closed (createsem (cp s))); [reflexivity |].
  apply Z.ltb_ge in Hfull. rewrite Hfull. reflexivity.
Qed.

(** C3 -- Stage C of acquisition.  With a create permit to be had: when
    the make-connection function fails, the permit is given back (the
    semaphore holds as many permits as before), the active count is
    untouched and the dial error is returned; when it succeeds, the permit
    stays in the semaphore, [curActConns] goes up by one and the new
    connection is returned.  With no idle connection and no permit to be
    had, every way the acquisition can end is the timer: it returns
    [ErrorPoolTimeout] and leaves the pool as it was. *)
Theorem stageC_grow_or_wait (s : state) :
  (closed (createsem (cp s)) = false ->
   len (createsem (cp s)) < cap (createsem (cp s)) ->
   (forall c e, exists s',
       stageC s CaseCreate (c, Some e) = Some (s', mkGetRet c (Some e) "create") /\
       len (createsem (cp s')) = len (createsem (cp s)) /\
       curActConns (cp s') = curActConns (cp s) /\
       freeConns (cp s') = freeConns (cp s) /\
       connections (cp s') = connections (cp s)) /\
   (forall c, exists s',
       stageC s CaseCreate (c, None) = Some (s', mkGetRet c None "create") /\
       buf (createsem (cp s')) = buf (createsem (cp s)) ++ [true] /\
       curActConns (cp s') = add32 (curActConns (cp s)) 1 /\
       freeConns (cp s') = freeConns (cp s) /\
       connections (cp s') = connections (cp s)))
  /\
  (buf (connections (cp s)) = [] ->
   closed (connections (cp s)) = false ->
   cap (createsem (cp s)) <= len (createsem (cp s)) ->
   forall d mk,
     GetWithTimeout s d CaseTimer CaseTimer mk =
       Some (s, mkGetRet None (Some ErrorPoolTimeout) "short-circuit") /\
     (forall evB evC r,
        GetWithTimeout s d evB evC mk = Some r ->
        r = (s, mkGetRet None (Some ErrorPoolTimeout) "short-circuit")) /\
     (forall evC r,
        stageC s evC mk = Some r ->
        r = (s, mkGetRet None (Some ErrorPoolTimeout) "short-circuit"))).
Proof.
  split.
  - intros Hopen Hroom. split.
    + intros c e.
      destruct (createConn_dial_error s c e Hopen Hroom)
        as (s' & Heq & Hlen & _ & Hact & Hfree & Hconns & _).
      exists s'. cbn [stageC]. repeat split; assumption.
    + intros c. eexists. cbn [stageC].
      split; [apply createConn_ok; assumption |].
      repeat split; reflexivity.
  - intros Hbuf Hopen Hfull d mk.
    assert (HC : forall evC r, stageC s evC mk = Some r ->
              r = (s, mkGetRet None (Some ErrorPoolTimeout) "short-circuit")).
    { intros evC r. destruct evC; cbn [stageC].
      - rewrite takeConn_not_ready by assumption. discriminate.
      - rewrite createConn_not_ready by assumption. discriminate.
      - intros Heq. injection Heq as <-. reflexivity. }
    unfold GetWithTimeout.
    rewrite (takeConn_not_ready s "short-circuit") by assumption.
    split; [reflexivity |]. split; [| exact HC].
    intros evB evC r. destruct evB; cbn [stageB].
    + rewrite takeConn_not_ready by assumption. discriminate.
    + discriminate.
    + apply HC.
Qed.

Lemma stageC_grow_or_wait_witness :
  (exists s',
     stageC (mkState emptyPool []) CaseCreate (Some conn7, None)
       = Some (s', mkGetRet (Some conn7) None "create") /\
     buf (createsem (cp s')) = [true] /\ curActConns (cp s') = 1) /\
  GetWithTimeout (mkState saturatedPool []) 1000 CaseTimer CaseTimer
                 (Some conn7, None)
    = Some (mkState saturatedPool [],
            mkGetRet None (Some ErrorPoolTimeout) "short-circuit").
Proof.
  split.
  - destruct (stageC_grow_or_wait (mkState emptyPool [])) as [Hgrow _].
    destruct (Hgrow eq_refl ltac:(vm_compute; reflexivity)) as [_ Hok].
    destruct (Hok (Some conn7)) as (s' & Heq & Hsem & Hact & _).
    exists s'. split; [exact Heq |]. split; [exact Hsem | exact Hact].
  - destruct (stageC_grow_or_wait (mkState saturatedPool [])) as [_ Hwait].
    destruct (Hwait eq_refl eq_refl ltac:(vm_compute; discriminate)
                    1000 (Some conn7, None)) as [Heq _].
    exact Heq.
Defined.

(** ** Return *)

Lemma releasePermit_held (s : state) (b : bool) (rest : list bool) :
  buf (createsem (cp s)) = b :: rest ->
  releasePermit s =
    Done (with_pool s (set_createsem (cp s)
            (mkChan rest (cap (createsem (cp s))) (closed (createsem (cp s)))))).
Proof.
  intros Hbuf. unfold releasePermit, recv. rewrite Hbuf. reflexivity.
Qed.

Lemma releasePermit_none (s : state) :
  buf (createsem (cp s)) = [] -> releasePermit s = Blocked.
Proof.
  intros Hbuf. unfold releasePermit, recv. rewrite Hbuf.
  destruct (closed (createsem (cp s))); reflexivity.
Qed.




(** ** The accounting of calls that do not overlap *)

Ltac inv_open H :=
  let k := fresh "k" in
  destruct H as (HcapC & HcapS & HopenS & HlenS & Hb & Hact & k &
                 Hk & Hfree & Hsum & Hopen & Hshut).

(** Splits the invariant into its eleven parts, [kk] being the number the
    idle counter stands for. *)
Ltac inv_split kk :=
  unfold pool_inv;
  split; [| split; [| split; [| split; [| split; [| split; [|
    exists kk; split; [| split; [| split; [| split]]]]]]]]].

(** Closes a part of the invariant from the parts of the one before. *)
Ltac inv_part :=
  cbn; unfold len in *; cbn;
  rewrite ?length_app; cbn [List.length];
  first
    [ assumption
    | reflexivity
    | lia
    | match goal with
      | Ha : curActConns _ = wrap32 _ |- _ = wrap32 _ =>
          rewrite Ha; apply add32_wrap
      end
    | match goal with
      | Hf : freeConns _ = wrap32 _ |- _ = wrap32 _ =>
          rewrite Hf; apply add32_wrap
      end
    | let Hc := fresh "Hc" in
      intros Hc;
      match goal with
      | Ho : _ = false -> _ |- _ => specialize (Ho Hc); lia
      end
    | intros; discriminate ].

Lemma takeConn_inv (P O : Z) (s s' : state) (b : Z) (l : string) (g : get_ret) :
  pool_inv P O s b ->
  takeConn s l = Some (s', g) ->
  pool_inv P O s' (b + delta g).
Proof.
  intros Hinv. unfold takeConn, recv.
  destruct (buf (connections (cp s))) as [| c rest] eqn:Hbuf.
  - destruct (closed (connections (cp s))) eqn:Hcl; [| discriminate].
    intros Heq. injection Heq as <- <-. unfold delta. cbn [gerr].
    rewrite Z.add_0_r. exact Hinv.
  - intros Heq. injection Heq as <- <-. unfold delta. cbn [gerr].
    inv_open Hinv.
    assert (Hlen : Z.of_nat (List.length (buf (connections (cp s)))) =
                   Z.of_nat (List.length rest) + 1).
    { rewrite Hbuf. cbn [List.length]. lia. }
    inv_split (k - 1); inv_part.
Qed.

Lemma createConn_inv (P O : Z) (s s' : state) (b : Z) (mk : mkConn_result)
    (g : get_ret) :
  pool_inv P O s b ->
  createConn s mk = Some (s', g) ->
  pool_inv P O s' (b + delta g).
Proof.
  intros Hinv. inv_open Hinv. unfold createConn, send. rewrite HopenS.
  destruct (Z.ltb_spec (len (createsem (cp s))) (cap (createsem (cp s))))
    as [Hroom | Hfull]; [| discriminate].
  destruct mk as [connectn [e |]].
  - unfold recv. cbn [cp with_pool set_createsem createsem buf cap closed].
    destruct (buf (createsem (cp s)) ++ [true]) as [| x rest] eqn:Happ.
    { discriminate. }
    intros Heq. injection Heq as <- <-. unfold delta. cbn [gerr].
    rewrite Z.add_0_r.
    assert (Hlen : Z.of_nat (List.length rest) =
                   Z.of_nat (List.length (buf (createsem (cp s))))).
    { apply (f_equal (@List.length bool)) in Happ.
      rewrite length_app in Happ. cbn [List.length] in Happ. lia. }
    inv_split k; inv_part.
  - intros Heq. injection Heq as <- <-. unfold delta. cbn [gerr].
    inv_split k; inv_part.
Qed.

Lemma stageB_inv (P O : Z) (s s' : state) (b : Z) (evB evC : select_case)
    (mk : mkConn_result) (g : get_ret) :
  pool_inv P O s b ->
  stageB s evB evC mk = Some (s', g) ->
  pool_inv P O s' (b + delta g).
Proof.
  intros Hinv. destruct evB; cbn [stageB]; try discriminate.
  - apply takeConn_inv; assumption.
  - destruct evC; cbn [stageC].
    + apply takeConn_inv; assumption.
    + apply createConn_inv; assumption.
    + intros Heq. injection Heq as <- <-. unfold delta. cbn [gerr].
      rewrite Z.add_0_r. assumption.
Qed.

Lemma Get_inv (P O : Z) (s s' : state) (b : Z) (evB evC : select_case)
    (mk : mkConn_result) (g : get_ret) :
  pool_inv P O s b ->
  Get s evB evC mk = Some (s', g) ->
  pool_inv P O s' (b + delta g).
Proof.
  intros Hinv. unfold Get, GetWithTimeout.
  destruct (takeConn s "short-circuit") as [[s1 g1] |] eqn:Htake.
  - intros Heq. injection Heq as <- <-.
    apply (takeConn_inv P O s s1 b "short-circuit"); assumption.
  - apply stageB_inv; assumption.
Qed.

Lemma addCurActConns_inv (P O : Z) (s : state) (b : Z) :
  pool_inv P O s b -> 1 <= b ->
  pool_inv P O (addCurActConns s (-1)) (b - 1).
Proof.
  intros Hinv Hb1. inv_open Hinv. inv_split k; inv_part.
Qed.

(** Releasing a permit makes room for one connection less: the invariant
    carries over with one connection fewer accounted for. *)
Lemma releasePermit_inv (P O : Z) (s s' : state) (b : Z) (n : netConn) :
  pool_inv P O s b -> 1 <= b ->
  releasePermit s = Done s' ->
  pool_inv P O (addCurActConns (mkState (cp s') (netClosed s' ++ [n])) (-1))
           (b - 1).
Proof.
  intros Hinv Hb1. inv_open Hinv. unfold releasePermit, recv.
  destruct (buf (createsem (cp s))) as [| x rest] eqn:Hsem.
  { destruct (closed (createsem (cp s))); discriminate. }
  intros Heq. injection Heq as <-.
  assert (Hlen : Z.of_nat (List.length (buf (createsem (cp s)))) =
                 Z.of_nat (List.length rest) + 1).
  { rewrite Hsem. cbn [List.length]. lia. }
  inv_split k; inv_part.
Qed.

Lemma Return_inv (P O : Z) (s s' : state) (b : Z) (connectn : option connection)
    (healthy : bool) :
  pool_inv P O s b -> 1 <= b ->
  Return s connectn healthy = Done s' ->
  pool_inv P O s' (b - 1).
Proof.
  intros Hinv Hb1. unfold Return, Return_body.
  destruct connectn as [c |];
    [| intros Heq; injection Heq as <-; apply addCurActConns_inv; assumption].
  destruct (conn c) as [n |] eqn:Hc;
    [| intros Heq; injection Heq as <-; apply addCurActConns_inv; assumption].
  assert (Hrelease :
    bind (bind (releasePermit s) (fun s1 => netClose s1 (Some n)))
         (fun s1 => Done (addCurActConns s1 (-1))) = Done s' ->
    pool_inv P O s' (b - 1)).
  { destruct (releasePermit s) as [s1 | | |] eqn:Hrel; cbn; try discriminate.
    intros Heq. injection Heq as <-.
    exact (releasePermit_inv P O s s1 b n Hinv Hb1 Hrel). }
  destruct healthy; [| exact Hrelease].
  unfold send.
  destruct (closed (connections (cp s))) eqn:Hcl.
  - cbn. intros Heq. injection Heq as <-.
    apply (addCurActConns_inv P O (mkState (cp s) (netClosed s ++ [n])) b);
      assumption.
  - destruct (Z.ltb_spec (len (connections (cp s))) (cap (connections (cp s))))
      as [Hroom | Hfull]; [| exact Hrelease].
    cbn. intros Heq. injection Heq as <-.
    inv_open Hinv. specialize (Hopen Hcl).
    inv_split (k + 1); inv_part.
Qed.

Lemma releaseConns_inv (P O : Z) (b : Z) (numRetConns : Z) (fuel : nat) :
  forall s s',
    pool_inv P O s b ->
    releaseConns fuel s numRetConns = Done s' ->
    pool_inv P O s' b.
Proof.
  induction fuel as [| fuel IH]; intros s s' Hinv; cbn [releaseConns];
    [discriminate |].
  destruct ((add32 (curActConns (cp s)) (freeConns (cp s)) >? numRetConns)
            && (freeConns (cp s) >? 0));
    [| intros Heq; injection Heq as <-; exact Hinv].
  unfold recv.
  destruct (buf (connections (cp s))) as [| c rest] eqn:Hbuf.
  - destruct (closed (connections (cp s)));
      [intros Heq; injection Heq as <-; exact Hinv | apply IH; exact Hinv].
  - destruct (conn c) as [n |]; cbn [netClose bind]; [| discriminate].
    apply IH. inv_open Hinv.
    assert (Hlen : Z.of_nat (List.length (buf (connections (cp s)))) =
                   Z.of_nat (List.length rest) + 1).
    { rewrite Hbuf. cbn [List.length]. lia. }
    inv_split (k - 1); inv_part.
Qed.

Lemma routineTick_inv (P O : Z) (b : Z) (fuel : nat) (s s' : state)
    (r r' : routine) (avg : Q) :
  pool_inv P O s b ->
  routineTick fuel s r avg = Done (s', r') ->
  pool_inv P O s' b.
Proof.
  intros Hinv. unfold routineTick.
  destruct (stopped r); [intros Heq; injection Heq as <- <-; exact Hinv |].
  assert (Hdefault :
    (if ri r =? CONN_RELEASE_INTERVAL - 1
     then let '(numRetConns, needToFreeConns) := numConnsToRetain (cp s) avg in
          if needToFreeConns
          then bind (releaseConns fuel s numRetConns)
                 (fun s1 => Done (s1,
                    mkRoutine ((ri r + 1) mod CONN_RELEASE_INTERVAL)
                              ((rj r + 1) mod CONN_COUNT_LOG_INTERVAL) false))
          else Done (s, mkRoutine ((ri r + 1) mod CONN_RELEASE_INTERVAL)
                              ((rj r + 1) mod CONN_COUNT_LOG_INTERVAL) false)
     else Done (s, mkRoutine ((ri r + 1) mod CONN_RELEASE_INTERVAL)
                              ((rj r + 1) mod CONN_COUNT_LOG_INTERVAL) false))
    = Done (s', r') -> pool_inv P O s' b).
  { destruct (ri r =? CONN_RELEASE_INTERVAL - 1);
      [| intros Heq; injection Heq as <- <-; exact Hinv].
    destruct (numConnsToRetain (cp s) avg) as [n need].
    destruct need; [| intros Heq; injection Heq as <- <-; exact Hinv].
    destruct (releaseConns fuel s n) as [s1 | | |] eqn:Hrel; cbn [bind];
      try discriminate.
    intros Heq. injection Heq as <- <-.
    apply (releaseConns_inv P O b n fuel s s1); assumption. }
  destruct (recv (stopCh (cp s))) as [x ch' | |]; try exact Hdefault;
    intros Heq; injection Heq as <- <-; exact Hinv.
Qed.

Lemma drain_length (l : list connection) :
  forall closedLog,
    (List.length (fst (drain l closedLog)) <= List.length l)%nat.
Proof.
  induction l as [| c rest IH]; intros closedLog; cbn [drain].
  - cbn. lia.
  - destruct (conn c); cbn [List.length fst].
    + specialize (IH (closedLog ++ [n])). lia.
    + lia.
Qed.

Lemma Close_inv (P O : Z) (b : Z) (s s' : state) :
  pool_inv P O s b -> Close s = Done s' -> pool_inv P O s' b.
Proof.
  intros Hinv. unfold Close.
  destruct (send (stopCh (cp s)) true) as [stop' | |]; try discriminate.
  cbn [connections set_stopCh].
  destruct (closed (connections (cp s))) eqn:Hcl;
    [intros Heq; injection Heq as <-; exact Hinv |].
  pose proof (drain_length (buf (connections (cp s))) (netClosed s)) as Hdrain.
  destruct (drain (buf (connections (cp s))) (netClosed s))
    as [remaining closedLog].
  intros Heq. injection Heq as <-. cbn [fst] in Hdrain.
  inv_open Hinv. inv_split k; inv_part.
Qed.

Lemma newConnectionPool_inv (P O : Z) (host : string)
    (mp t av wm batch : Z) (p : connectionPool) :
  is_int P -> is_int O ->
  newConnectionPool host P O mp t av wm batch = Some p ->
  pool_inv P O (mkState p []) 0.
Proof.
  intros HP HO. unfold newConnectionPool, make.
  destruct (Z.ltb_spec P 0) as [| HP0]; [discriminate |].
  destruct (sizeofPointer * P >? maxAlloc - hchanSize); [discriminate |].
  destruct (Z.ltb_spec (wrap64 (P + O)) 0) as [| Hsum]; [discriminate |].
  destruct (sizeofBool * wrap64 (P + O) >? maxAlloc - hchanSize);
    [discriminate |].
  cbn. intros Heq. injection Heq as <-.
  assert (Hw : wrap64 (P + O) = P + O).
  { apply wrap64_nonneg; [| assumption]. unfold is_int in *. lia. }
  inv_split 0; inv_part.
Qed.

Lemma remove_nth_length {A} (l : list A) :
  forall i x, nth_error l i = Some x ->
    Z.of_nat (List.length (remove_nth i l)) = Z.of_nat (List.length l) - 1.
Proof.
  induction l as [| a l IH]; intros [| i] x; cbn [nth_error remove_nth];
    try discriminate.
  - intros _. cbn [List.length]. lia.
  - intros Hnth. cbn [List.length]. specialize (IH i x Hnth).
    destruct l; [destruct i; discriminate |].
    cbn [List.length] in *. lia.
Qed.

Lemma replace_nth_length {A} (x : A) (l : list A) :
  forall i, List.length (replace_nth i x l) = List.length l.
Proof.
  induction l as [| a l IH]; intros [| i]; cbn [replace_nth List.length];
    try reflexivity.
  rewrite IH. reflexivity.
Qed.

Lemma Renew_inv (P O : Z) (b : Z) (s s' : state) (c : connection)
    (mk : mkConn_result) (res : option connection * option error) :
  pool_inv P O s b -> Renew s c mk = Done (s', res) -> pool_inv P O s' b.
Proof.
  intros Hinv. unfold Renew. destruct mk as [newConn [e |]].
  - intros Heq. injection Heq as <- _. exact Hinv.
  - destruct (conn c) as [n |]; cbn [netClose bind]; [| discriminate].
    intros Heq. injection Heq as <- _. exact Hinv.
Qed.

Lemma handed_out_inv (P O : Z) (y : system) (r : state * get_ret) :
  pool_inv P O (fst r) (Z.of_nat (List.length (borrowed y)) + delta (snd r)) ->
  pool_inv P O (sys_state (handed_out y r))
           (Z.of_nat (List.length (borrowed (handed_out y r)))).
Proof.
  destruct r as [s1 g]. unfold handed_out, delta. cbn.
  destruct (gerr g).
  - rewrite Z.add_0_r. trivial.
  - rewrite length_app. cbn [List.length].
    replace (Z.of_nat (List.length (borrowed y) + 1))
      with (Z.of_nat (List.length (borrowed y)) + 1) by lia.
    trivial.
Qed.

Lemma exec_inv (P O : Z) (y y' : system) (a : action) :
  pool_inv P O (sys_state y) (Z.of_nat (List.length (borrowed y))) ->
  exec y a = Some y' ->
  pool_inv P O (sys_state y') (Z.of_nat (List.length (borrowed y'))).
Proof.
  intros Hinv.
  destruct a as [evB evC mk | evB evC mk | i healthy | i mk | avg |];
    cbn [exec].
  - destruct (Get (sys_state y) evB evC mk) as [[s1 g] |] eqn:Hget;
      cbn [option_map]; [| discriminate].
    intros Heq. injection Heq as <-. apply (handed_out_inv P O y (s1, g)). cbn [fst snd].
    apply (Get_inv P O (sys_state y) s1 _ evB evC mk g); assumption.
  - destruct (stageB (sys_state y) evB evC mk) as [[s1 g] |] eqn:Hget;
      cbn [option_map]; [| discriminate].
    intros Heq. injection Heq as <-. apply (handed_out_inv P O y (s1, g)). cbn [fst snd].
    apply (stageB_inv P O (sys_state y) s1 _ evB evC mk g); assumption.
  - destruct (nth_error (borrowed y) i) as [c |] eqn:Hnth; [| discriminate].
    destruct (Return (sys_state y) c healthy) as [s1 | | |] eqn:Hret;
      try discriminate.
    intros Heq. injection Heq as <-. cbn [sys_state borrowed].
    rewrite (remove_nth_length _ _ _ Hnth).
    apply (Return_inv P O (sys_state y) s1 _ c healthy); try assumption.
    pose proof (remove_nth_length _ _ _ Hnth). lia.
  - destruct (nth_error (borrowed y) i) as [[c |] |]; try discriminate.
    destruct (Renew (sys_state y) c mk) as [[s1 [c' e]] | | |] eqn:Hrenew;
      try discriminate.
    intros Heq. injection Heq as <-. cbn [sys_state borrowed].
    rewrite replace_nth_length.
    apply (Renew_inv P O _ (sys_state y) s1 c mk (c', e)); assumption.
  - destruct (routineTick (enough (sys_state y)) (sys_state y) (rel y) avg)
      as [[s1 r1] | | |] eqn:Htick; try discriminate.
    intros Heq. injection Heq as <-. cbn [sys_state borrowed].
    apply (routineTick_inv P O _ (enough (sys_state y)) (sys_state y) s1
             (rel y) r1 avg); assumption.
  - destruct (Close (sys_state y)) as [s1 | | |] eqn:Hclose; try discriminate.
    intros Heq. injection Heq as <-. cbn [sys_state borrowed].
    apply (Close_inv P O _ (sys_state y) s1); assumption.
Qed.

Lemma reachable_inv (P O : Z) (y : system) :
  reachable P O y ->
  pool_inv P O (sys_state y) (Z.of_nat (List.length (borrowed y))).
Proof.
  induction 1 as [host mp t av wm batch p HP HO Hnew | y a y' _ IH Hexec].
  - cbn. apply (newConnectionPool_inv P O host mp t av wm batch); assumption.
  - apply (exec_inv P O y y' a); assumption.
Qed.

(** ** The shrink step *)

(** The shrink step never touches the create semaphore. *)
Lemma releaseConns_createsem (numRetConns : Z) (fuel : nat) :
  forall s s',
    releaseConns fuel s numRetConns = Done s' ->
    createsem (cp s') = createsem (cp s).
Proof.
  induction fuel as [| fuel IH]; intros s s'; cbn [releaseConns];
    [discriminate |].
  destruct ((add32 (curActConns (cp s)) (freeConns (cp s)) >? numRetConns)
            && (freeConns (cp s) >? 0));
    [| intros Heq; injection Heq as <-; reflexivity].
  destruct (recv (connections (cp s))) as [c ch' | |].
  - destruct (conn c) as [n |]; cbn [netClose bind]; [| discriminate].
    intros Hrec. apply IH in Hrec. exact Hrec.
  - intros Heq. injection Heq as <-. reflexivity.
  - apply IH.
Qed.

(** On a pool whose counter agrees with its idle buffer the loop ends: it
    takes connections from the front of the buffer, closes each of them,
    and stops when the total has come down to the target or the buffer is
    empty. *)
Lemma releaseConns_consistent (target : Z) (fuel : nat) :
  forall s,
    consistent s ->
    is_int32 (curActConns (cp s)) ->
    is_int32 (freeConns (cp s)) ->
    is_int32 (curActConns (cp s) + freeConns (cp s)) ->
    (List.length (buf (connections (cp s))) < fuel)%nat ->
    exists s' removed ns,
      releaseConns fuel s target = Done s' /\
      consistent s' /\
      curActConns (cp s') = curActConns (cp s) /\
      createsem (cp s') = createsem (cp s) /\
      buf (connections (cp s)) = removed ++ buf (connections (cp s')) /\
      map conn removed = map Some ns /\
      netClosed s' = netClosed s ++ ns /\
      Z.of_nat (List.length removed) =
        Z.max 0 (Z.min (freeConns (cp s))
                       (curActConns (cp s) + freeConns (cp s) - target)).
Proof.
  induction fuel as [| fuel IH]; intros s Hcons Hact Hfc Htot Hfuel; [lia |].
  destruct Hcons as (Hopen & Hcount & Hends).
  cbn [releaseConns]. unfold add32. rewrite (wrap32_small _ Htot).
  destruct (Z.gtb_spec (curActConns (cp s) + freeConns (cp s)) target)
    as [Hover | Hunder]; cbn [andb].
  2:{ exists s, [], []. cbn [app map List.length]. rewrite app_nil_r.
      repeat split; try assumption; try reflexivity. lia. }
  destruct (Z.gtb_spec (freeConns (cp s)) 0) as [Hpos | Hzero].
  2:{ exists s, [], []. cbn [app map List.length]. rewrite app_nil_r.
      repeat split; try assumption; try reflexivity. lia. }
  unfold recv.
  destruct (buf (connections (cp s))) as [| c rest] eqn:Hbuf.
  { unfold len in Hcount. rewrite Hbuf in Hcount. cbn in Hcount. lia. }
  assert (Hlen : freeConns (cp s) = Z.of_nat (List.length rest) + 1).
  { rewrite Hcount. unfold len. rewrite Hbuf. cbn [List.length]. lia. }
  inversion Hends as [| c0 rest0 Hc Hrest]; subst c0 rest0.
  destruct (conn c) as [n |] eqn:Hconn; [| congruence].
  cbn [netClose bind].
  set (s3 := mkState _ _).
  assert (Hfc3 : freeConns (cp s3) = freeConns (cp s) - 1).
  { subst s3. cbn. unfold add32. apply wrap32_small.
    unfold is_int32 in *. lia. }
  assert (Hact3 : curActConns (cp s3) = curActConns (cp s)) by reflexivity.
  assert (Hbuf3 : buf (connections (cp s3)) = rest) by reflexivity.
  destruct (IH s3) as (s' & removed & ns & Hrun & Hcons' & Hact' & Hsem' &
                       Hsplit & Hmap & Hlog & Hcnt).
  - repeat split.
    + subst s3. cbn. exact Hopen.
    + rewrite Hfc3. unfold len. rewrite Hbuf3. lia.
    + rewrite Hbuf3. exact Hrest.
  - rewrite Hact3. exact Hact.
  - rewrite Hfc3. unfold is_int32 in *. lia.
  - rewrite Hact3, Hfc3. unfold is_int32 in *. lia.
  - rewrite Hbuf3. cbn [List.length] in Hfuel. lia.
  - exists s', (c :: removed), (n :: ns).
    rewrite Hbuf3 in Hsplit. rewrite Hact3 in *. rewrite Hfc3 in Hcnt.
    repeat split; try assumption.
    + apply Hcons'.
    + apply Hcons'.
    + apply Hcons'.
    + cbn [app]. rewrite <- Hsplit. reflexivity.
    + cbn [map]. rewrite Hconn, Hmap. reflexivity.
    + rewrite Hlog. subst s3. cbn [netClosed]. rewrite <- app_assoc.
      reflexivity.
    + cbn [List.length]. lia.
Qed.

(** C6 -- evaluation at the failing input.  With [freeConns = 1] and the
    idle buffer empty the non-blocking receive falls to [default], whose
    [break] leaves the [select] and not the loop: no amount of fuel lets
    the step end. *)
Theorem releaseConns_spins (fuel : nat) :
  releaseConns fuel counterAhead 0 = OutOfFuel.
Proof.
  induction fuel as [| fuel IH]; [reflexivity |].
  cbn [releaseConns]. exact IH.
Qed.

(** ** The retention loop *)

Lemma routineTick_not_stopped (fuel : nat) (s s' : state) (r r' : routine)
    (avg : Q) :
  routineTick fuel s r avg = Done (s', r') ->
  stopped r' = false ->
  stopped r = false /\
  ri r' = (ri r + 1) mod CONN_RELEASE_INTERVAL /\
  rj r' = (rj r + 1) mod CONN_COUNT_LOG_INTERVAL.
Proof.
  unfold routineTick.
  destruct (stopped r) eqn:Hst.
  { intros Heq. injection Heq as <- <-. congruence. }
  destruct (recv (stopCh (cp s))) as [x ch' | |].
  - intros Heq. injection Heq as <- <-. cbn. discriminate.
  - intros Heq. injection Heq as <- <-. cbn. discriminate.
  - destruct (ri r =? CONN_RELEASE_INTERVAL - 1).
    + destruct (numConnsToRetain (cp s) avg) as [n need]. destruct need.
      * destruct (releaseConns fuel s n); cbn [bind]; try discriminate.
        intros Heq. injection Heq as <- <-. cbn. auto.
      * intros Heq. injection Heq as <- <-. cbn. auto.
    + intros Heq. injection Heq as <- <-. cbn. auto.
Qed.

(** The counter [i] after a run of ticks that did not stop the routine. *)
Lemma runTicks_counter (avgs : list Q) :
  forall s r s' r',
    0 <= ri r < CONN_RELEASE_INTERVAL ->
    runTicks avgs s r = Done (s', r') ->
    stopped r' = false ->
    ri r' = (ri r + Z.of_nat (List.length avgs)) mod CONN_RELEASE_INTERVAL.
Proof.
  unfold CONN_RELEASE_INTERVAL.
  induction avgs as [| avg rest IH]; intros s r s' r' Hri; cbn [runTicks].
  - intros Heq _. injection Heq as <- <-. cbn [List.length Z.of_nat].
    rewrite Z.add_0_r, Z.mod_small; lia.
  - destruct (routineTick (enough s) s r avg) as [[s1 r1] | | |] eqn:Htick;
      cbn [bind]; try discriminate.
    intros Hrun Hst.
    assert (Hr1 : 0 <= ri r1 < 5 -> ri r' = (ri r1 + Z.of_nat (List.length rest)) mod 5).
    { intros H1. apply (IH s1 r1 s' r'); assumption. }
    assert (Hst1 : stopped r1 = false).
    { destruct (stopped r1) eqn:E; [| reflexivity].
      clear - Hrun Hst E. revert s1 r1 Hrun E.
      induction rest as [| a rest IHr]; intros s1 r1 Hrun E; cbn [runTicks] in Hrun.
      - injection Hrun as <- <-. congruence.
      - unfold routineTick in Hrun. rewrite E in Hrun. cbn [bind] in Hrun.
        apply (IHr s1 r1); assumption. }
    destruct (routineTick_not_stopped _ _ _ _ _ _ Htick Hst1) as (_ & Hi & _).
    unfold CONN_RELEASE_INTERVAL in Hi.
    rewrite Hr1.
    + rewrite Hi. rewrite Zplus_mod_idemp_l. f_equal.
      cbn [List.length]. lia.
    + rewrite Hi. apply Z.mod_pos_bound. lia.
Qed.

Lemma fifth_tick (n : Z) :
  n mod 5 = 4 <-> (n + 1) mod 5 = 0.
Proof. split; intros H; Z.div_mod_to_equations; lia. Qed.

(** What [numConnsToRetain] computes when no [int32] operation overflows
    and the average fits an [int32]. *)
Lemma numConnsToRetain_exact (p : connectionPool) (avg : Q) :
  is_int32 (curActConns p + freeConns p) ->
  is_int32 (curActConns p + freeConns p - relConnBatchSize p) ->
  is_int32 (truncate avg) ->
  numConnsToRetain p avg =
    if curActConns p + freeConns p - relConnBatchSize p >=?
       Z.max (minPoolSizeWM p) (Z.max (curActConns p) (truncate avg))
    then (curActConns p + freeConns p - relConnBatchSize p, true)
    else (curActConns p + freeConns p, false).
Proof.
  intros Htot Hsub Htr. unfold numConnsToRetain, int32_of_float64, add32, sub32.
  rewrite !max_is_Zmax.
  rewrite (wrap32_small _ Htot), (wrap32_small _ Hsub), (wrap32_small _ Htr).
  reflexivity.
Qed.

(** C5 (amended) -- the retention check runs on every fifth tick and on no
    other.  Its target is [N = max(minPoolSizeWM, max(curActConns,
    trunc(rate)))], the rate being truncated toward zero by the [int32]
    conversion; with [total = curActConns + freeConns] the shrink is
    performed exactly when [total - relConnBatchSize >= N], and it brings
    the pool down to at most [total - relConnBatchSize] connections. *)
Theorem retention_every_fifth_tick (avgs : list Q) (s0 s : state) (r : routine)
    (avg : Q) :
  let p := cp s in
  let act := curActConns p in
  let fc := freeConns p in
  let total := act + fc in
  let N := Z.max (minPoolSizeWM p) (Z.max act (truncate avg)) in
  runTicks avgs s0 (mkRoutine 0 0 false) = Done (s, r) ->
  stopped r = false ->
  recv (stopCh p) = RecvNotReady ->
  consistent s ->
  is_int32 act -> is_int32 fc -> is_int32 total ->
  is_int32 (total - relConnBatchSize p) ->
  is_int32 (truncate avg) ->
  exists s' r',
    routineTick (enough s) s r avg = Done (s', r') /\
    ((Z.of_nat (List.length avgs) + 1) mod 5 <> 0 -> s' = s) /\
    ((Z.of_nat (List.length avgs) + 1) mod 5 = 0 ->
       (snd (numConnsToRetain p avg) = true <->
        total - relConnBatchSize p >= N) /\
       (total - relConnBatchSize p < N -> s' = s) /\
       (total - relConnBatchSize p >= N ->
          fst (numConnsToRetain p avg) = total - relConnBatchSize p /\
          curActConns (cp s') = act /\
          curActConns (cp s') + freeConns (cp s') <= total - relConnBatchSize p)).
Proof.
  intros p act fc total N Hrun Hst Hstop Hcons Hact Hfc Htot Hsub Htr.
  pose proof (runTicks_counter avgs s0 (mkRoutine 0 0 false) s r
                ltac:(cbn; unfold CONN_RELEASE_INTERVAL; lia) Hrun Hst) as Hri.
  cbn [ri] in Hri. unfold CONN_RELEASE_INTERVAL in Hri. rewrite Z.add_0_l in Hri.
  unfold routineTick. rewrite Hst. fold p. rewrite Hstop.
  unfold CONN_RELEASE_INTERVAL at 1. change (5 - 1) with 4.
  pose proof (numConnsToRetain_exact p avg Htot Hsub Htr) as Hnum.
  fold act fc total N in Hnum. fold act fc total in Htot, Hsub.
  destruct (Z.eqb_spec (ri r) 4) as [Hfour | Hnot].
  - assert (Hfifth : (Z.of_nat (List.length avgs) + 1) mod 5 = 0).
    { apply fifth_tick. congruence. }
    fold p. rewrite Hnum.
    destruct (total - relConnBatchSize p >=? N) eqn:Hge.
    + rewrite Z.geb_leb in Hge. apply Z.leb_le in Hge.
      destruct (releaseConns_consistent (total - relConnBatchSize p)
                  (enough s) s Hcons Hact Hfc Htot
                  ltac:(unfold enough; lia))
        as (s' & removed & ns & Hrel & Hcons' & Hact' & _ & Hsplit & _ & _ & Hcnt).
      rewrite Hrel. cbn [bind]. eexists. eexists. split; [reflexivity |].
      split; [intros Hne; contradiction |].
      intros _. cbn [fst snd]. split; [split; [lia | reflexivity] |].
      split; [lia |]. intros _. split; [reflexivity |]. split; [exact Hact' |].
      destruct Hcons as (_ & Hcount & _). destruct Hcons' as (_ & Hcount' & _).
      fold p fc in Hcount. rewrite Hact', Hcount'. fold p act fc in Hcnt.
      assert (Hlens : len (connections p) =
                Z.of_nat (List.length removed) + len (connections (cp s'))).
      { unfold len. fold p in Hsplit. rewrite Hsplit, length_app. lia. }
      subst N total fc act p. lia.
    + rewrite Z.geb_leb in Hge. apply Z.leb_gt in Hge.
      eexists. eexists. split; [reflexivity |].
      split; [reflexivity |].
      intros _. cbn [fst snd]. split; [split; [discriminate | lia] |].
      split; [reflexivity | lia].
  - eexists. eexists. split; [reflexivity |].
    split; [reflexivity |].
    intros Hfifth. apply fifth_tick in Hfifth. congruence.
Qed.

(** C5 -- counterexample to the rounded target.  With a rate of 2.7, five
    idle connections, none active, floor 0 and batch 3, the code shrinks
    (its target is 2 and [5 - 3 >= 2]); with the rate rounded the target
    would be 3 and [5 - 3 >= 3] fails. *)
Lemma retention_round_counterexample :
  snd (numConnsToRetain (cp fiveIdle) (27 # 10)) = true /\
  (exists s' r',
     routineTick (enough fiveIdle) fiveIdle (mkRoutine 4 4 false) (27 # 10)
       = Done (s', r') /\
     netClosed s' = [1; 2; 3]%nat /\ freeConns (cp s') = 2) /\
  ~ (curActConns (cp fiveIdle) + freeConns (cp fiveIdle)
       - relConnBatchSize (cp fiveIdle)
     >= Z.max (minPoolSizeWM (cp fiveIdle))
              (Z.max (curActConns (cp fiveIdle)) (round_half_away (27 # 10)))).
Proof.
  split; [reflexivity |]. split.
  - eexists. eexists. split; [vm_compute; reflexivity |].
    split; reflexivity.
  - vm_compute. intros H. apply H. reflexivity.
Qed.

Lemma fiveIdle_consistent : consistent fiveIdle.
Proof.
  repeat split. cbn. repeat constructor; discriminate.
Qed.

Lemma retention_every_fifth_tick_witness :
  exists s' r',
    routineTick (enough fiveIdle) fiveIdle (mkRoutine 4 4 false) (27 # 10)
      = Done (s', r') /\
    curActConns (cp s') + freeConns (cp s') <= 2.
Proof.
  destruct (retention_every_fifth_tick [0%Q; 0%Q; 0%Q; 0%Q] fiveIdle fiveIdle
              (mkRoutine 4 4 false) (27 # 10)
              eq_refl eq_refl eq_refl fiveIdle_consistent
              ltac:(unfold is_int32; cbn; lia) ltac:(unfold is_int32; cbn; lia)
              ltac:(unfold is_int32; cbn; lia) ltac:(unfold is_int32; cbn; lia)
              ltac:(unfold is_int32; cbn; lia))
    as (s' & r' & Htick & _ & Hfifth).
  exists s', r'. split; [exact Htick |].
  destruct (Hfifth eq_refl) as (_ & _ & Hshrink).
  destruct (Hshrink ltac:(cbn; lia)) as (_ & _ & Hle).
  exact Hle.
Defined.

(** ** Permit accounting across a shrink *)

Lemma run_reachable (P O : Z) (l : list action) :
  forall y y', reachable P O y -> run y l = Some y' -> reachable P O y'.
Proof.
  induction l as [| a l IH]; intros y y' Hreach; cbn [run].
  - intros Heq. injection Heq as <-. exact Hreach.
  - destruct (exec y a) as [y1 |] eqn:Hexec; [| discriminate].
    apply IH. apply (reach_step P O y a y1); assumption.
Qed.

Lemma emptyPool_is_new :
  newConnectionPool "127.0.0.1:9101" 2 1 1024 1000 1 0 1 = Some emptyPool.
Proof. reflexivity. Qed.

Lemma emptyPool_reachable : reachable 2 1 (init emptyPool).
Proof.
  apply (reach_init 2 1 "127.0.0.1:9101" 1024 1000 1 0 1 emptyPool);
    [unfold is_int; lia | unfold is_int; lia | exact emptyPool_is_new].
Qed.

(** C2 -- evaluation at the failing input.  After the shrink has closed
    the only idle connection, no connection exists ([freeConns] and
    [curActConns] are 0, endpoint 7 is closed) and the semaphore still
    holds its permit. *)
Theorem shrink_keeps_permit :
  exists y,
    run (init emptyPool) idleFiveSeconds = Some y /\
    reachable 2 1 y /\
    netClosed (sys_state y) = [7%nat] /\
    borrowed y = [] /\
    free_count y = 0 /\
    cur_active y = 0 /\
    permits_held y = 1 /\
    permits_held y <> free_count y + cur_active y.
Proof.
  eexists. split; [vm_compute; reflexivity |].
  split.
  - apply (run_reachable 2 1 idleFiveSeconds (init emptyPool));
      [exact emptyPool_reachable | vm_compute; reflexivity].
  - repeat split. vm_compute. discriminate.
Qed.

(** ** The query client *)

Lemma pktSend_recvq (w : wire) (req : request) :
  recvq (fst (pktSend w req)) = recvq w.
Proof.
  unfold pktSend. destruct (sendq w) as [| [e |] rest]; reflexivity.
Qed.

Lemma pktReceive_deadline (w : wire) :
  recvq w = [] -> pktReceive w = (w, inr errDeadline).
Proof. intros Hq. unfold pktReceive. rewrite Hq. reflexivity. Qed.

Lemma pktReceive_next (w : wire) (r : message + error) (rest : list (message + error)) :
  recvq w = r :: rest ->
  pktReceive w = (mkWire (sendq w) rest (sent w), r).
Proof. intros Hq. unfold pktReceive. rewrite Hq. reflexivity. Qed.

(** The deferred call of the three operations is registered with
    [healthy = true], and nothing the body does afterwards reaches it. *)
Lemma finish_deferred {A} (s1 : state) (saved : option connection * bool)
    (b : result A) (hv : bool) (w : wire) (cs : list iface) :
  deferred (finish s1 saved b hv w cs) = Some saved /\
  healthy_var (finish s1 saved b hv w cs) = hv /\
  body_ret (finish s1 saved b hv w cs) = b /\
  calls (finish s1 saved b hv w cs) = cs /\
  wire_after (finish s1 saved b hv w cs) = w.
Proof.
  unfold finish.
  destruct b; try (repeat split; reflexivity);
    destruct (Return s1 (fst saved) (snd saved)); repeat split; reflexivity.
Qed.

Lemma finish_returns {A} (s1 s2 : state) (saved : option connection * bool)
    (v : A) (hv : bool) (w : wire) (cs : list iface) :
  Return s1 (fst saved) (snd saved) = Done s2 ->
  ret (finish s1 saved (Done v) hv w cs) = Done v /\
  after (finish s1 saved (Done v) hv w cs) = s2.
Proof. intros Hret. unfold finish. rewrite Hret. split; reflexivity. Qed.

Lemma Statistics_deferred_healthy (s : state) (evB evC : select_case)
    (mk : mkConn_result) (index bucket : string) (low high : list Byte.byte)
    (equal : list (list Byte.byte)) (inclusion : Z) (w : wire)
    (r : call (option IndexStatistics * option error)) :
  Statistics s evB evC mk index bucket low high equal inclusion w = Some r ->
  forall c hb, deferred r = Some (c, hb) -> hb = true.
Proof.
  unfold Statistics.
  destruct (Get s evB evC mk) as [[s1 g] |]; [| discriminate].
  destruct (gerr g).
  - intros Heq. injection Heq as <-. cbn. discriminate.
  - destruct (Statistics_body _ _ _ _) as [[b hv] w'].
    intros Heq. injection Heq as <-. intros c hb.
    destruct (finish_deferred s1 (got g, true) b hv w' []) as (-> & _).
    intros Hsaved. injection Hsaved as _ <-. reflexivity.
Qed.

Section StreamingFacts.

Variable H : Type.
Variable callb : H -> iface -> H * bool.

Lemma scan_call_deferred_healthy (fuel : nat) (s : state)
    (evB evC : select_case) (mk : mkConn_result) (req : request) (w : wire)
    (h h' : H) (r : call (option error)) :
  scan_call H callb fuel s evB evC mk req w h = Some (r, h') ->
  forall c hb, deferred r = Some (c, hb) -> hb = true.
Proof.
  unfold scan_call.
  destruct (Get s evB evC mk) as [[s1 g] |]; [| discriminate].
  destruct (gerr g).
  - intros Heq. injection Heq as <- _. cbn. discriminate.
  - destruct (scan_body _ _ _ _ _ _ _ _) as [[[[b hv] w'] h2] cs].
    intros Heq. injection Heq as <- _. intros c hb.
    destruct (finish_deferred s1 (got g, true) b hv w' cs) as (-> & _).
    intros Hsaved. injection Hsaved as _ <-. reflexivity.
Qed.

Lemma closeStream_loop_ends (fuel : nat) :
  forall w, (List.length (recvq w) < fuel)%nat ->
    exists w' e, closeStream_loop fuel w = Done (w', e).
Proof.
  induction fuel as [| fuel IH]; intros w Hfuel; [lia |].
  cbn [closeStream_loop].
  destruct (recvq w) as [| r rest] eqn:Hq.
  - rewrite (pktReceive_deadline w Hq). eauto.
  - rewrite (pktReceive_next w r rest Hq).
    destruct r as [[e st | pl |] | e]; eauto;
      apply IH; cbn [recvq List.length] in *; lia.
Qed.

Lemma closeStream_ends (fuel : nat) (n : netConn) (w : wire) :
  (List.length (recvq w) < fuel)%nat ->
  exists w' e, closeStream fuel n w = Done (w', e).
Proof.
  intros Hfuel. unfold closeStream, sendRequest.
  pose proof (pktSend_recvq w EndStreamRequest) as Hq.
  destruct (pktSend w EndStreamRequest) as [w1 [e |]]; cbn [fst] in Hq.
  - eauto.
  - apply closeStream_loop_ends. rewrite Hq. exact Hfuel.
Qed.

(** The driver loop ends once the script is used up; when it ends with
    [healthy = false] the last thing the handler was given is the
    error of the failed receive. *)
Lemma streamLoop_ends (n : netConn) (fuel : nat) :
  forall w h healthy cs,
    (List.length (recvq w) < fuel)%nat ->
    exists w' h' cs' hv,
      streamLoop H callb fuel n w h healthy cs = Done (w', h', cs', hv) /\
      (hv = false -> exists pre e, cs' = pre ++ [IErr e]).
Proof.
  induction fuel as [| fuel IH]; intros w h healthy cs Hfuel; [lia |].
  cbn [streamLoop]. unfold streamResponse.
  destruct (recvq w) as [| r rest] eqn:Hq.
  - rewrite (pktReceive_deadline w Hq).
    destruct (callb h (IErr errDeadline)) as [h1 c1]. cbn [bind].
    do 4 eexists. split; [reflexivity |]. intros _. eauto.
  - rewrite (pktReceive_next w r rest Hq).
    assert (Hrest : (List.length rest < fuel)%nat)
      by (cbn [List.length] in Hfuel; lia).
    assert (Hdata : forall m,
      exists w' h' cs' hv,
        bind (let '(h1, cont) := callb h (IMsg m) in
              if cont
              then Done (mkWire (sendq w) rest (sent w), h1, [IMsg m],
                         (true, true, None))
              else bind (closeStream fuel n (mkWire (sendq w) rest (sent w)))
                     (fun '(w2, err) =>
                        Done (w2, h1, [IMsg m], (false, true, err))))
             (fun '(w1, h1, cs1, (cont, healthy1, _)) =>
                if cont
                then streamLoop H callb fuel n w1 h1 healthy1 (cs ++ cs1)
                else Done (w1, h1, cs ++ cs1, healthy1))
          = Done (w', h', cs', hv) /\
        (hv = false -> exists pre e, cs' = pre ++ [IErr e])).
    { intros m. destruct (callb h (IMsg m)) as [h1 [|]].
      - cbn [bind]. apply IH. exact Hrest.
      - destruct (closeStream_ends fuel n (mkWire (sendq w) rest (sent w)))
          as (w2 & e & Hclose); [exact Hrest |].
        rewrite Hclose. cbn [bind].
        do 4 eexists. split; [reflexivity | discriminate]. }
    destruct r as [[e st | pl |] | e].
    + apply Hdata.
    + apply Hdata.
    + destruct (callb h (IMsg StreamEndResponse)) as [h1 c1]. cbn [bind].
      do 4 eexists. split; [reflexivity | discriminate].
    + destruct (callb h (IErr e)) as [h1 c1]. cbn [bind].
      do 4 eexists. split; [reflexivity |]. intros _. eauto.
Qed.

End StreamingFacts.

(** C1 -- evaluation at the failing inputs.  A [Statistics] whose send
    fails, a [Scan] whose first receive fails and a [ScanAll] whose send
    fails each end with the local [healthy] set to [false], yet the
    deferred [Return] runs with the [true] saved at the [defer] statement:
    the connection goes back into the idle buffer, it is not closed and its
    permit is not released. *)
Theorem transport_failure_returned_healthy :
  (exists r,
     Statistics (mkState emptyPool []) CaseTimer CaseCreate (Some conn7, None)
                "idx" "default" [] [] [] 3 (mkWire [Some brokenPipe] [] [])
       = Some r /\
     ret r = Done (None, Some brokenPipe) /\
     healthy_var r = false /\
     deferred r = Some (Some conn7, true) /\
     buf (connections (cp (after r))) = [conn7] /\
     netClosed (after r) = [] /\
     len (createsem (cp (after r))) = 1) /\
  (exists r h,
     Scan nat countingHandler 2 (mkState emptyPool []) CaseTimer CaseCreate
          (Some conn7, None) "idx" "default" [] [] [] 3 100 false 10
          (mkWire [] [inr connReset] []) 0%nat
       = Some (r, h) /\
     ret r = Done None /\
     calls r = [IErr connReset] /\
     healthy_var r = false /\
     deferred r = Some (Some conn7, true) /\
     buf (connections (cp (after r))) = [conn7] /\
     netClosed (after r) = [] /\
     len (createsem (cp (after r))) = 1) /\
  (exists r h,
     ScanAll nat countingHandler 2 (mkState emptyPool []) CaseTimer CaseCreate
             (Some conn7, None) "idx" "default" 100 10
             (mkWire [Some brokenPipe] [] []) 0%nat
       = Some (r, h) /\
     ret r = Done (Some brokenPipe) /\
     healthy_var r = false /\
     deferred r = Some (Some conn7, true) /\
     buf (connections (cp (after r))) = [conn7] /\
     netClosed (after r) = [] /\
     len (createsem (cp (after r))) = 1).
Proof.
  split; [| split].
  - eexists. split; [vm_compute; reflexivity |]. repeat split.
  - eexists. eexists. split; [vm_compute; reflexivity |]. repeat split.
  - eexists. eexists. split; [vm_compute; reflexivity |]. repeat split.
Qed.

(** C8 -- evaluation at the failing inputs.  When the first frame is a
    data frame and the second the end marker, the unchecked type assertion
    panics: no [ErrorProtocol] is returned.  When the first frame is a
    statistics response and the second is not the end marker,
    [ErrorProtocol] is returned with [healthy] still [true].  Both times
    the connection is put back into the idle buffer. *)
Theorem protocol_violation_evaluated :
  (exists r,
     Statistics (mkState emptyPool []) CaseTimer CaseCreate (Some conn7, None)
                "idx" "default" [] [] [] 3
                (mkWire [] [inl (ResponseStream []); inl StreamEndResponse] [])
       = Some r /\
     ret r = Panic /\
     healthy_var r = true /\
     deferred r = Some (Some conn7, true) /\
     buf (connections (cp (after r))) = [conn7] /\
     netClosed (after r) = []) /\
  (exists r,
     Statistics (mkState emptyPool []) CaseTimer CaseCreate (Some conn7, None)
                "idx" "default" [] [] [] 3
                (mkWire [] [inl (StatisticsResponse None someStats);
                            inl (ResponseStream [])] [])
       = Some r /\
     ret r = Done (None, Some ErrorProtocol) /\
     healthy_var r = true /\
     deferred r = Some (Some conn7, true) /\
     buf (connections (cp (after r))) = [conn7] /\
     netClosed (after r) = []).
Proof.
  split.
  - eexists. split; [vm_compute; reflexivity |]. repeat split.
  - eexists. split; [vm_compute; reflexivity |]. repeat split.
Qed.

(** C10 -- when the send and the first receive of [Statistics] succeed
    and the second receive fails, the error of that receive is dropped:
    the body returns [ErrorProtocol], the local [healthy] is still [true],
    and the caller gets [ErrorProtocol] once the deferred [Return] is
    through. *)
Theorem Statistics_second_receive_failure
    (s s1 : state) (evB evC : select_case) (mk : mkConn_result)
    (index bucket : string) (low high : list Byte.byte)
    (equal : list (list Byte.byte)) (inclusion : Z) (w w1 w2 w3 : wire)
    (g : get_ret) (c : connection) (n : netConn) (resp : message) (e : error) :
  Get s evB evC mk = Some (s1, g) ->
  gerr g = None -> got g = Some c -> conn c = Some n ->
  pktSend w (StatisticsRequest index bucket low high equal inclusion)
    = (w1, None) ->
  pktReceive w1 = (w2, inl resp) ->
  pktReceive w2 = (w3, inr e) ->
  exists r,
    Statistics s evB evC mk index bucket low high equal inclusion w = Some r /\
    body_ret r = Done (None, Some ErrorProtocol) /\
    healthy_var r = true /\
    deferred r = Some (Some c, true) /\
    (forall s2, Return s1 (Some c) true = Done s2 ->
       ret r = Done (None, Some ErrorProtocol) /\ after r = s2).
Proof.
  intros Hget Herr Hgot Hc Hsend Hr1 Hr2.
  unfold Statistics. rewrite Hget, Herr, Hgot.
  unfold Statistics_body, sendRequest. rewrite Hc, Hsend, Hr1, Hr2.
  eexists. split; [reflexivity |].
  destruct (finish_deferred s1 (Some c, true)
              (Done (@None IndexStatistics, Some ErrorProtocol)) true w3 [])
    as (Hd & Hh & Hb & _).
  repeat split; try assumption.
  - apply (finish_returns s1 s2 (Some c, true)); assumption.
  - apply (finish_returns s1 s2 (Some c, true)
             (@None IndexStatistics, Some ErrorProtocol)); assumption.
Qed.

Lemma Statistics_second_receive_failure_witness :
  exists r,
    Statistics (mkState emptyPool []) CaseTimer CaseCreate (Some conn7, None)
               "idx" "default" [] [] [] 3
               (mkWire [] [inl (StatisticsResponse None someStats);
                           inr connReset] [])
      = Some r /\
    body_ret r = Done (None, Some ErrorProtocol) /\
    healthy_var r = true.
Proof.
  destruct (Statistics_second_receive_failure
              (mkState emptyPool [])
              (addCurActConns
                 (with_pool (mkState emptyPool [])
                    (set_createsem emptyPool (mkChan [true] 3 false))) 1)
              CaseTimer CaseCreate (Some conn7, None)
              "idx" "default" [] [] [] 3
              (mkWire [] [inl (StatisticsResponse None someStats);
                          inr connReset] [])
              (mkWire [] [inl (StatisticsResponse None someStats);
                          inr connReset]
                      [StatisticsRequest "idx" "default" [] [] [] 3])
              (mkWire [] [inr connReset]
                      [StatisticsRequest "idx" "default" [] [] [] 3])
              (mkWire [] [] [StatisticsRequest "idx" "default" [] [] [] 3])
              (mkGetRet (Some conn7) None "create") conn7 7%nat
              (StatisticsResponse None someStats) connReset
              eq_refl eq_refl eq_refl eq_refl eq_refl eq_refl eq_refl)
    as (r & Heq & Hbody & Hh & _).
  exists r. split; [exact Heq |]. split; [exact Hbody | exact Hh].
Defined.

(** * Further properties of the pool *)

(** ** Acquisition *)

Lemma takeConn_cases (s s' : state) (label : string) (g : get_ret) :
  takeConn s label = Some (s', g) ->
  (gerr g = Some ErrorClosedPool /\ got g = None /\ s' = s /\
   buf (connections (cp s)) = [] /\ closed (connections (cp s)) = true) \/
  (gerr g = None /\
   exists c rest,
     buf (connections (cp s)) = c :: rest /\
     got g = Some c /\
     buf (connections (cp s')) = rest /\
     cap (connections (cp s')) = cap (connections (cp s)) /\
     closed (connections (cp s')) = closed (connections (cp s)) /\
     freeConns (cp s') = add32 (freeConns (cp s)) (-1) /\
     curActConns (cp s') = add32 (curActConns (cp s)) 1 /\
     createsem (cp s') = createsem (cp s) /\
     netClosed s' = netClosed s).
Proof.
  unfold takeConn, recv.
  destruct (buf (connections (cp s))) as [| c rest] eqn:Hbuf.
  - destruct (closed (connections (cp s))); [| discriminate].
    intros Heq. injection Heq as <- <-. left. repeat split; reflexivity.
  - intros Heq. injection Heq as <- <-. right. split; [reflexivity |].
    exists c, rest. repeat split; reflexivity.
Qed.

Lemma GetWithTimeout_error_state (s s' : state) (d : Z)
    (evB evC : select_case) (mk : mkConn_result) (g : get_ret) (e : error) :
  GetWithTimeout s d evB evC mk = Some (s', g) ->
  gerr g = Some e ->
  connections (cp s') = connections (cp s) /\
  freeConns (cp s') = freeConns (cp s) /\
  curActConns (cp s') = curActConns (cp s) /\
  len (createsem (cp s')) = len (createsem (cp s)) /\
  netClosed s' = netClosed s.
Proof.
  intros Hget Herr.
  assert (Htake : forall label, takeConn s label = Some (s', g) ->
            connections (cp s') = connections (cp s) /\
            freeConns (cp s') = freeConns (cp s) /\
            curActConns (cp s') = curActConns (cp s) /\
            len (createsem (cp s')) = len (createsem (cp s)) /\
            netClosed s' = netClosed s).
  { intros label Ht. destruct (takeConn_cases s s' label g Ht)
      as [(_ & _ & -> & _) | (Hnone & _)].
    - repeat split; reflexivity.
    - congruence. }
  unfold GetWithTimeout in Hget.
  destruct (takeConn s "short-circuit") as [[s1 g1] |] eqn:HA.
  { injection Hget as <- <-. apply (Htake "short-circuit"%string). exact HA. }
  destruct evB; cbn [stageB] in Hget; try discriminate.
  { apply (Htake "avail1"%string). exact Hget. }
  destruct evC; cbn [stageC] in Hget.
  - apply (Htake "avail2"%string). exact Hget.
  - unfold createConn, send in Hget.
    destruct (closed (createsem (cp s))) eqn:Hopen; [discriminate |].
    destruct (Z.ltb_spec (len (createsem (cp s))) (cap (createsem (cp s))))
      as [Hroom | Hfull]; [| discriminate].
    destruct mk as [connectn [e' |]].
    + destruct (createConn_dial_error s connectn e' Hopen Hroom)
        as (s2 & Heq & Hlen & _ & Hact & Hfree & Hconns & Hlog).
      unfold createConn, send in Heq. rewrite Hopen in Heq.
      apply Z.ltb_lt in Hroom. rewrite Hroom in Heq.
      rewrite Heq in Hget. injection Hget as <- <-.
      repeat split; assumption.
    + injection Hget as <- <-. cbn in Herr. discriminate.
  - injection Hget as <- <-. repeat split; reflexivity.
Qed.

(** X1 -- An acquisition that ends in an error - closed pool, timeout or failed
    dial - leaves the idle buffer, both counters, the number of permits
    and the set of open endpoints as they were. *)
Theorem failed_acquisition_changes_nothing (s s' : state) (d : Z)
    (evB evC : select_case) (mk : mkConn_result) (g : get_ret) (e : error) :
  GetWithTimeout s d evB evC mk = Some (s', g) ->
  gerr g = Some e ->
  connections (cp s') = connections (cp s) /\
  freeConns (cp s') = freeConns (cp s) /\
  curActConns (cp s') = curActConns (cp s) /\
  len (createsem (cp s')) = len (createsem (cp s)) /\
  netClosed s' = netClosed s.
Proof.
  intros Hget Herr.
  exact (GetWithTimeout_error_state s s' d evB evC mk g e Hget Herr).
Qed.

Lemma failed_acquisition_changes_nothing_witness :
  exists s' g,
    GetWithTimeout (mkState emptyPool []) 1000 CaseTimer CaseCreate
                   (None, Some brokenPipe) = Some (s', g) /\
    gerr g = Some brokenPipe /\
    len (createsem (cp s')) = 0 /\ curActConns (cp s') = 0.
Proof.
  eexists. eexists. split; [reflexivity |]. split; [reflexivity |].
  destruct (failed_acquisition_changes_nothing
              (mkState emptyPool []) _ 1000 CaseTimer CaseCreate
              (None, Some brokenPipe) _ brokenPipe eq_refl eq_refl)
    as (_ & _ & Hact & Hlen & _).
  split; [exact Hlen | exact Hact].
Defined.

(** X2 -- An acquisition that succeeds increments [curActConns] by one and does
    one of two things: it hands out the oldest idle connection,
    decrementing [freeConns] and leaving the semaphore alone, or (on the
    create path only) it adds one permit to the semaphore and hands out
    what the dialer returned, leaving the idle buffer and [freeConns]
    alone. *)
Theorem acquisition_accounting (s s' : state) (d : Z)
    (evB evC : select_case) (mk : mkConn_result) (g : get_ret) :
  GetWithTimeout s d evB evC mk = Some (s', g) ->
  gerr g = None ->
  curActConns (cp s') = add32 (curActConns (cp s)) 1 /\
  netClosed s' = netClosed s /\
  ((exists c rest,
      buf (connections (cp s)) = c :: rest /\
      got g = Some c /\
      buf (connections (cp s')) = rest /\
      freeConns (cp s') = add32 (freeConns (cp s)) (-1) /\
      createsem (cp s') = createsem (cp s) /\
      path g <> "create"%string) \/
   (path g = "create"%string /\
    mk = (got g, None) /\
    buf (connections (cp s)) = [] /\
    buf (createsem (cp s')) = buf (createsem (cp s)) ++ [true] /\
    freeConns (cp s') = freeConns (cp s) /\
    connections (cp s') = connections (cp s))).
Proof.
  intros Hget Herr.
  assert (Htake : forall label, label <> "create"%string ->
            takeConn s label = Some (s', g) ->
            curActConns (cp s') = add32 (curActConns (cp s)) 1 /\
            netClosed s' = netClosed s /\
            ((exists c rest,
                buf (connections (cp s)) = c :: rest /\
                got g = Some c /\
                buf (connections (cp s')) = rest /\
                freeConns (cp s') = add32 (freeConns (cp s)) (-1) /\
                createsem (cp s') = createsem (cp s) /\
                path g <> "create"%string) \/
             (path g = "create"%string /\
              mk = (got g, None) /\
              buf (connections (cp s)) = [] /\
              buf (createsem (cp s')) = buf (createsem (cp s)) ++ [true] /\
              freeConns (cp s') = freeConns (cp s) /\
              connections (cp s') = connections (cp s)))).
  { intros label Hlabel Ht.
    assert (Hpath : path g = label).
    { unfold takeConn in Ht.
      destruct (recv (connections (cp s))); try discriminate;
        injection Ht as _ <-; reflexivity. }
    destruct (takeConn_cases s s' label g Ht)
      as [(Hclosed & _) | (_ & c & rest & Hbuf & Hgot & Hrest & _ & _ & Hfree &
                           Hact & Hsem & Hlog)]; [congruence |].
    split; [exact Hact |]. split; [exact Hlog |]. left.
    exists c, rest. rewrite Hpath. repeat split; assumption. }
  unfold GetWithTimeout in Hget.
  destruct (takeConn s "short-circuit") as [[s1 g1] |] eqn:HA.
  { injection Hget as <- <-.
    apply (Htake "short-circuit"%string); [discriminate | exact HA]. }
  assert (Hempty : buf (connections (cp s)) = []).
  { unfold takeConn, recv in HA.
    destruct (buf (connections (cp s))); [reflexivity | discriminate]. }
  destruct evB; cbn [stageB] in Hget; try discriminate.
  { apply (Htake "avail1"%string); [discriminate | exact Hget]. }
  destruct evC; cbn [stageC] in Hget.
  - apply (Htake "avail2"%string); [discriminate | exact Hget].
  - unfold createConn, send in Hget.
    destruct (closed (createsem (cp s))) eqn:Hopen; [discriminate |].
    destruct (Z.ltb_spec (len (createsem (cp s))) (cap (createsem (cp s))))
      as [Hroom | Hfull]; [| discriminate].
    destruct mk as [connectn [e' |]].
    + destruct (recv _) in Hget; try discriminate.
      injection Hget as <- <-. cbn in Herr. discriminate.
    + injection Hget as <- <-. cbn.
      split; [reflexivity |]. split; [reflexivity |]. right.
      repeat split; try reflexivity. exact Hempty.
  - injection Hget as <- <-. cbn in Herr. discriminate.
Qed.

Lemma acquisition_accounting_witness :
  exists s' g,
    GetWithTimeout fiveIdle 1000 CaseTimer CaseCreate (Some conn7, None)
      = Some (s', g) /\
    got g = Some (connN 1) /\
    curActConns (cp s') = 1.
Proof.
  eexists. eexists. split; [reflexivity |]. split; [reflexivity |].
  destruct (acquisition_accounting fiveIdle _ 1000 CaseTimer CaseCreate
              (Some conn7, None) _ eq_refl eq_refl) as (Hact & _).
  exact Hact.
Defined.

(** X3 -- A healthy return into an empty idle buffer followed by an acquisition
    gives the same connection back on the short-circuit path, whatever the
    timers and the dialer would do, and leaves the pool exactly as it was
    before the return. *)
Theorem acquire_after_healthy_return (s : state) (c : connection) (n : netConn)
    (d : Z) (evB evC : select_case) (mk : mkConn_result) :
  conn c = Some n ->
  closed (connections (cp s)) = false ->
  buf (connections (cp s)) = [] ->
  0 < cap (connections (cp s)) ->
  is_int32 (freeConns (cp s)) ->
  is_int32 (curActConns (cp s)) ->
  exists s1,
    Return s (Some c) true = Done s1 /\
    GetWithTimeout s1 d evB evC mk
      = Some (s, mkGetRet (Some c) None "short-circuit").
Proof.
  intros Hc Hopen Hbuf Hcap Hfree Hact.
  unfold Return, Return_body, send. rewrite Hc, Hopen.
  unfold len. rewrite Hbuf. cbn [List.length Z.of_nat].
  apply Z.ltb_lt in Hcap. rewrite Hcap. cbn [bind app].
  eexists. split; [reflexivity |].
  unfold GetWithTimeout, takeConn, recv. cbn.
  destruct s as [p lg]. destruct p as [h cs sem mp to av act wm fc rl st].
  destruct cs as [b cp0 cl]. cbn in *. subst b cl.
  unfold addCurActConns, addFreeConns, with_pool, set_connections,
    set_freeConns, set_curActConns. cbn.
  unfold add32. rewrite !wrap32_add_l.
  replace (fc + 1 + -1) with fc by lia.
  replace (act + -1 + 1) with act by lia.
  rewrite (wrap32_small fc Hfree), (wrap32_small act Hact).
  reflexivity.
Qed.

Lemma acquire_after_healthy_return_witness :
  exists s1,
    Return (mkState emptyPool []) (Some conn7) true = Done s1 /\
    GetWithTimeout s1 1000 CaseTimer CaseCreate (None, Some brokenPipe)
      = Some (mkState emptyPool [], mkGetRet (Some conn7) None "short-circuit").
Proof.
  apply (acquire_after_healthy_return (mkState emptyPool []) conn7 7%nat 1000
           CaseTimer CaseCreate (None, Some brokenPipe) eq_refl eq_refl eq_refl);
    [reflexivity | unfold is_int32; cbn; lia | unfold is_int32; cbn; lia].
Defined.

(** ** Shutdown *)

Lemma drain_all (l : list connection) :
  forall closedLog,
    Forall (fun c => conn c <> None) l ->
    drain l closedLog = ([], closedLog ++ endpoints l).
Proof.
  induction l as [| c rest IH]; intros closedLog Hok; cbn [drain endpoints flat_map].
  - rewrite app_nil_r. reflexivity.
  - inversion Hok as [| c0 rest0 Hc Hrest]; subst c0 rest0.
    destruct (conn c) as [n |]; [| congruence].
    rewrite (IH (closedLog ++ [n]) Hrest). unfold endpoints.
    rewrite <- app_assoc. reflexivity.
Qed.

(** X4 -- The first [Close] of a pool leaves the stop signal in [stopCh], closes
    the idle buffer and closes every idle endpoint in buffer order.  It
    changes neither counter and releases no permit. *)
Theorem Close_drains_idle (s : state) :
  closed (stopCh (cp s)) = false ->
  len (stopCh (cp s)) < cap (stopCh (cp s)) ->
  closed (connections (cp s)) = false ->
  buf_ok s ->
  exists s',
    Close s = Done s' /\
    netClosed s' = netClosed s ++ endpoints (buf (connections (cp s))) /\
    buf (connections (cp s')) = [] /\
    closed (connections (cp s')) = true /\
    buf (stopCh (cp s')) = buf (stopCh (cp s)) ++ [true] /\
    freeConns (cp s') = freeConns (cp s) /\
    curActConns (cp s') = curActConns (cp s) /\
    createsem (cp s') = createsem (cp s).
Proof.
  intros Hstop Hroom Hopen Hok. unfold Close, send.
  rewrite Hstop. apply Z.ltb_lt in Hroom. rewrite Hroom.
  cbn [connections set_stopCh]. rewrite Hopen.
  rewrite (drain_all _ (netClosed s) Hok).
  eexists. split; [reflexivity |]. repeat split; reflexivity.
Qed.

Lemma fiveIdle_buf_ok : buf_ok fiveIdle.
Proof. unfold buf_ok. cbn. repeat constructor; discriminate. Qed.

Lemma Close_drains_idle_witness :
  exists s',
    Close fiveIdle = Done s' /\
    netClosed s' = [1; 2; 3; 4; 5]%nat /\
    freeConns (cp s') = 5.
Proof.
  destruct (Close_drains_idle fiveIdle eq_refl ltac:(vm_compute; reflexivity)
              eq_refl fiveIdle_buf_ok)
    as (s' & Heq & Hlog & _ & _ & _ & Hfree & _).
  exists s'. split; [exact Heq |]. split; [exact Hlog | exact Hfree].
Defined.

(** X5 -- On a pool whose idle buffer is closed and drained every acquisition
    ends at once with [ErrorClosedPool] and changes nothing, and a healthy
    return closes the endpoint locally: the connection is not deposited,
    [freeConns] does not move, no permit is released, [curActConns] is
    decremented. *)
Theorem closed_pool_rejects (s : state) :
  closed (connections (cp s)) = true ->
  buf (connections (cp s)) = [] ->
  (forall d evB evC mk,
     GetWithTimeout s d evB evC mk
       = Some (s, mkGetRet None (Some ErrorClosedPool) "short-circuit")) /\
  (forall c n healthy, conn c = Some n -> healthy = true ->
     exists s',
       Return s (Some c) healthy = Done s' /\
       connections (cp s') = connections (cp s) /\
       freeConns (cp s') = freeConns (cp s) /\
       createsem (cp s') = createsem (cp s) /\
       curActConns (cp s') = add32 (curActConns (cp s)) (-1) /\
       netClosed s' = netClosed s ++ [n]).
Proof.
  intros Hclosed Hbuf. split.
  - intros d evB evC mk. unfold GetWithTimeout, takeConn, recv.
    rewrite Hbuf, Hclosed. reflexivity.
  - intros c n healthy Hc ->. unfold Return, Return_body, send.
    rewrite Hc, Hclosed. cbn.
    eexists. split; [reflexivity |]. repeat split; reflexivity.
Qed.

Lemma closed_pool_rejects_witness :
  exists s1,
    Close fiveIdle = Done s1 /\
    GetWithTimeout s1 1000 CaseTimer CaseCreate (Some conn7, None)
      = Some (s1, mkGetRet None (Some ErrorClosedPool) "short-circuit").
Proof.
  eexists. split; [reflexivity |].
  destruct (closed_pool_rejects
              (mkState (set_connections (set_stopCh (cp fiveIdle)
                                           (mkChan [true] 1 false))
                                        (mkChan [] 10 true))
                       [1; 2; 3; 4; 5]%nat)
              eq_refl eq_refl) as [Hget _].
  exact (Hget 1000 CaseTimer CaseCreate (Some conn7, None)).
Defined.

Lemma runTicks_stopped (avgs : list Q) :
  forall s r, stopped r = true -> runTicks avgs s r = Done (s, r).
Proof.
  induction avgs as [| avg rest IH]; intros s r Hst; cbn [runTicks];
    [reflexivity |].
  unfold routineTick. rewrite Hst. cbn [bind]. apply IH. exact Hst.
Qed.

(** X6 -- Shutdown, step by step.  After a first [Close] the stop signal sits in
    [stopCh]: a second [Close] blocks until the routine has taken it.  The
    next tick of the routine takes the signal and stops.  A [Close] after
    that goes through and changes neither the idle buffer nor the set of
    closed endpoints, but it leaves a signal nobody will take: the
    routine stays stopped whatever ticks follow, and one more [Close]
    blocks for ever. *)
Theorem Close_again (s : state) (r : routine) (fuel : nat) (avg : Q) :
  buf (stopCh (cp s)) = [] ->
  cap (stopCh (cp s)) = 1 ->
  closed (stopCh (cp s)) = false ->
  closed (connections (cp s)) = false ->
  stopped r = false ->
  exists s1 s2 s3,
    Close s = Done s1 /\
    Close s1 = Blocked /\
    routineTick fuel s1 r avg = Done (s2, mkRoutine (ri r) (rj r) true) /\
    Close s2 = Done s3 /\
    connections (cp s3) = connections (cp s1) /\
    netClosed s3 = netClosed s1 /\
    Close s3 = Blocked /\
    (forall avgs,
       runTicks avgs s3 (mkRoutine (ri r) (rj r) true)
         = Done (s3, mkRoutine (ri r) (rj r) true)).
Proof.
  intros Hbuf Hcap Hstop Hopen Hst.
  destruct s as [p lg]. destruct p as [h cs sem mp to av act wm fc rl st].
  destruct st as [sb scap scl]. cbn in Hbuf, Hcap, Hstop, Hopen.
  subst sb scap scl.
  destruct cs as [cb ccap ccl]. cbn in Hopen. subst ccl.
  unfold Close at 1. cbn.
  destruct (drain cb lg) as [remaining closedLog] eqn:Hdrain.
  do 3 eexists. split; [reflexivity |].
  split; [reflexivity |].
  split; [unfold routineTick; rewrite Hst; reflexivity |].
  split; [reflexivity |].
  split; [reflexivity |].
  split; [reflexivity |].
  split; [reflexivity |].
  intros avgs. apply runTicks_stopped. reflexivity.
Qed.

Lemma Close_again_witness :
  exists s1 s3,
    Close fiveIdle = Done s1 /\ Close s1 = Blocked /\ Close s3 = Blocked /\
    netClosed s3 = netClosed s1.
Proof.
  destruct (Close_again fiveIdle (mkRoutine 2 2 false) 1 0%Q
              eq_refl eq_refl eq_refl eq_refl eq_refl)
    as (s1 & s2 & s3 & H1 & H2 & _ & _ & _ & Hlog & H3 & _).
  exists s1, s3. repeat split; assumption.
Defined.

(** ** What holds between calls that do not overlap *)

Lemma takeConn_buf_ok (s s' : state) (label : string) (g : get_ret) :
  buf_ok s -> takeConn s label = Some (s', g) ->
  buf_ok s' /\ (forall c, got g = Some c -> conn c <> None).
Proof.
  intros Hok Ht. destruct (takeConn_cases s s' label g Ht)
    as [(_ & Hgot & -> & _) | (_ & c & rest & Hbuf & Hgot & Hrest & _)].
  - split; [exact Hok | intros c Hc; congruence].
  - unfold buf_ok in *. rewrite Hbuf in Hok. rewrite Hrest.
    inversion Hok as [| c0 rest0 Hc Hr]; subst c0 rest0.
    split; [exact Hr |]. intros c' Hc'. congruence.
Qed.

Lemma createConn_connections (s s' : state) (mk : mkConn_result) (g : get_ret) :
  createConn s mk = Some (s', g) ->
  connections (cp s') = connections (cp s) /\ got g = fst mk /\ gerr g = snd mk.
Proof.
  unfold createConn.
  destruct (send (createsem (cp s)) true) as [sem' | |]; try discriminate.
  destruct mk as [connectn [e |]].
  - destruct (recv _) as [x sem'' | |]; try discriminate.
    intros Heq. injection Heq as <- <-. repeat split; reflexivity.
  - intros Heq. injection Heq as <- <-. repeat split; reflexivity.
Qed.

Lemma stageB_buf_ok (s s' : state) (evB evC : select_case)
    (mk : mkConn_result) (g : get_ret) :
  buf_ok s -> stageB s evB evC mk = Some (s', g) -> buf_ok s'.
Proof.
  intros Hok. destruct evB; cbn [stageB]; try discriminate.
  - intros Ht. apply (takeConn_buf_ok s s' _ g Hok Ht).
  - destruct evC; cbn [stageC].
    + intros Ht. apply (takeConn_buf_ok s s' _ g Hok Ht).
    + intros Hc. destruct (createConn_connections s s' mk g Hc) as (Heq & _).
      unfold buf_ok. rewrite Heq. exact Hok.
    + intros Heq. injection Heq as <- _. exact Hok.
Qed.

Lemma Get_buf_ok (s s' : state) (evB evC : select_case)
    (mk : mkConn_result) (g : get_ret) :
  buf_ok s -> Get s evB evC mk = Some (s', g) -> buf_ok s'.
Proof.
  intros Hok. unfold Get, GetWithTimeout.
  destruct (takeConn s "short-circuit") as [[s1 g1] |] eqn:HA.
  - intros Heq. injection Heq as <- <-.
    apply (takeConn_buf_ok s s1 _ g1 Hok HA).
  - apply stageB_buf_ok. exact Hok.
Qed.

(** What [Return] does to the idle buffer: nothing, or one connection
    with an endpoint appended. *)
Lemma Return_buffer (s s' : state) (connectn : option connection)
    (healthy : bool) :
  Return s connectn healthy = Done s' ->
  buf (connections (cp s')) = buf (connections (cp s)) \/
  exists c n, connectn = Some c /\ conn c = Some n /\
              buf (connections (cp s')) = buf (connections (cp s)) ++ [c].
Proof.
  unfold Return, Return_body.
  destruct connectn as [c |]; [| intros Heq; injection Heq as <-; left; reflexivity].
  destruct (conn c) as [n |] eqn:Hc;
    [| intros Heq; injection Heq as <-; left; reflexivity].
  assert (Hrel : bind (bind (releasePermit s) (fun s1 => netClose s1 (Some n)))
                   (fun s1 => Done (addCurActConns s1 (-1))) = Done s' ->
                 buf (connections (cp s')) = buf (connections (cp s))).
  { unfold releasePermit.
    destruct (recv (createsem (cp s))) as [x sem' | |]; cbn; try discriminate.
    intros Heq. injection Heq as <-. reflexivity. }
  destruct healthy; [| intros H0; left; apply Hrel; exact H0].
  destruct (send (connections (cp s)) c) as [ch' | |] eqn:Hsend.
  - unfold send in Hsend.
    destruct (closed (connections (cp s))); [discriminate |].
    destruct (len (connections (cp s)) <? cap (connections (cp s)));
      [| discriminate].
    injection Hsend as <-. cbn. intros Heq. injection Heq as <-.
    right. exists c, n. repeat split; assumption.
  - cbn. intros Heq. injection Heq as <-. left. reflexivity.
  - intros H0. left. apply Hrel. exact H0.
Qed.

Lemma Return_buf_ok (s s' : state) (connectn : option connection)
    (healthy : bool) :
  buf_ok s -> Return s connectn healthy = Done s' -> buf_ok s'.
Proof.
  intros Hok Hret. unfold buf_ok in *.
  destruct (Return_buffer s s' connectn healthy Hret)
    as [-> | (c & n & _ & Hc & ->)]; [exact Hok |].
  apply Forall_app. split; [exact Hok |].
  constructor; [congruence | constructor].
Qed.

Lemma releaseConns_buf_ok (numRetConns : Z) (fuel : nat) :
  forall s s',
    buf_ok s -> releaseConns fuel s numRetConns = Done s' -> buf_ok s'.
Proof.
  induction fuel as [| fuel IH]; intros s s' Hok; cbn [releaseConns];
    [discriminate |].
  destruct ((add32 (curActConns (cp s)) (freeConns (cp s)) >? numRetConns)
            && (freeConns (cp s) >? 0));
    [| intros Heq; injection Heq as <-; exact Hok].
  unfold recv.
  destruct (buf (connections (cp s))) as [| c rest] eqn:Hbuf.
  - destruct (closed (connections (cp s)));
      [intros Heq; injection Heq as <-; exact Hok | apply IH; exact Hok].
  - destruct (conn c) as [n |]; cbn [netClose bind]; [| discriminate].
    apply IH. unfold buf_ok in *. cbn. rewrite Hbuf in Hok.
    inversion Hok; assumption.
Qed.

Lemma routineTick_buf_ok (fuel : nat) (s s' : state) (r r' : routine) (avg : Q) :
  buf_ok s -> routineTick fuel s r avg = Done (s', r') -> buf_ok s'.
Proof.
  intros Hok. unfold routineTick.
  destruct (stopped r); [intros Heq; injection Heq as <- _; exact Hok |].
  destruct (recv (stopCh (cp s))) as [x ch' | |];
    try (intros Heq; injection Heq as <- _; exact Hok).
  destruct (ri r =? CONN_RELEASE_INTERVAL - 1);
    [| intros Heq; injection Heq as <- _; exact Hok].
  destruct (numConnsToRetain (cp s) avg) as [n need].
  destruct need; [| intros Heq; injection Heq as <- _; exact Hok].
  destruct (releaseConns fuel s n) as [s1 | | |] eqn:Hrel; cbn [bind];
    try discriminate.
  intros Heq. injection Heq as <- _.
  apply (releaseConns_buf_ok n fuel s s1); assumption.
Qed.

Lemma drain_suffix (l : list connection) :
  forall closedLog,
    Forall (fun c => conn c <> None) l ->
    Forall (fun c => conn c <> None) (fst (drain l closedLog)).
Proof.
  intros closedLog Hok. rewrite (drain_all l closedLog Hok). constructor.
Qed.

Lemma Close_buf_ok (s s' : state) :
  buf_ok s -> Close s = Done s' -> buf_ok s'.
Proof.
  intros Hok. unfold Close.
  destruct (send (stopCh (cp s)) true) as [stop' | |]; try discriminate.
  cbn [connections set_stopCh].
  destruct (closed (connections (cp s)));
    [intros Heq; injection Heq as <-; exact Hok |].
  pose proof (drain_suffix _ (netClosed s) Hok) as Hd.
  destruct (drain (buf (connections (cp s))) (netClosed s)) as [remaining lg].
  intros Heq. injection Heq as <-. exact Hd.
Qed.

Lemma exec_buf_ok (y y' : system) (a : action) :
  buf_ok (sys_state y) -> exec y a = Some y' -> buf_ok (sys_state y').
Proof.
  intros Hok.
  destruct a as [evB evC mk | evB evC mk | i healthy | i mk | avg |];
    cbn [exec].
  - destruct (Get (sys_state y) evB evC mk) as [[s1 g] |] eqn:Hget;
      cbn [option_map]; [| discriminate].
    intros Heq. injection Heq as <-. cbn. apply (Get_buf_ok _ _ _ _ _ _ Hok Hget).
  - destruct (stageB (sys_state y) evB evC mk) as [[s1 g] |] eqn:Hget;
      cbn [option_map]; [| discriminate].
    intros Heq. injection Heq as <-. cbn.
    apply (stageB_buf_ok _ _ _ _ _ _ Hok Hget).
  - destruct (nth_error (borrowed y) i) as [c |]; [| discriminate].
    destruct (Return (sys_state y) c healthy) as [s1 | | |] eqn:Hret;
      try discriminate.
    intros Heq. injection Heq as <-. cbn.
    apply (Return_buf_ok _ _ _ _ Hok Hret).
  - destruct (nth_error (borrowed y) i) as [[c |] |]; try discriminate.
    unfold Renew. destruct mk as [newConn [e |]].
    + intros Heq. injection Heq as <-. exact Hok.
    + destruct (conn c) as [n |]; cbn [netClose bind]; [| discriminate].
      intros Heq. injection Heq as <-. exact Hok.
  - destruct (routineTick (enough (sys_state y)) (sys_state y) (rel y) avg)
      as [[s1 r1] | | |] eqn:Htick; try discriminate.
    intros Heq. injection Heq as <-. cbn.
    apply (routineTick_buf_ok _ _ _ _ _ _ Hok Htick).
  - destruct (Close (sys_state y)) as [s1 | | |] eqn:Hclose; try discriminate.
    intros Heq. injection Heq as <-. cbn. apply (Close_buf_ok _ _ Hok Hclose).
Qed.

Lemma reachable_buf_ok (P O : Z) (y : system) :
  reachable P O y -> buf_ok (sys_state y).
Proof.
  induction 1 as [host mp t av wm batch p HP HO Hnew | y a y' _ IH Hexec].
  - unfold newConnectionPool, make in Hnew.
    destruct (P <? 0); [discriminate |].
    destruct (sizeofPointer * P >? maxAlloc - hchanSize); [discriminate |].
    destruct (wrap64 (P + O) <? 0); [discriminate |].
    destruct (sizeofBool * wrap64 (P + O) >? maxAlloc - hchanSize);
      [discriminate |].
    cbn in Hnew. injection Hnew as <-. constructor.
  - apply (exec_buf_ok y y' a); assumption.
Qed.



Lemma endpoints_of_closed (removed : list connection) :
  forall ns, map conn removed = map Some ns -> endpoints removed = ns.
Proof.
  induction removed as [| c rest IH]; intros [| n ns]; cbn [map];
    try discriminate; [reflexivity |].
  intros Heq. injection Heq as Hc Hrest.
  unfold endpoints. cbn [flat_map]. rewrite Hc. cbn [app].
  f_equal. apply IH. exact Hrest.
Qed.

Lemma split_firstn_skipn {A} (l pre post : list A) :
  l = pre ++ post ->
  pre = firstn (List.length pre) l /\ post = skipn (List.length pre) l.
Proof.
  intros ->. split.
  - rewrite firstn_app, Nat.sub_diag, firstn_all. cbn [firstn].
    rewrite app_nil_r. reflexivity.
  - rewrite skipn_app, Nat.sub_diag, skipn_all. reflexivity.
Qed.

(** X10 -- When the retention check asks for a shrink (on a pool whose counter
    agrees with its idle buffer, without [int32] overflow, with a batch
    size that is not negative), the shrink closes exactly
    [relConnBatchSize] connections, the oldest idle ones, and what is left
    is never below the floor [minPoolSizeWM]; borrowed connections and the
    semaphore are not touched. *)
Theorem shrink_batch_and_floor (s : state) (avg : Q) (target : Z) :
  consistent s ->
  is_int32 (curActConns (cp s)) ->
  is_int32 (freeConns (cp s)) ->
  is_int32 (curActConns (cp s) + freeConns (cp s)) ->
  is_int32 (curActConns (cp s) + freeConns (cp s) - relConnBatchSize (cp s)) ->
  is_int32 (truncate avg) ->
  0 <= relConnBatchSize (cp s) ->
  numConnsToRetain (cp s) avg = (target, true) ->
  exists s',
    releaseConns (enough s) s target = Done s' /\
    freeConns (cp s') = freeConns (cp s) - relConnBatchSize (cp s) /\
    curActConns (cp s') = curActConns (cp s) /\
    createsem (cp s') = createsem (cp s) /\
    minPoolSizeWM (cp s) <= curActConns (cp s') + freeConns (cp s') /\
    buf (connections (cp s'))
      = skipn (Z.to_nat (relConnBatchSize (cp s))) (buf (connections (cp s))) /\
    netClosed s'
      = netClosed s ++
        endpoints (firstn (Z.to_nat (relConnBatchSize (cp s)))
                          (buf (connections (cp s)))).
Proof.
  intros Hcons Hact Hfc Htot Hsub Htr Hrel Hnum.
  rewrite (numConnsToRetain_exact _ avg Htot Hsub Htr) in Hnum.
  destruct (_ >=? _) eqn:Hge in Hnum; [| discriminate].
  injection Hnum as <-.
  rewrite Z.geb_leb in Hge. apply Z.leb_le in Hge.
  destruct (releaseConns_consistent
              (curActConns (cp s) + freeConns (cp s) - relConnBatchSize (cp s))
              (enough s) s Hcons Hact Hfc Htot ltac:(unfold enough; lia))
    as (s' & removed & ns & Hrun & Hcons' & Hact' & Hsem' & Hsplit & Hmap &
        Hlog & Hcnt).
  assert (Hn : Z.of_nat (List.length removed) = relConnBatchSize (cp s)) by lia.
  assert (Hnat : List.length removed = Z.to_nat (relConnBatchSize (cp s))) by lia.
  destruct (split_firstn_skipn _ _ _ Hsplit) as [Hfirst Hskip].
  rewrite Hnat in Hfirst, Hskip.
  destruct Hcons as (_ & Hcount & _). destruct Hcons' as (_ & Hcount' & _).
  assert (Hfree' : freeConns (cp s') = freeConns (cp s) - relConnBatchSize (cp s)).
  { rewrite Hcount', Hcount. unfold len. rewrite Hsplit.
    rewrite length_app. lia. }
  exists s'. split; [exact Hrun |]. split; [exact Hfree' |].
  split; [exact Hact' |]. split; [exact Hsem' |].
  split; [rewrite Hact', Hfree'; lia |].
  split; [exact Hskip |].
  rewrite Hlog, <- Hfirst, (endpoints_of_closed removed ns Hmap). reflexivity.
Qed.

Lemma shrink_batch_and_floor_witness :
  exists s',
    releaseConns (enough fiveIdle) fiveIdle 2 = Done s' /\
    freeConns (cp s') = 2 /\
    netClosed s' = [1; 2; 3]%nat.
Proof.
  destruct (shrink_batch_and_floor fiveIdle (27 # 10) 2 fiveIdle_consistent
              ltac:(unfold is_int32; cbn; lia) ltac:(unfold is_int32; cbn; lia)
              ltac:(unfold is_int32; cbn; lia) ltac:(unfold is_int32; cbn; lia)
              ltac:(unfold is_int32; cbn; lia) ltac:(cbn; lia) eq_refl)
    as (s' & Hrun & Hfree & _ & _ & _ & _ & Hlog).
  exists s'. split; [exact Hrun |]. split; [exact Hfree | exact Hlog].
Defined.

(** ** Borrowed connections with an endpoint *)

Lemma stageB_cases (s s' : state) (evB evC : select_case)
    (mk : mkConn_result) (g : get_ret) :
  stageB s evB evC mk = Some (s', g) ->
  (exists label, takeConn s label = Some (s', g)) \/
  createConn s mk = Some (s', g) \/
  (s' = s /\ gerr g = Some ErrorPoolTimeout).
Proof.
  destruct evB; cbn [stageB]; try discriminate.
  - intros Ht. left. eauto.
  - destruct evC; cbn [stageC].
    + intros Ht. left. eauto.
    + intros Hc. right. left. exact Hc.
    + intros Heq. injection Heq as <- <-. right. right. split; reflexivity.
Qed.

Lemma Get_cases (s s' : state) (evB evC : select_case)
    (mk : mkConn_result) (g : get_ret) :
  Get s evB evC mk = Some (s', g) ->
  (exists label, takeConn s label = Some (s', g)) \/
  createConn s mk = Some (s', g) \/
  (s' = s /\ gerr g = Some ErrorPoolTimeout).
Proof.
  unfold Get, GetWithTimeout.
  destruct (takeConn s "short-circuit") as [[s1 g1] |] eqn:HA.
  - intros Heq. injection Heq as <- <-. left. eauto.
  - apply stageB_cases.
Qed.

Lemma all_live_app (bl : list (option connection)) (c : connection) (n : netConn) :
  all_live bl -> conn c = Some n -> all_live (bl ++ [Some c]).
Proof.
  intros Hl Hc. apply Forall_app. split; [exact Hl |].
  constructor; [eauto | constructor].
Qed.


Lemma all_live_replace (bl : list (option connection)) (c : connection)
    (n : netConn) :
  forall i, all_live bl -> conn c = Some n ->
    all_live (replace_nth i (Some c) bl).
Proof.
  induction bl as [| x bl IH]; intros [| i] Hl Hc; cbn [replace_nth];
    try exact Hl; inversion Hl; subst.
  - constructor; [eauto | assumption].
  - constructor; [assumption | apply IH; assumption].
Qed.


(** ** Construction *)

(** X12 -- [newConnectionPool] panics in a [make] when the idle capacity
    is negative, when the total capacity [poolSize + poolOverflow] is
    negative or leaves the range of [int] (the sum wraps), and when a
    buffer is beyond the allocation limit of the runtime.  Whenever it
    returns, both capacities are as asked for and the pool is empty: no
    idle connection, no permit taken, both counters at zero, no stop
    signal. *)
Theorem newConnectionPool_starts_empty (host : string)
    (poolSize poolOverflow maxPayload timeout availTimeout wm batch : Z) :
  is_int poolSize -> is_int poolOverflow ->
  (poolSize < 0 \/ poolSize + poolOverflow < 0 \/
   2 ^ 63 <= poolSize + poolOverflow \/
   maxAlloc - hchanSize < sizeofPointer * poolSize \/
   maxAlloc - hchanSize < sizeofBool * (poolSize + poolOverflow) ->
   newConnectionPool host poolSize poolOverflow maxPayload timeout
                     availTimeout wm batch = None) /\
  (forall p,
     newConnectionPool host poolSize poolOverflow maxPayload timeout
                       availTimeout wm batch = Some p ->
     0 <= poolSize /\ 0 <= poolSize + poolOverflow /\
     connections p = mkChan [] poolSize false /\
     createsem p = mkChan [] (poolSize + poolOverflow) false /\
     stopCh p = mkChan [] 1 false /\
     freeConns p = 0 /\ curActConns p = 0 /\
     minPoolSizeWM p = wm /\ relConnBatchSize p = batch).
Proof.
  intros HP HO. unfold newConnectionPool, make.
  destruct (Z.ltb_spec poolSize 0) as [Hneg | Hpos].
  { split; [reflexivity | discriminate]. }
  destruct (Z.gtb_spec (sizeofPointer * poolSize) (maxAlloc - hchanSize))
    as [Hbig | Hfit].
  { split; [reflexivity | discriminate]. }
  destruct (Z.ltb_spec (wrap64 (poolSize + poolOverflow)) 0) as [Hwneg | Hwpos].
  { split; [reflexivity | discriminate]. }
  assert (Hw : wrap64 (poolSize + poolOverflow) = poolSize + poolOverflow).
  { apply wrap64_nonneg; [| assumption]. unfold is_int in *. lia. }
  assert (Hrange : poolSize + poolOverflow < 2 ^ 63).
  { unfold wrap64 in Hw.
    pose proof (Z.mod_pos_bound (poolSize + poolOverflow + 2 ^ 63) (2 ^ 64)
                  ltac:(lia)).
    lia. }
  rewrite Hw in *.
  destruct (Z.gtb_spec (sizeofBool * (poolSize + poolOverflow))
                       (maxAlloc - hchanSize)) as [Hbig' | Hfit'].
  { split; [reflexivity | discriminate]. }
  split.
  - unfold maxAlloc, hchanSize, sizeofPointer, sizeofBool in *.
    intros [H | [H | [H | [H | H]]]]; exfalso; lia.
  - intros p Heq. injection Heq as <-. cbn.
    repeat split; try reflexivity; assumption.
Qed.

Lemma newConnectionPool_starts_empty_witness :
  newConnectionPool "127.0.0.1:9101" 2 (-3) 1024 1000 1 0 1 = None /\
  newConnectionPool "127.0.0.1:9101" (2 ^ 50) 0 1024 1000 1 0 1 = None /\
  newConnectionPool "127.0.0.1:9101" (2 ^ 62) (2 ^ 62) 1024 1000 1 0 1 = None /\
  connections emptyPool = mkChan [] 2 false.
Proof.
  destruct (newConnectionPool_starts_empty "127.0.0.1:9101" 2 (-3) 1024 1000
              1 0 1 ltac:(unfold is_int; lia) ltac:(unfold is_int; lia))
    as [Hneg _].
  destruct (newConnectionPool_starts_empty "127.0.0.1:9101" (2 ^ 50) 0 1024
              1000 1 0 1 ltac:(unfold is_int; lia) ltac:(unfold is_int; lia))
    as [Hbig _].
  destruct (newConnectionPool_starts_empty "127.0.0.1:9101" (2 ^ 62) (2 ^ 62)
              1024 1000 1 0 1 ltac:(unfold is_int; lia)
              ltac:(unfold is_int; lia))
    as [Hwrap _].
  destruct (newConnectionPool_starts_empty "127.0.0.1:9101" 2 1 1024 1000 1 0 1
              ltac:(unfold is_int; lia) ltac:(unfold is_int; lia))
    as [_ Hok].
  split; [apply Hneg; right; left; lia |].
  split; [apply Hbig; right; right; right; left; vm_compute; reflexivity |].
  split; [apply Hwrap; right; right; left; lia |].
  destruct (Hok emptyPool emptyPool_is_new) as (_ & _ & Hconns & _).
  exact Hconns.
Defined.

(** * Further properties of the query client *)

(** ** Cooperative stream close *)

Lemma closeStream_loop_drains (frames : list message) (r : message + error)
    (rest : list (message + error)) :
  forall fuel w,
    recvq w = map inl frames ++ r :: rest ->
    forallb (fun m => negb (is_end m)) frames = true ->
    ends_flush r = true ->
    (List.length frames < fuel)%nat ->
    closeStream_loop fuel w
      = Done (mkWire (sendq w) rest (sent w), flush_result r).
Proof.
  induction frames as [| m frames IH]; intros fuel w Hq Hdata Hend Hfuel;
    (destruct fuel as [| fuel]; [cbn in Hfuel; lia |]);
    cbn [closeStream_loop]; cbn [map app] in Hq;
    rewrite (pktReceive_next w _ _ Hq).
  - destruct r as [[e st | pl |] | e]; cbn in Hend; try discriminate;
      reflexivity.
  - cbn [forallb] in Hdata. apply andb_prop in Hdata. destruct Hdata as [Hm Hrest].
    cbn [List.length] in Hfuel.
    destruct m as [e st | pl |]; cbn in Hm; try discriminate;
      rewrite (IH fuel (mkWire (sendq w) (map inl frames ++ r :: rest) (sent w))
                 eq_refl Hrest Hend ltac:(lia));
      reflexivity.
Qed.

Lemma closeStream_flush (fuel : nat) (n : netConn) (w : wire) :
  (forall w1 e,
     pktSend w EndStreamRequest = (w1, Some e) ->
     closeStream fuel n w = Done (w1, Some e) /\
     recvq w1 = recvq w /\ sent w1 = sent w) /\
  (forall w1 frames r rest,
     pktSend w EndStreamRequest = (w1, None) ->
     recvq w = map inl frames ++ r :: rest ->
     forallb (fun m => negb (is_end m)) frames = true ->
     ends_flush r = true ->
     (List.length frames < fuel)%nat ->
     closeStream fuel n w
       = Done (mkWire (sendq w1) rest (sent w ++ [EndStreamRequest]),
               flush_result r)).
Proof.
  split.
  - intros w1 e Hsend. unfold closeStream, sendRequest. rewrite Hsend.
    split; [reflexivity |].
    unfold pktSend in Hsend.
    destruct (sendq w) as [| [e' |] sq]; try discriminate.
    injection Hsend as <- _. split; reflexivity.
  - intros w1 frames r rest Hsend Hq Hdata Hend Hfuel.
    unfold closeStream, sendRequest. rewrite Hsend.
    assert (Hw1 : recvq w1 = recvq w /\ sent w1 = sent w ++ [EndStreamRequest]).
    { unfold pktSend in Hsend.
      destruct (sendq w) as [| [e' |] sq]; try discriminate;
        injection Hsend as <-; split; reflexivity. }
    destruct Hw1 as [Hq1 Hs1].
    rewrite (closeStream_loop_drains frames r rest fuel w1
               ltac:(rewrite Hq1; exact Hq) Hdata Hend Hfuel).
    rewrite Hs1. reflexivity.
Qed.

(** X13 -- Cooperative close.  When the end-stream request cannot be sent, its
    error is returned and nothing is read.  When it is sent, exactly one
    [EndStreamRequest] goes out and the frames of the stream are read and
    dropped up to and including the first end marker (result nil) or the
    first failed receive, whose error is returned - [io.EOF] like any
    other; what follows in the stream is left unread. *)
Theorem closeStream_drains (fuel : nat) (n : netConn) (w : wire) :
  (forall w1 e,
     pktSend w EndStreamRequest = (w1, Some e) ->
     closeStream fuel n w = Done (w1, Some e) /\
     recvq w1 = recvq w /\ sent w1 = sent w) /\
  (forall w1 frames r rest,
     pktSend w EndStreamRequest = (w1, None) ->
     recvq w = map inl frames ++ r :: rest ->
     forallb (fun m => negb (is_end m)) frames = true ->
     ends_flush r = true ->
     (List.length frames < fuel)%nat ->
     closeStream fuel n w
       = Done (mkWire (sendq w1) rest (sent w ++ [EndStreamRequest]),
               flush_result r)).
Proof. exact (closeStream_flush fuel n w). Qed.

Lemma closeStream_drains_witness :
  closeStream 3 7%nat
    (mkWire [] [inl (ResponseStream []); inl (ResponseStream []); inr EOF;
                inl StreamEndResponse] [])
  = Done (mkWire [] [inl StreamEndResponse] [EndStreamRequest], Some EOF).
Proof.
  destruct (closeStream_drains 3 7%nat
              (mkWire [] [inl (ResponseStream []); inl (ResponseStream []);
                          inr EOF; inl StreamEndResponse] []))
    as [_ Hdrain].
  exact (Hdrain _ [ResponseStream []; ResponseStream []] (inr EOF)
           [inl StreamEndResponse] eq_refl eq_refl eq_refl eq_refl
           ltac:(cbn; lia)).
Defined.

(** ** The streaming driver *)

Lemma pktReceive_sent (w : wire) : sent (fst (pktReceive w)) = sent w.
Proof. unfold pktReceive. destruct (recvq w); reflexivity. Qed.

Lemma closeStream_loop_sent (fuel : nat) :
  forall w w' e, closeStream_loop fuel w = Done (w', e) -> sent w' = sent w.
Proof.
  induction fuel as [| fuel IH]; intros w w' e; cbn [closeStream_loop];
    [discriminate |].
  pose proof (pktReceive_sent w) as Hs.
  destruct (pktReceive w) as [w1 r]. cbn [fst] in Hs.
  destruct r as [[e0 st | pl |] | e0].
  - intros Hl. rewrite (IH _ _ _ Hl). exact Hs.
  - intros Hl. rewrite (IH _ _ _ Hl). exact Hs.
  - intros Heq. injection Heq as <- _. exact Hs.
  - intros Heq. injection Heq as <- _. exact Hs.
Qed.

Lemma closeStream_sent (fuel : nat) (n : netConn) (w w' : wire)
    (e : option error) :
  closeStream fuel n w = Done (w', e) ->
  sent w' = sent w \/ sent w' = sent w ++ [EndStreamRequest].
Proof.
  unfold closeStream, sendRequest, pktSend.
  destruct (sendq w) as [| [e' |] sq].
  - intros Hl. right. apply closeStream_loop_sent in Hl. exact Hl.
  - intros Heq. injection Heq as <- _. left. reflexivity.
  - intros Hl. right. apply closeStream_loop_sent in Hl. exact Hl.
Qed.

Lemma removelast_true (b : bool) (l : list bool) :
  l <> [] -> b = true -> Forall (eq true) (removelast l) ->
  Forall (eq true) (removelast (b :: l)).
Proof.
  intros Hne -> Hl. destruct l as [| x l]; [congruence |].
  cbn [removelast] in *. constructor; [reflexivity | exact Hl].
Qed.

(** What one turn of the driver leaves: one call of the handler, and
    whether the loop goes on. *)
Lemma streamResponse_trace (H : Type) (callb : H -> iface -> H * bool)
    (fuel : nat) (n : netConn) (w w1 : wire) (h h1 : H) (cs1 : list iface)
    (cont healthy1 : bool) (err : option error) :
  streamResponse H callb fuel n w h
    = Done (w1, h1, cs1, (cont, healthy1, err)) ->
  exists x,
    cs1 = [x] /\
    h1 = fst (callb h x) /\
    (cont = true -> snd (callb h x) = true /\ sent w1 = sent w) /\
    (sent w1 = sent w \/ sent w1 = sent w ++ [EndStreamRequest]).
Proof.
  unfold streamResponse.
  pose proof (pktReceive_sent w) as Hs.
  destruct (pktReceive w) as [w0 r]. cbn [fst] in Hs.
  assert (Hdata : forall m,
    (let '(h1', cont') := callb h (IMsg m) in
     if cont' then Done (w0, h1', [IMsg m], (true, true, None))
     else bind (closeStream fuel n w0)
            (fun '(w2, err') => Done (w2, h1', [IMsg m], (false, true, err'))))
    = Done (w1, h1, cs1, (cont, healthy1, err)) ->
    exists x,
      cs1 = [x] /\
      h1 = fst (callb h x) /\
      (cont = true -> snd (callb h x) = true /\ sent w1 = sent w) /\
      (sent w1 = sent w \/ sent w1 = sent w ++ [EndStreamRequest])).
  { intros m. destruct (callb h (IMsg m)) as [h1' [|]] eqn:Hcb.
    - intros Heq. injection Heq as <- <- <- <- _ _.
      exists (IMsg m). rewrite Hcb. cbn. repeat split; auto.
    - destruct (closeStream fuel n w0) as [[w2 err'] | | |] eqn:Hclose;
        cbn [bind]; try discriminate.
      intros Heq. injection Heq as <- <- <- <- _ _.
      exists (IMsg m). rewrite Hcb. cbn.
      split; [reflexivity |]. split; [reflexivity |].
      split; [discriminate |].
      destruct (closeStream_sent _ _ _ _ _ Hclose) as [-> | ->];
        rewrite Hs; auto. }
  destruct r as [[e0 st | pl |] | e0].
  - apply Hdata.
  - apply Hdata.
  - destruct (callb h (IMsg StreamEndResponse)) as [h1' c1] eqn:Hcb.
    intros Heq. injection Heq as <- <- <- <- _ _.
    exists (IMsg StreamEndResponse). rewrite Hcb. cbn.
    repeat split; auto; discriminate.
  - destruct (callb h (IErr e0)) as [h1' c1] eqn:Hcb.
    intros Heq. injection Heq as <- <- <- <- _ _.
    exists (IErr e0). rewrite Hcb. cbn.
    repeat split; auto; discriminate.
Qed.

Lemma streamLoop_trace (H : Type) (callb : H -> iface -> H * bool)
    (n : netConn) (fuel : nat) :
  forall w h healthy cs w' h' cs' hv,
    streamLoop H callb fuel n w h healthy cs = Done (w', h', cs', hv) ->
    exists new,
      cs' = cs ++ new /\
      new <> [] /\
      h' = handler_after callb h new /\
      Forall (eq true) (removelast (replay callb h new)) /\
      (sent w' = sent w \/ sent w' = sent w ++ [EndStreamRequest]).
Proof.
  induction fuel as [| fuel IH]; intros w h healthy cs w' h' cs' hv;
    cbn [streamLoop]; [discriminate |].
  destruct (streamResponse H callb fuel n w h)
    as [[[[w1 h1] cs1] [[cont healthy1] err]] | | |] eqn:Hresp;
    cbn [bind]; try discriminate.
  destruct (streamResponse_trace _ _ _ _ _ _ _ _ _ _ _ _ Hresp)
    as (x & -> & -> & Hcont & Hsent).
  destruct cont.
  - intros Hloop. destruct (Hcont eq_refl) as [Htrue Hs1].
    destruct (IH _ _ _ _ _ _ _ _ Hloop)
      as (new & -> & Hne & -> & Hall & Hsent').
    exists (x :: new). rewrite <- app_assoc. cbn [app].
    split; [reflexivity |]. split; [discriminate |].
    split; [reflexivity |]. split.
    + cbn [replay]. apply removelast_true.
      * destruct new; [congruence | discriminate].
      * exact Htrue.
      * exact Hall.
    + rewrite <- Hs1. exact Hsent'.
  - intros Heq. injection Heq as <- <- <- _.
    exists [x]. split; [reflexivity |]. split; [discriminate |].
    split; [reflexivity |]. split; [constructor | exact Hsent].
Qed.

Lemma streamLoop_healthy_irrelevant (H : Type) (callb : H -> iface -> H * bool)
    (fuel : nat) (n : netConn) (w : wire) (h : H) (a b : bool)
    (cs : list iface) :
  streamLoop H callb fuel n w h a cs = streamLoop H callb fuel n w h b cs.
Proof. destruct fuel; reflexivity. Qed.

(** While the handler asks for more, the driver hands it the data frames
    one by one. *)
Lemma streamLoop_prefix (H : Type) (callb : H -> iface -> H * bool)
    (n : netConn) (frames : list message) (tail : list (message + error)) :
  forall fuel w h healthy cs,
    recvq w = map inl frames ++ tail ->
    forallb (fun m => negb (is_end m)) frames = true ->
    Forall (eq true) (replay callb h (map IMsg frames)) ->
    streamLoop H callb (List.length frames + fuel) n w h healthy cs
      = streamLoop H callb fuel n (mkWire (sendq w) tail (sent w))
          (handler_after callb h (map IMsg frames)) healthy
          (cs ++ map IMsg frames).
Proof.
  induction frames as [| m frames IH]; intros fuel w h healthy cs Hq Hdata Hall.
  - cbn [map app List.length Nat.add handler_after] in *. rewrite app_nil_r.
    destruct w as [sq rq st]. cbn in Hq. subst rq. reflexivity.
  - cbn [map app] in Hq. cbn [forallb] in Hdata.
    apply andb_prop in Hdata. destruct Hdata as [Hm Hrest].
    cbn [map replay] in Hall. inversion Hall as [| b l Hb Hl]; subst b l.
    cbn [List.length Nat.add streamLoop]. unfold streamResponse.
    rewrite (pktReceive_next w _ _ Hq).
    destruct (callb h (IMsg m)) as [h1 cont] eqn:Hcb. cbn [snd fst] in *.
    subst cont.
    assert (Hstep :
      streamLoop H callb (List.length frames + fuel) n
        (mkWire (sendq w) (map inl frames ++ tail) (sent w)) h1 true
        (cs ++ [IMsg m])
      = streamLoop H callb fuel n (mkWire (sendq w) tail (sent w))
          (handler_after callb h (map IMsg (m :: frames))) healthy
          (cs ++ map IMsg (m :: frames))).
    { rewrite (IH fuel (mkWire (sendq w) (map inl frames ++ tail) (sent w))
                 h1 true (cs ++ [IMsg m]) eq_refl Hrest Hl).
      cbn [map handler_after sendq sent]. rewrite Hcb. cbn [fst].
      rewrite <- app_assoc. cbn [app].
      apply streamLoop_healthy_irrelevant. }
    destruct m as [e st | pl |]; cbn in Hm; try discriminate;
      cbn [bind]; exact Hstep.
Qed.

Lemma scan_call_unfold (H : Type) (callb : H -> iface -> H * bool)
    (fuel : nat) (s s1 : state) (evB evC : select_case) (mk : mkConn_result)
    (req : request) (w w1 : wire) (h : H) (g : get_ret) (c : connection)
    (n : netConn) :
  Get s evB evC mk = Some (s1, g) ->
  gerr g = None -> got g = Some c -> conn c = Some n ->
  pktSend w req = (w1, None) ->
  scan_call H callb fuel s evB evC mk req w h
    = match streamLoop H callb fuel n w1 h true [] with
      | Done (w2, h2, cs, healthy2) =>
          Some (finish s1 (Some c, true) (Done None) healthy2 w2 cs, h2)
      | Blocked => Some (finish s1 (Some c, true) Blocked true w1 [], h)
      | Panic => Some (finish s1 (Some c, true) Panic true w1 [], h)
      | OutOfFuel => Some (finish s1 (Some c, true) OutOfFuel true w1 [], h)
      end.
Proof.
  intros Hget Herr Hgot Hc Hsend.
  unfold scan_call. rewrite Hget, Herr, Hgot.
  unfold scan_body, sendRequest. rewrite Hc, Hsend.
  destruct (streamLoop H callb fuel n w1 h true [])
    as [[[[w2 h2] cs] healthy2] | | |]; reflexivity.
Qed.

Lemma pktSend_ok (w w1 : wire) (req : request) :
  pktSend w req = (w1, None) ->
  recvq w1 = recvq w /\ sent w1 = sent w ++ [req].
Proof.
  unfold pktSend. destruct (sendq w) as [| [e |] sq]; try discriminate;
    intros Heq; injection Heq as <-; split; reflexivity.
Qed.

(** X14 -- A stream read to its end.  When the handler asks for more on every
    data frame, [Scan] and [ScanAll] hand it the data frames in order and
    then the end marker, send nothing but the request, leave what follows
    the end marker unread, and end with [healthy] true and a nil error. *)
Theorem scan_delivers_full_stream (H : Type) (callb : H -> iface -> H * bool)
    (fuel : nat) (s s1 : state) (evB evC : select_case) (mk : mkConn_result)
    (req : request) (w w1 : wire) (h : H) (g : get_ret) (c : connection)
    (n : netConn) (frames : list message) (rest : list (message + error)) :
  Get s evB evC mk = Some (s1, g) ->
  gerr g = None -> got g = Some c -> conn c = Some n ->
  pktSend w req = (w1, None) ->
  recvq w = map inl frames ++ inl StreamEndResponse :: rest ->
  forallb (fun m => negb (is_end m)) frames = true ->
  Forall (eq true) (replay callb h (map IMsg frames)) ->
  (List.length frames < fuel)%nat ->
  exists r,
    scan_call H callb fuel s evB evC mk req w h
      = Some (r, handler_after callb h
                   (map IMsg frames ++ [IMsg StreamEndResponse])) /\
    calls r = map IMsg frames ++ [IMsg StreamEndResponse] /\
    body_ret r = Done None /\
    healthy_var r = true /\
    wire_after r = mkWire (sendq w1) rest (sent w ++ [req]).
Proof.
  intros Hget Herr Hgot Hc Hsend Hq Hdata Hall Hfuel.
  destruct (pktSend_ok _ _ _ Hsend) as [Hq1 Hs1].
  rewrite (scan_call_unfold H callb fuel s s1 evB evC mk req w w1 h g c n
             Hget Herr Hgot Hc Hsend).
  replace fuel with (List.length frames + S (fuel - S (List.length frames)))%nat
    by lia.
  rewrite (streamLoop_prefix H callb n frames (inl StreamEndResponse :: rest)
             _ w1 h true [] ltac:(rewrite Hq1; exact Hq) Hdata Hall).
  cbn [streamLoop]. unfold streamResponse.
  rewrite (pktReceive_next
             (mkWire (sendq w1) (inl StreamEndResponse :: rest) (sent w1))
             (inl StreamEndResponse) rest eq_refl).
  destruct (callb (handler_after callb h (map IMsg frames))
                  (IMsg StreamEndResponse)) as [h1 c1] eqn:Hcb.
  cbn [bind app sendq sent].
  eexists. split.
  - f_equal. f_equal.
    clear - Hcb. revert h Hcb.
    induction frames as [| m frames IH]; intros h Hcb; cbn [map app handler_after] in *.
    + rewrite Hcb. reflexivity.
    + apply IH. exact Hcb.
  - destruct (finish_deferred s1 (Some c, true) (Done (@None error)) true
                (mkWire (sendq w1) rest (sent w1))
                (map IMsg frames ++ [IMsg StreamEndResponse]))
      as (_ & Hh & Hb & Hcs & Hw).
    rewrite Hcs, Hb, Hh, Hw, Hs1. repeat split; reflexivity.
Qed.

Lemma scan_delivers_full_stream_witness :
  exists r h',
    ScanAll nat countingHandler 3 (mkState emptyPool []) CaseTimer CaseCreate
            (Some conn7, None) "idx" "default" 100 10
            (mkWire [] [inl (ResponseStream []); inl (ResponseStream []);
                        inl StreamEndResponse] []) 0%nat
      = Some (r, h') /\
    h' = 3%nat /\
    calls r = [IMsg (ResponseStream []); IMsg (ResponseStream []);
               IMsg StreamEndResponse].
Proof.
  destruct (scan_delivers_full_stream nat countingHandler 3
              (mkState emptyPool [])
              (addCurActConns
                 (with_pool (mkState emptyPool [])
                    (set_createsem emptyPool (mkChan [true] 3 false))) 1)
              CaseTimer CaseCreate (Some conn7, None)
              (ScanAllRequest "idx" "default" 100 10)
              (mkWire [] [inl (ResponseStream []); inl (ResponseStream []);
                          inl StreamEndResponse] [])
              (mkWire [] [inl (ResponseStream []); inl (ResponseStream []);
                          inl StreamEndResponse]
                      [ScanAllRequest "idx" "default" 100 10])
              0%nat (mkGetRet (Some conn7) None "create") conn7 7%nat
              [ResponseStream []; ResponseStream []] []
              eq_refl eq_refl eq_refl eq_refl eq_refl eq_refl eq_refl
              ltac:(repeat constructor) ltac:(cbn; lia))
    as (r & Heq & Hcalls & _).
  exists r. eexists. split; [exact Heq |]. split; [reflexivity | exact Hcalls].
Defined.

Lemma pktSend_sends_ok (k : nat) (w : wire) (req : request) :
  sends_ok (S k) w ->
  pktSend w req = (mkWire (tl (sendq w)) (recvq w) (sent w ++ [req]), None) /\
  sends_ok k (mkWire (tl (sendq w)) (recvq w) (sent w ++ [req])).
Proof.
  unfold sends_ok, pktSend. destruct (sendq w) as [| x sq]; cbn [firstn tl].
  - intros _. split; [reflexivity |]. cbn. destruct k; constructor.
  - intros Hall. inversion Hall as [| y l Hx Hl]; subst y l. subst x.
    split; [reflexivity | exact Hl].
Qed.

(** X15 -- A stream the handler gives up.  When the handler answers false on a
    data frame, [Scan] and [ScanAll] do not call it again: one
    [EndStreamRequest] is sent, the stream is read and dropped up to its
    end marker or to a failed receive, and the operation ends with
    [healthy] true and a nil error - also when the flush ended on a failed
    receive. *)
Theorem scan_cancelled_stream (H : Type) (callb : H -> iface -> H * bool)
    (fuel : nat) (s s1 : state) (evB evC : select_case) (mk : mkConn_result)
    (req : request) (w : wire) (h : H) (g : get_ret) (c : connection)
    (n : netConn) (frames more : list message) (m : message)
    (r : message + error) (rest : list (message + error)) :
  Get s evB evC mk = Some (s1, g) ->
  gerr g = None -> got g = Some c -> conn c = Some n ->
  sends_ok 2 w ->
  recvq w = map inl frames ++ inl m :: map inl more ++ r :: rest ->
  forallb (fun m => negb (is_end m)) frames = true ->
  is_end m = false ->
  forallb (fun m => negb (is_end m)) more = true ->
  ends_flush r = true ->
  Forall (eq true) (replay callb h (map IMsg frames)) ->
  snd (callb (handler_after callb h (map IMsg frames)) (IMsg m)) = false ->
  (List.length frames + List.length more + 1 < fuel)%nat ->
  exists res,
    scan_call H callb fuel s evB evC mk req w h
      = Some (res, handler_after callb h (map IMsg frames ++ [IMsg m])) /\
    calls res = map IMsg frames ++ [IMsg m] /\
    body_ret res = Done None /\
    healthy_var res = true /\
    recvq (wire_after res) = rest /\
    sent (wire_after res) = sent w ++ [req; EndStreamRequest].
Proof.
  intros Hget Herr Hgot Hc Hsends Hq Hdata Hm Hmore Hend Hall Hfalse Hfuel.
  destruct (pktSend_sends_ok 1 w req Hsends) as [Hsend Hsends1].
  set (w1 := mkWire (tl (sendq w)) (recvq w) (sent w ++ [req])) in *.
  rewrite (scan_call_unfold H callb fuel s s1 evB evC mk req w w1 h g c n
             Hget Herr Hgot Hc Hsend).
  replace fuel with (List.length frames + S (fuel - S (List.length frames)))%nat
    by lia.
  rewrite (streamLoop_prefix H callb n frames
             (inl m :: map inl more ++ r :: rest)
             _ w1 h true [] Hq Hdata Hall).
  cbn [streamLoop]. unfold streamResponse.
  set (w2 := mkWire (sendq w1) (map inl more ++ r :: rest) (sent w1)).
  rewrite (pktReceive_next
             (mkWire (sendq w1) (inl m :: map inl more ++ r :: rest) (sent w1))
             (inl m) (map inl more ++ r :: rest) eq_refl).
  fold w2.
  destruct (callb (handler_after callb h (map IMsg frames)) (IMsg m))
    as [h1 cont] eqn:Hcb.
  cbn [snd] in Hfalse. subst cont.
  assert (Hsends2 : sends_ok 1 w2) by exact Hsends1.
  destruct (pktSend_sends_ok 0 w2 EndStreamRequest Hsends2) as [Hsend2 _].
  destruct (closeStream_flush (fuel - S (List.length frames)) n w2)
    as [_ Hdrain].
  specialize (Hdrain _ more r rest Hsend2 eq_refl Hmore Hend ltac:(lia)).
  assert (Hh : handler_after callb h (map IMsg frames ++ [IMsg m]) = h1).
  { clear - Hcb. revert h Hcb.
    induction frames as [| m0 frames IH]; intros h Hcb;
      cbn [map app handler_after] in *.
    - rewrite Hcb. reflexivity.
    - apply IH. exact Hcb. }
  subst w2. subst w1. cbn [sendq sent recvq] in Hdrain |- *.
  destruct m as [e st | pl |]; cbn in Hm; try discriminate;
    rewrite Hdrain; cbn [bind app]; rewrite Hh;
    (eexists; split; [reflexivity |]);
    match goal with
    | |- context [finish ?a ?b ?c ?d ?e ?f] =>
        destruct (finish_deferred a b c d e f) as (_ & Hhv & Hb & Hcs & Hw)
    end;
    rewrite Hcs, Hb, Hhv, Hw; cbn; rewrite <- app_assoc;
    repeat split; reflexivity.
Qed.

Lemma scan_cancelled_stream_witness :
  exists res h',
    Scan nat twoFrames 5 (mkState emptyPool []) CaseTimer CaseCreate
         (Some conn7, None) "idx" "default" [] [] [] 3 100 false 10
         (mkWire [] [inl (ResponseStream []); inl (ResponseStream []);
                     inl (ResponseStream []); inl StreamEndResponse] [])
         0%nat
      = Some (res, h') /\
    calls res = [IMsg (ResponseStream []); IMsg (ResponseStream [])] /\
    sent (wire_after res)
      = [ScanRequest "idx" "default" [] [] [] 3 100 false 10; EndStreamRequest].
Proof.
  destruct (scan_cancelled_stream nat twoFrames 5
              (mkState emptyPool [])
              (addCurActConns
                 (with_pool (mkState emptyPool [])
                    (set_createsem emptyPool (mkChan [true] 3 false))) 1)
              CaseTimer CaseCreate (Some conn7, None)
              (ScanRequest "idx" "default" [] [] [] 3 100 false 10)
              (mkWire [] [inl (ResponseStream []); inl (ResponseStream []);
                          inl (ResponseStream []); inl StreamEndResponse] [])
              0%nat (mkGetRet (Some conn7) None "create") conn7 7%nat
              [ResponseStream []] [ResponseStream []] (ResponseStream [])
              (inl StreamEndResponse) []
              eq_refl eq_refl eq_refl eq_refl ltac:(constructor)
              eq_refl eq_refl eq_refl eq_refl eq_refl
              ltac:(repeat constructor) eq_refl ltac:(cbn; lia))
    as (res & Heq & Hcalls & _ & _ & _ & Hsent).
  exists res. eexists. split; [exact Heq |].
  split; [exact Hcalls | exact Hsent].
Defined.

Lemma scan_call_trace (H : Type) (callb : H -> iface -> H * bool)
    (fuel : nat) (s : state) (evB evC : select_case) (mk : mkConn_result)
    (req : request) (w : wire) (h h' : H) (r : call (option error)) :
  scan_call H callb fuel s evB evC mk req w h = Some (r, h') ->
  h' = handler_after callb h (calls r) /\
  Forall (eq true) (removelast (replay callb h (calls r))) /\
  (sent (wire_after r) = sent w \/
   sent (wire_after r) = sent w ++ [req] \/
   sent (wire_after r) = sent w ++ [req; EndStreamRequest]).
Proof.
  unfold scan_call.
  destruct (Get s evB evC mk) as [[s1 g] |]; [| discriminate].
  destruct (gerr g).
  { intros Heq. injection Heq as <- <-. cbn. repeat split; auto. }
  unfold scan_body.
  assert (Hnone : forall b hv w0,
    sent w0 = sent w \/ sent w0 = sent w ++ [req] ->
    Some (finish s1 (got g, true) b hv w0 (@nil iface), h) = Some (r, h') ->
    h' = handler_after callb h (calls r) /\
    Forall (eq true) (removelast (replay callb h (calls r))) /\
    (sent (wire_after r) = sent w \/
     sent (wire_after r) = sent w ++ [req] \/
     sent (wire_after r) = sent w ++ [req; EndStreamRequest])).
  { intros b hv w0 Hs.
    destruct (finish_deferred s1 (got g, true) b hv w0 (@nil iface))
      as (_ & _ & _ & Hcalls & Hwire).
    set (fin := finish s1 (got g, true) b hv w0 []) in *.
    intros Heq. injection Heq as <- <-. rewrite Hcalls, Hwire.
    cbn. split; [reflexivity |]. split; [constructor |]. tauto. }
  destruct (got g) as [c |]; [| apply Hnone; auto].
  destruct (conn c) as [n |]; [| apply Hnone; auto].
  unfold sendRequest.
  destruct (pktSend w req) as [w1 [e |]] eqn:Hsend.
  - apply Hnone. left. unfold pktSend in Hsend.
    destruct (sendq w) as [| [e' |] sq]; try discriminate.
    injection Hsend as <- _. reflexivity.
  - destruct (pktSend_ok _ _ _ Hsend) as [_ Hs1].
    destruct (streamLoop H callb fuel n w1 h true [])
      as [[[[w2 h2] cs] healthy2] | | |] eqn:Hloop;
      try (apply Hnone; right; exact Hs1).
    destruct (streamLoop_trace _ _ _ _ _ _ _ _ _ _ _ _ Hloop)
      as (new & Hcs & _ & Hh & Hall & Hsent).
    cbn [app] in Hcs. subst cs.
    destruct (finish_deferred s1 (Some c, true) (Done (@None error)) healthy2
                w2 new) as (_ & _ & _ & Hcalls & Hwire).
    set (fin := finish s1 (Some c, true) (Done None) healthy2 w2 new) in *.
    intros Heq. injection Heq as <- <-. rewrite Hcalls, Hwire.
    split; [exact Hh |]. split; [exact Hall |].
    destruct Hsent as [-> | ->]; rewrite Hs1; [auto |].
    right. right. rewrite <- app_assoc. reflexivity.
Qed.

(** X16 -- The handler of [Scan] and [ScanAll] is never called again after it
    has answered false: every answer but the last one was true.  The
    handler state the operation leaves is the one these calls produce. *)
Theorem handler_never_called_after_false (H : Type)
    (callb : H -> iface -> H * bool)
    (fuel : nat) (s : state) (evB evC : select_case) (mk : mkConn_result)
    (req : request) (w : wire) (h h' : H) (r : call (option error)) :
  scan_call H callb fuel s evB evC mk req w h = Some (r, h') ->
  h' = handler_after callb h (calls r) /\
  Forall (eq true) (removelast (replay callb h (calls r))).
Proof.
  intros Hcall. destruct (scan_call_trace _ _ _ _ _ _ _ _ _ _ _ _ Hcall)
    as (Hh & Hall & _).
  split; assumption.
Qed.

Lemma handler_never_called_after_false_witness :
  exists r h',
    Scan nat twoFrames 5 (mkState emptyPool []) CaseTimer CaseCreate
         (Some conn7, None) "idx" "default" [] [] [] 3 100 false 10
         (mkWire [] [inl (ResponseStream []); inl (ResponseStream []);
                     inl (ResponseStream []); inl StreamEndResponse] [])
         0%nat
      = Some (r, h') /\
    h' = handler_after twoFrames 0%nat (calls r) /\
    Forall (eq true) (removelast (replay twoFrames 0%nat (calls r))).
Proof.
  eexists. eexists. split; [vm_compute; reflexivity |].
  exact (handler_never_called_after_false nat twoFrames 5
           (mkState emptyPool []) CaseTimer CaseCreate (Some conn7, None)
           (ScanRequest "idx" "default" [] [] [] 3 100 false 10)
           (mkWire [] [inl (ResponseStream []); inl (ResponseStream []);
                       inl (ResponseStream []); inl StreamEndResponse] [])
           0%nat _ _ eq_refl).
Defined.

(** X17 -- [Scan] and [ScanAll] send the request frame at most once and, after
    it, at most one [EndStreamRequest]; they send nothing else. *)
Theorem scan_sends_request_then_at_most_one_end (H : Type)
    (callb : H -> iface -> H * bool)
    (fuel : nat) (s : state) (evB evC : select_case) (mk : mkConn_result)
    (req : request) (w : wire) (h h' : H) (r : call (option error)) :
  scan_call H callb fuel s evB evC mk req w h = Some (r, h') ->
  sent (wire_after r) = sent w \/
  sent (wire_after r) = sent w ++ [req] \/
  sent (wire_after r) = sent w ++ [req; EndStreamRequest].
Proof.
  intros Hcall. destruct (scan_call_trace _ _ _ _ _ _ _ _ _ _ _ _ Hcall)
    as (_ & _ & Hsent).
  exact Hsent.
Qed.

Lemma scan_sends_request_then_at_most_one_end_witness :
  exists r h',
    ScanAll nat twoFrames 5 (mkState emptyPool []) CaseTimer CaseCreate
            (Some conn7, None) "idx" "default" 100 10
            (mkWire [] [inl (ResponseStream []); inl StreamEndResponse] [])
            0%nat
      = Some (r, h') /\
    (sent (wire_after r) = [] \/
     sent (wire_after r) = [] ++ [ScanAllRequest "idx" "default" 100 10] \/
     sent (wire_after r)
       = [] ++ [ScanAllRequest "idx" "default" 100 10; EndStreamRequest]).
Proof.
  eexists. eexists. split; [vm_compute; reflexivity |].
  exact (scan_sends_request_then_at_most_one_end nat twoFrames 5
           (mkState emptyPool []) CaseTimer CaseCreate (Some conn7, None)
           (ScanAllRequest "idx" "default" 100 10)
           (mkWire [] [inl (ResponseStream []); inl StreamEndResponse] [])
           0%nat _ _ eq_refl).
Defined.

(** ** Errors after the request has been sent *)

(** A failed receive ends the driver loop: the handler is given the
    error, nothing is sent. *)
Lemma streamLoop_receive_fails (H : Type) (callb : H -> iface -> H * bool)
    (n : netConn) (fuel : nat) (w : wire) (h : H) (healthy : bool)
    (cs : list iface) (e : error) (rest : list (message + error)) :
  recvq w = inr e :: rest ->
  streamLoop H callb (S fuel) n w h healthy cs
    = Done (mkWire (sendq w) rest (sent w), fst (callb h (IErr e)),
            cs ++ [IErr e], false).
Proof.
  intros Hq. cbn [streamLoop]. unfold streamResponse.
  rewrite (pktReceive_next w _ _ Hq).
  destruct (callb h (IErr e)) as [h1 c1]. reflexivity.
Qed.

(** A data frame on which the handler answers false ends the driver loop
    once [closeStream] is through, whatever [closeStream] returns. *)
Lemma streamLoop_cancelled (H : Type) (callb : H -> iface -> H * bool)
    (n : netConn) (fuel : nat) (w : wire) (h : H) (healthy : bool)
    (cs : list iface) (m : message) (tail : list (message + error)) :
  recvq w = inl m :: tail ->
  is_end m = false ->
  snd (callb h (IMsg m)) = false ->
  streamLoop H callb (S fuel) n w h healthy cs
    = bind (closeStream fuel n (mkWire (sendq w) tail (sent w)))
           (fun '(w2, _) =>
              Done (w2, fst (callb h (IMsg m)), cs ++ [IMsg m], true)).
Proof.
  intros Hq Hm Hfalse. cbn [streamLoop]. unfold streamResponse.
  rewrite (pktReceive_next w _ _ Hq).
  destruct (callb h (IMsg m)) as [h1 cont]. cbn [snd fst] in *. subst cont.
  destruct m as [e st | pl |]; cbn in Hm; try discriminate;
    destruct (closeStream fuel n (mkWire (sendq w) tail (sent w)))
      as [[w2 err] | | |]; reflexivity.
Qed.

(** C9 -- once the request frame of [Scan] or [ScanAll] (which are
    [scan_call] at their request frame) has been sent, the operation
    returns nil whatever the stream does afterwards (enough fuel given for
    the receive script to be used up).  A failed receive of the driver
    loop is handed to the handler, as its last call, and nothing more is
    sent.  When the handler gives the stream up, the result of
    [closeStream] - nil, the error of the end-stream request that could
    not be sent, or the error of a failed receive of the flush - is
    dropped: the handler is not called again and the operation returns nil
    with [healthy] still true. *)
Theorem scan_returns_nil_after_send (H : Type) (callb : H -> iface -> H * bool)
    (fuel : nat) (s s1 : state) (evB evC : select_case) (mk : mkConn_result)
    (req : request) (w w1 : wire) (h : H) (g : get_ret) (c : connection)
    (n : netConn) :
  Get s evB evC mk = Some (s1, g) ->
  gerr g = None -> got g = Some c -> conn c = Some n ->
  pktSend w req = (w1, None) ->
  (List.length (recvq w) < fuel)%nat ->
  exists r h',
    scan_call H callb fuel s evB evC mk req w h = Some (r, h') /\
    body_ret r = Done None /\
    (forall s2, Return s1 (Some c) true = Done s2 ->
       ret r = Done None /\ after r = s2) /\
    (forall frames e rest,
       recvq w = map inl frames ++ inr e :: rest ->
       forallb (fun m => negb (is_end m)) frames = true ->
       Forall (eq true) (replay callb h (map IMsg frames)) ->
       calls r = map IMsg frames ++ [IErr e] /\
       healthy_var r = false /\
       wire_after r = mkWire (sendq w1) rest (sent w ++ [req])) /\
    (forall frames m tail,
       recvq w = map inl frames ++ inl m :: tail ->
       forallb (fun m => negb (is_end m)) frames = true ->
       is_end m = false ->
       Forall (eq true) (replay callb h (map IMsg frames)) ->
       snd (callb (handler_after callb h (map IMsg frames)) (IMsg m)) = false ->
       exists w2 err,
         closeStream (fuel - S (List.length frames)) n
                     (mkWire (sendq w1) tail (sent w ++ [req]))
           = Done (w2, err) /\
         calls r = map IMsg frames ++ [IMsg m] /\
         healthy_var r = true /\
         wire_after r = w2).
Proof.
  intros Hget Herr Hgot Hc Hsend Hfuel.
  destruct (pktSend_ok _ _ _ Hsend) as [Hq1 Hs1].
  pose proof (scan_call_unfold H callb fuel s s1 evB evC mk req w w1 h g c n
                Hget Herr Hgot Hc Hsend) as Hunf.
  destruct (streamLoop_ends H callb n fuel w1 h true [])
    as (w2 & h2 & cs & hv & Hloop & _); [rewrite Hq1; exact Hfuel |].
  rewrite Hloop in Hunf.
  exists (finish s1 (Some c, true) (Done None) hv w2 cs), h2.
  destruct (finish_deferred s1 (Some c, true) (Done (@None error)) hv w2 cs)
    as (_ & Hh & Hb & Hcs & Hw).
  split; [exact Hunf |]. split; [exact Hb |]. split.
  { intros s2 Hret.
    apply (finish_returns s1 s2 (Some c, true) (@None error)); assumption. }
  rewrite Hh, Hcs, Hw. split.
  - intros frames e rest Hq Hdata Hall.
    assert (Hlen : (List.length frames < fuel)%nat).
    { rewrite Hq, length_app, length_map in Hfuel. lia. }
    replace fuel with (List.length frames + S (fuel - S (List.length frames)))%nat
      in Hloop by lia.
    rewrite (streamLoop_prefix H callb n frames (inr e :: rest)
               _ w1 h true [] ltac:(rewrite Hq1; exact Hq) Hdata Hall) in Hloop.
    rewrite (streamLoop_receive_fails H callb n _
               (mkWire (sendq w1) (inr e :: rest) (sent w1)) _ true _ e rest
               eq_refl) in Hloop.
    injection Hloop as <- _ <- <-. cbn [app sendq sent]. rewrite Hs1.
    repeat split; reflexivity.
  - intros frames m tail Hq Hdata Hm Hall Hfalse.
    assert (Hlen : (List.length frames < fuel)%nat).
    { rewrite Hq, length_app, length_map in Hfuel. lia. }
    replace fuel with (List.length frames + S (fuel - S (List.length frames)))%nat
      in Hloop by lia.
    rewrite (streamLoop_prefix H callb n frames (inl m :: tail)
               _ w1 h true [] ltac:(rewrite Hq1; exact Hq) Hdata Hall) in Hloop.
    rewrite (streamLoop_cancelled H callb n _
               (mkWire (sendq w1) (inl m :: tail) (sent w1)) _ true _ m tail
               eq_refl Hm Hfalse) in Hloop.
    cbn [sendq sent] in Hloop. rewrite Hs1 in Hloop.
    destruct (closeStream (fuel - S (List.length frames)) n
                (mkWire (sendq w1) tail (sent w ++ [req])))
      as [[w3 err] | | |] eqn:Hclose; cbn [bind] in Hloop; try discriminate.
    injection Hloop as <- _ <- <-. cbn [app].
    exists w3, err. repeat split; reflexivity.
Qed.

Lemma scan_returns_nil_after_send_witness :
  exists r h',
    Scan nat twoFrames 4 (mkState emptyPool []) CaseTimer CaseCreate
         (Some conn7, None) "idx" "default" [] [] [] 3 100 false 10
         (mkWire [] [inl (ResponseStream []); inr connReset] []) 0%nat
      = Some (r, h') /\
    ret r = Done None /\
    calls r = [IMsg (ResponseStream []); IErr connReset] /\
    healthy_var r = false.
Proof.
  destruct (scan_returns_nil_after_send nat twoFrames 4
              (mkState emptyPool [])
              (addCurActConns
                 (with_pool (mkState emptyPool [])
                    (set_createsem emptyPool (mkChan [true] 3 false))) 1)
              CaseTimer CaseCreate (Some conn7, None)
              (ScanRequest "idx" "default" [] [] [] 3 100 false 10)
              (mkWire [] [inl (ResponseStream []); inr connReset] [])
              (mkWire [] [inl (ResponseStream []); inr connReset]
                      [ScanRequest "idx" "default" [] [] [] 3 100 false 10])
              0%nat (mkGetRet (Some conn7) None "create") conn7 7%nat
              eq_refl eq_refl eq_refl eq_refl eq_refl ltac:(cbn; lia))
    as (r & h' & Heq & _ & Hret & Hfail & _).
  exists r, h'. split; [exact Heq |].
  destruct (Hret _ eq_refl) as [Hnil _].
  destruct (Hfail [ResponseStream []] connReset [] eq_refl eq_refl
              ltac:(repeat constructor)) as (Hcalls & Hhv & _).
  split; [exact Hnil |]. split; [exact Hcalls | exact Hhv].
Defined.

(** C9 -- counterexample to "every error after the send reaches the caller
    through the callback".  The handler gives the stream up on its second
    frame.  In the first run the flush of [closeStream] fails on a reset
    connection, in the second the end-stream request cannot be sent:
    [closeStream] returns the error, yet the operation returns nil and the
    handler was given the two data frames and no error. *)
Lemma close_error_reaches_nobody :
  (closeStream 2 7%nat
     (mkWire [] [inr connReset] [ScanAllRequest "idx" "default" 100 10])
     = Done (mkWire [] [] [ScanAllRequest "idx" "default" 100 10;
                           EndStreamRequest],
             Some connReset) /\
   exists r h',
     ScanAll nat twoFrames 4 (mkState emptyPool []) CaseTimer CaseCreate
             (Some conn7, None) "idx" "default" 100 10
             (mkWire [] [inl (ResponseStream []); inl (ResponseStream []);
                         inr connReset] []) 0%nat
       = Some (r, h') /\
     ret r = Done None /\
     calls r = [IMsg (ResponseStream []); IMsg (ResponseStream [])] /\
     (forall e, ~ In (IErr e) (calls r)) /\
     recvq (wire_after r) = []) /\
  (closeStream 2 7%nat
     (mkWire [Some brokenPipe] []
             [ScanRequest "idx" "default" [] [] [] 3 100 false 10])
     = Done (mkWire [] [] [ScanRequest "idx" "default" [] [] [] 3 100 false 10],
             Some brokenPipe) /\
   exists r h',
     Scan nat twoFrames 4 (mkState emptyPool []) CaseTimer CaseCreate
          (Some conn7, None) "idx" "default" [] [] [] 3 100 false 10
          (mkWire [None; Some brokenPipe]
                  [inl (ResponseStream []); inl (ResponseStream [])] [])
          0%nat
       = Some (r, h') /\
     ret r = Done None /\
     calls r = [IMsg (ResponseStream []); IMsg (ResponseStream [])] /\
     (forall e, ~ In (IErr e) (calls r))).
Proof.
  split.
  - split; [reflexivity |].
    eexists. eexists. split; [vm_compute; reflexivity |].
    split; [reflexivity |]. split; [reflexivity |]. split; [| reflexivity].
    intros e [Hin | [Hin | []]]; discriminate.
  - split; [reflexivity |].
    eexists. eexists. split; [vm_compute; reflexivity |].
    split; [reflexivity |]. split; [reflexivity |].
    intros e [Hin | [Hin | []]]; discriminate.
Qed.

(** ** Acquire and return around every operation *)

Lemma Return_curActConns (s s' : state) (connectn : option connection)
    (healthy : bool) :
  Return s connectn healthy = Done s' ->
  curActConns (cp s') = add32 (curActConns (cp s)) (-1).
Proof.
  unfold Return, Return_body.
  destruct connectn as [c |]; [| intros Heq; injection Heq as <-; reflexivity].
  destruct (conn c) as [n |]; [| intros Heq; injection Heq as <-; reflexivity].
  assert (Hrel : bind (bind (releasePermit s) (fun s1 => netClose s1 (Some n)))
                   (fun s1 => Done (addCurActConns s1 (-1))) = Done s' ->
                 curActConns (cp s') = add32 (curActConns (cp s)) (-1)).
  { unfold releasePermit.
    destruct (recv (createsem (cp s))) as [x sem' | |]; cbn; try discriminate.
    intros Heq. injection Heq as <-. reflexivity. }
  destruct healthy; [| exact Hrel].
  destruct (send (connections (cp s)) c) as [ch' | |]; [| | exact Hrel];
    cbn; intros Heq; injection Heq as <-; reflexivity.
Qed.

Lemma Return_never_panics (s : state) (connectn : option connection)
    (healthy : bool) :
  Return s connectn healthy <> Panic /\ Return s connectn healthy <> OutOfFuel.
Proof.
  unfold Return, Return_body.
  destruct connectn as [c |]; [| split; discriminate].
  destruct (conn c) as [n |]; [| split; discriminate].
  assert (Hrel : bind (bind (releasePermit s) (fun s1 => netClose s1 (Some n)))
                   (fun s1 => Done (addCurActConns s1 (-1))) <> Panic /\
                 bind (bind (releasePermit s) (fun s1 => netClose s1 (Some n)))
                   (fun s1 => Done (addCurActConns s1 (-1))) <> OutOfFuel).
  { unfold releasePermit.
    destruct (recv (createsem (cp s))) as [x sem' | |]; cbn; split; discriminate. }
  destruct healthy; [| exact Hrel].
  destruct (send (connections (cp s)) c) as [ch' | |]; [| | exact Hrel];
    cbn; split; discriminate.
Qed.

Lemma Get_curActConns (s s1 : state) (evB evC : select_case)
    (mk : mkConn_result) (g : get_ret) :
  Get s evB evC mk = Some (s1, g) ->
  curActConns (cp s1)
    = match gerr g with
      | None => add32 (curActConns (cp s)) 1
      | Some _ => curActConns (cp s)
      end.
Proof.
  intros Hget.
  destruct (Get_cases _ _ _ _ _ _ Hget) as [(label & Ht) | [Hc | (-> & ->)]];
    [| | reflexivity].
  - destruct (takeConn_cases _ _ _ _ Ht)
      as [(-> & _ & -> & _) | (-> & c & rest & _ & _ & _ & _ & _ & _ & Hact & _)];
      [reflexivity | exact Hact].
  - unfold createConn in Hc.
    destruct (send (createsem (cp s)) true) as [sem' | |]; try discriminate.
    destruct mk as [connectn [e |]].
    + destruct (recv _) as [x sem'' | |]; try discriminate.
      injection Hc as <- <-. reflexivity.
    + injection Hc as <- <-. reflexivity.
Qed.

Lemma finish_restores {A} (s1 : state) (saved : option connection * bool)
    (b : result A) (hv : bool) (w : wire) (cs : list iface) :
  came_back (finish s1 saved b hv w cs) ->
  curActConns (cp (after (finish s1 saved b hv w cs)))
    = add32 (curActConns (cp s1)) (-1).
Proof.
  unfold came_back, finish.
  destruct (Return_never_panics s1 (fst saved) (snd saved)) as [Hnp Hnf].
  destruct b as [v | | |];
    try (cbn; intros [[v' Hv] | Hv]; discriminate);
    destruct (Return s1 (fst saved) (snd saved)) as [s2 | | |] eqn:Hret;
    try congruence;
    try (cbn; intros [[v' Hv] | Hv]; discriminate);
    intros _; cbn; apply (Return_curActConns _ _ _ _ Hret).
Qed.

(** X18 -- Whatever happens in between - transport failure, protocol error,
    panic on an unexpected frame, cancelled stream - an operation of the
    client that comes back to its caller leaves [curActConns] as it found
    it: the acquisition it made is matched by its deferred return, and a
    failed acquisition is matched by none. *)
Theorem client_call_restores_active (s : state) (evB evC : select_case)
    (mk : mkConn_result) (w : wire) :
  is_int32 (curActConns (cp s)) ->
  (forall index bucket low high equal inclusion r,
     Statistics s evB evC mk index bucket low high equal inclusion w = Some r ->
     came_back r ->
     curActConns (cp (after r)) = curActConns (cp s)) /\
  (forall (H : Type) (callb : H -> iface -> H * bool) fuel req h r h',
     scan_call H callb fuel s evB evC mk req w h = Some (r, h') ->
     came_back r ->
     curActConns (cp (after r)) = curActConns (cp s)).
Proof.
  intros Hact.
  assert (Hround : add32 (add32 (curActConns (cp s)) 1) (-1)
                   = curActConns (cp s)).
  { unfold add32. rewrite wrap32_add_l.
    replace (curActConns (cp s) + 1 + -1) with (curActConns (cp s)) by lia.
    apply wrap32_small. exact Hact. }
  split.
  - intros index bucket low high equal inclusion r. unfold Statistics.
    destruct (Get s evB evC mk) as [[s1 g] |] eqn:Hget; [| discriminate].
    pose proof (Get_curActConns _ _ _ _ _ _ Hget) as Hs1.
    destruct (gerr g).
    + intros Heq _. injection Heq as <-. exact Hs1.
    + destruct (Statistics_body _ _ _ _) as [[b hv] w'].
      set (fin := finish s1 (got g, true) b hv w' []).
      intros Heq Hback. injection Heq as <-. subst fin.
      rewrite (finish_restores _ _ _ _ _ _ Hback), Hs1. exact Hround.
  - intros H callb fuel req h r h'. unfold scan_call.
    destruct (Get s evB evC mk) as [[s1 g] |] eqn:Hget; [| discriminate].
    pose proof (Get_curActConns _ _ _ _ _ _ Hget) as Hs1.
    destruct (gerr g).
    + intros Heq _. injection Heq as <- _. exact Hs1.
    + destruct (scan_body _ _ _ _ _ _ _ _) as [[[[b hv] w'] h2] cs].
      set (fin := finish s1 (got g, true) b hv w' cs).
      intros Heq Hback. injection Heq as <- _. subst fin.
      rewrite (finish_restores _ _ _ _ _ _ Hback), Hs1. exact Hround.
Qed.

Lemma client_call_restores_active_witness :
  exists r,
    Statistics (mkState emptyPool []) CaseTimer CaseCreate (Some conn7, None)
               "idx" "default" [] [] [] 3
               (mkWire [] [inl (ResponseStream []); inl StreamEndResponse] [])
      = Some r /\
    ret r = Panic /\
    curActConns (cp (after r)) = 0.
Proof.
  eexists. split; [vm_compute; reflexivity |]. split; [reflexivity |].
  destruct (client_call_restores_active (mkState emptyPool []) CaseTimer
              CaseCreate (Some conn7, None)
              (mkWire [] [inl (ResponseStream []); inl StreamEndResponse] [])
              ltac:(unfold is_int32; cbn; lia)) as [Hstat _].
  exact (Hstat "idx"%string "default"%string [] [] [] 3 _ eq_refl (or_intror eq_refl)).
Defined.

(** ** Statistics: the answers *)

(** X19 -- When the request is sent and the peer answers a statistics response
    followed by the end marker, [Statistics] returns the statistics of the
    response, or the error embedded in it; either way [healthy] is still
    true, both frames are consumed and nothing but the request was sent.
    The caller gets that result once the deferred [Return] is through. *)
Theorem Statistics_answers
    (s s1 : state) (evB evC : select_case) (mk : mkConn_result)
    (index bucket : string) (low high : list Byte.byte)
    (equal : list (list Byte.byte)) (inclusion : Z) (w w1 w2 w3 : wire)
    (g : get_ret) (c : connection) (n : netConn) (em : option string)
    (stats : IndexStatistics) :
  Get s evB evC mk = Some (s1, g) ->
  gerr g = None -> got g = Some c -> conn c = Some n ->
  pktSend w (StatisticsRequest index bucket low high equal inclusion)
    = (w1, None) ->
  pktReceive w1 = (w2, inl (StatisticsResponse em stats)) ->
  pktReceive w2 = (w3, inl StreamEndResponse) ->
  exists r,
    Statistics s evB evC mk index bucket low high equal inclusion w = Some r /\
    body_ret r = Done (match em with
                       | None => (Some stats, None)
                       | Some msg => (None, Some (ErrOther msg))
                       end) /\
    healthy_var r = true /\
    wire_after r = w3 /\
    sent w3 = sent w ++ [StatisticsRequest index bucket low high equal inclusion] /\
    (forall s2, Return s1 (Some c) true = Done s2 ->
       ret r = body_ret r /\ after r = s2).
Proof.
  intros Hget Herr Hgot Hc Hsend Hr1 Hr2.
  destruct (pktSend_ok _ _ _ Hsend) as [_ Hs1].
  pose proof (pktReceive_sent w1) as Hs2. rewrite Hr1 in Hs2. cbn [fst] in Hs2.
  pose proof (pktReceive_sent w2) as Hs3. rewrite Hr2 in Hs3. cbn [fst] in Hs3.
  unfold Statistics. rewrite Hget, Herr, Hgot.
  unfold Statistics_body, sendRequest. rewrite Hc, Hsend, Hr1, Hr2.
  destruct em as [msg |].
  - eexists. split; [reflexivity |].
    destruct (finish_deferred s1 (Some c, true)
                (Done (@None IndexStatistics, Some (ErrOther msg))) true w3 [])
      as (_ & Hh & Hb & _ & Hw).
    rewrite Hb, Hh, Hw. repeat split; try congruence.
    + apply (finish_returns s1 s2 (Some c, true)); assumption.
    + apply (finish_returns s1 s2 (Some c, true)
               (@None IndexStatistics, Some (ErrOther msg))); assumption.
  - eexists. split; [reflexivity |].
    destruct (finish_deferred s1 (Some c, true)
                (Done (Some stats, @None error)) true w3 [])
      as (_ & Hh & Hb & _ & Hw).
    rewrite Hb, Hh, Hw. repeat split; try congruence.
    + apply (finish_returns s1 s2 (Some c, true)); assumption.
    + apply (finish_returns s1 s2 (Some c, true) (Some stats, @None error));
        assumption.
Qed.

Lemma Statistics_answers_witness :
  exists r,
    Statistics (mkState emptyPool []) CaseTimer CaseCreate (Some conn7, None)
               "idx" "default" [] [] [] 3
               (mkWire [] [inl (StatisticsResponse (Some "no such index"%string)
                                                   someStats);
                           inl StreamEndResponse] [])
      = Some r /\
    body_ret r = Done (None, Some (ErrOther "no such index"%string)) /\
    healthy_var r = true.
Proof.
  destruct (Statistics_answers
              (mkState emptyPool [])
              (addCurActConns
                 (with_pool (mkState emptyPool [])
                    (set_createsem emptyPool (mkChan [true] 3 false))) 1)
              CaseTimer CaseCreate (Some conn7, None)
              "idx" "default" [] [] [] 3
              (mkWire [] [inl (StatisticsResponse (Some "no such index"%string)
                                                  someStats);
                          inl StreamEndResponse] [])
              (mkWire [] [inl (StatisticsResponse (Some "no such index"%string)
                                                  someStats);
                          inl StreamEndResponse]
                      [StatisticsRequest "idx" "default" [] [] [] 3])
              (mkWire [] [inl StreamEndResponse]
                      [StatisticsRequest "idx" "default" [] [] [] 3])
              (mkWire [] [] [StatisticsRequest "idx" "default" [] [] [] 3])
              (mkGetRet (Some conn7) None "create") conn7 7%nat
              (Some "no such index"%string) someStats
              eq_refl eq_refl eq_refl eq_refl eq_refl eq_refl eq_refl)
    as (r & Heq & Hbody & Hh & _).
  exists r. split; [exact Heq |]. split; [exact Hbody | exact Hh].
Defined.

(** ** Operations that get no connection *)

(** X20 -- When the acquisition fails - closed pool, timeout or failed dial -
    each of the three operations returns that error and does nothing
    else: no frame is sent or received, the handler is not called, no
    [Return] is deferred, and the pool keeps its idle buffer, its counters
    and its number of permits. *)
Theorem no_connection_no_traffic (s s1 : state) (evB evC : select_case)
    (mk : mkConn_result) (w : wire) (g : get_ret) (e : error) :
  Get s evB evC mk = Some (s1, g) ->
  gerr g = Some e ->
  (connections (cp s1) = connections (cp s) /\
   freeConns (cp s1) = freeConns (cp s) /\
   curActConns (cp s1) = curActConns (cp s) /\
   len (createsem (cp s1)) = len (createsem (cp s)) /\
   netClosed s1 = netClosed s) /\
  (forall index bucket low high equal inclusion,
     Statistics s evB evC mk index bucket low high equal inclusion w
       = Some (mkCall (Done (None, Some e)) (Done (None, Some e)) None true
                      s1 w [])) /\
  (forall (H : Type) (callb : H -> iface -> H * bool) fuel req h,
     scan_call H callb fuel s evB evC mk req w h
       = Some (mkCall (Done (Some e)) (Done (Some e)) None true s1 w [], h)).
Proof.
  intros Hget Herr. split; [| split].
  - exact (GetWithTimeout_error_state s s1 _ evB evC mk g e Hget Herr).
  - intros. unfold Statistics. rewrite Hget, Herr. reflexivity.
  - intros. unfold scan_call. rewrite Hget, Herr. reflexivity.
Qed.

Lemma no_connection_no_traffic_witness :
  Statistics (mkState saturatedPool []) CaseTimer CaseTimer (Some conn7, None)
             "idx" "default" [] [] [] 3 (mkWire [] [] [])
    = Some (mkCall (Done (None, Some ErrorPoolTimeout))
                   (Done (None, Some ErrorPoolTimeout)) None true
                   (mkState saturatedPool []) (mkWire [] [] []) []).
Proof.
  destruct (no_connection_no_traffic (mkState saturatedPool [])
              (mkState saturatedPool []) CaseTimer CaseTimer
              (Some conn7, None) (mkWire [] [] [])
              (mkGetRet None (Some ErrorPoolTimeout) "short-circuit")
              ErrorPoolTimeout eq_refl eq_refl) as (_ & Hstat & _).
  exact (Hstat "idx"%string "default"%string [] [] [] 3).
Defined.

(** * Return and acquisition composed *)

Lemma Return_discard_sem (s : state) (c : connection) (n : netConn)
    (healthy : bool) (x : bool) (rest : list bool) :
  conn c = Some n ->
  buf (createsem (cp s)) = x :: rest ->
  (healthy = true ->
   closed (connections (cp s)) = false /\
   cap (connections (cp s)) <= len (connections (cp s))) ->
  exists s',
    Return s (Some c) healthy = Done s' /\
    createsem (cp s')
      = mkChan rest (cap (createsem (cp s))) (closed (createsem (cp s))) /\
    connections (cp s') = connections (cp s) /\
    freeConns (cp s') = freeConns (cp s) /\
    curActConns (cp s') = add32 (curActConns (cp s)) (-1) /\
    netClosed s' = netClosed s ++ [n].
Proof.
  intros Hc Hsem Hfull. unfold Return, Return_body. rewrite Hc.
  destruct healthy.
  - destruct (Hfull eq_refl) as [Hopen Hge]. unfold send.
    rewrite Hopen. apply Z.ltb_ge in Hge. rewrite Hge.
    rewrite (releasePermit_held s x rest Hsem). cbn.
    eexists. split; [reflexivity |]. repeat split; reflexivity.
  - rewrite (releasePermit_held s x rest Hsem). cbn.
    eexists. split; [reflexivity |]. repeat split; reflexivity.
Qed.

(** X21 -- On a pool whose permits are all taken and whose idle buffer is empty,
    an acquisition can only time out.  Once a borrowed connection has
    been returned unhealthy (or healthy into a buffer without room), the
    permit it gives back lets exactly one replacement be dialed: the next
    acquisition can create a connection, after which the permits are all
    taken again. *)
Theorem discard_makes_room_for_one (s : state) (c c' : connection)
    (n : netConn) (healthy : bool) :
  conn c = Some n ->
  closed (createsem (cp s)) = false ->
  0 < len (createsem (cp s)) ->
  len (createsem (cp s)) = cap (createsem (cp s)) ->
  buf (connections (cp s)) = [] ->
  closed (connections (cp s)) = false ->
  (healthy = true -> cap (connections (cp s)) <= 0) ->
  (forall d evB evC mk r,
     GetWithTimeout s d evB evC mk = Some r -> gerr (snd r) = Some ErrorPoolTimeout) /\
  exists s1 s2,
    Return s (Some c) healthy = Done s1 /\
    GetWithTimeout s1 1 CaseTimer CaseCreate (Some c', None)
      = Some (s2, mkGetRet (Some c') None "create") /\
    len (createsem (cp s2)) = cap (createsem (cp s2)) /\
    curActConns (cp s2) = add32 (add32 (curActConns (cp s)) (-1)) 1 /\
    netClosed s2 = netClosed s ++ [n] /\
    (forall d evB evC mk r,
       GetWithTimeout s2 d evB evC mk = Some r ->
       gerr (snd r) = Some ErrorPoolTimeout).
Proof.
  intros Hc HopenS Hheld Hfull Hbuf Hopen Hnoroom.
  assert (Htimeout : forall s0,
            buf (connections (cp s0)) = [] ->
            closed (connections (cp s0)) = false ->
            cap (createsem (cp s0)) <= len (createsem (cp s0)) ->
            forall d evB evC mk r,
              GetWithTimeout s0 d evB evC mk = Some r ->
              gerr (snd r) = Some ErrorPoolTimeout).
  { intros s0 Hb Ho Hf d evB evC mk r. unfold GetWithTimeout.
    rewrite (takeConn_not_ready s0 "short-circuit" Hb Ho).
    destruct evB; cbn [stageB].
    - rewrite (takeConn_not_ready s0 "avail1" Hb Ho). discriminate.
    - discriminate.
    - destruct evC; cbn [stageC].
      + rewrite (takeConn_not_ready s0 "avail2" Hb Ho). discriminate.
      + rewrite (createConn_not_ready s0 mk Hf). discriminate.
      + intros Heq. injection Heq as <-. reflexivity. }
  split; [apply Htimeout; try assumption; lia |].
  destruct (buf (createsem (cp s))) as [| x rest] eqn:Hsem.
  { unfold len in Hheld. rewrite Hsem in Hheld. cbn in Hheld. lia. }
  destruct (Return_discard_sem s c n healthy x rest Hc Hsem)
    as (s1 & Hret & Hsem1 & Hconns1 & _ & Hact1 & Hlog1).
  { intros Hh. split; [exact Hopen |]. specialize (Hnoroom Hh).
    unfold len. rewrite Hbuf. cbn. lia. }
  assert (Hlen : len (createsem (cp s)) = Z.of_nat (List.length rest) + 1).
  { unfold len. rewrite Hsem. cbn [List.length]. lia. }
  assert (Hroom1 : len (createsem (cp s1)) < cap (createsem (cp s1))).
  { rewrite Hsem1. unfold len. cbn. lia. }
  assert (Hopen1 : closed (createsem (cp s1)) = false).
  { rewrite Hsem1. cbn. exact HopenS. }
  exists s1. eexists. split; [exact Hret |].
  unfold GetWithTimeout.
  rewrite (takeConn_not_ready s1 "short-circuit")
    by (rewrite Hconns1; assumption).
  cbn [stageB stageC].
  rewrite (createConn_ok s1 (Some c') Hopen1 Hroom1).
  split; [reflexivity |]. cbn. rewrite Hsem1. cbn.
  split; [unfold len; cbn; rewrite length_app; cbn [List.length]; lia |].
  split; [rewrite Hact1; reflexivity |].
  split; [exact Hlog1 |].
  apply Htimeout; cbn.
  - rewrite Hconns1. exact Hbuf.
  - rewrite Hconns1. exact Hopen.
  - unfold len. cbn. rewrite length_app. cbn [List.length]. lia.
Qed.

Lemma discard_makes_room_for_one_witness :
  exists s1 s2,
    Return (mkState saturatedPool []) (Some conn7) false = Done s1 /\
    GetWithTimeout s1 1 CaseTimer CaseCreate (Some (connN 8), None)
      = Some (s2, mkGetRet (Some (connN 8)) None "create") /\
    netClosed s2 = [7%nat].
Proof.
  destruct (discard_makes_room_for_one (mkState saturatedPool []) conn7
              (connN 8) 7%nat false eq_refl eq_refl
              ltac:(vm_compute; reflexivity) eq_refl eq_refl eq_refl
              ltac:(discriminate))
    as (_ & s1 & s2 & Hret & Hget & _ & _ & Hlog & _).
  exists s1, s2. split; [exact Hret |]. split; [exact Hget | exact Hlog].
Defined.

(** * The helpers of the restore planner *)

Lemma sameReplica_true (x y : IndexUsage) :
  sameReplica x y = true <->
  Bucket x = Bucket y /\ Name x = Name y /\ PartnId x = PartnId y /\
  exists a b, Instance x = Some a /\ Instance y = Some b /\
              ReplicaId a = ReplicaId b.
Proof.
  unfold sameReplica. rewrite !andb_true_iff, !String.eqb_eq, Z.eqb_eq.
  destruct (Instance x) as [a |], (Instance y) as [b |].
  - rewrite Z.eqb_eq. split.
    + intros [[[Hb Hn] Hp] Hr]. repeat split; try assumption. eauto.
    + intros (Hb & Hn & Hp & a' & b' & Ha & Hb' & Hr).
      injection Ha as <-. injection Hb' as <-. tauto.
  - split; [intros [_ H0]; discriminate |].
    intros (_ & _ & _ & a' & b' & _ & Hb' & _). discriminate.
  - split; [intros [_ H0]; discriminate |].
    intros (_ & _ & _ & a' & b' & Ha & _). discriminate.
  - split; [intros [_ H0]; discriminate |].
    intros (_ & _ & _ & a' & b' & Ha & _). discriminate.
Qed.

Lemma foundIn_true (superset : list IndexUsage) (sub : IndexUsage) :
  foundIn superset sub = true <->
  exists super, In super superset /\ sameReplica super sub = true.
Proof.
  induction superset as [| x rest IH]; cbn [foundIn In].
  - split; [discriminate | intros (s0 & [] & _)].
  - destruct (sameReplica x sub) eqn:Hx.
    + split; [intros _; exists x; auto | reflexivity].
    + rewrite IH. split.
      * intros (s0 & Hin & Hs). exists s0. auto.
      * intros (s0 & [<- | Hin] & Hs); [congruence | eauto].
Qed.

Lemma isSubset_true (superset subset : list IndexUsage) :
  isSubset superset subset = true <->
  forall sub, In sub subset -> foundIn superset sub = true.
Proof.
  induction subset as [| x rest IH]; cbn [isSubset In].
  - split; [intros _ sub [] | reflexivity].
  - destruct (foundIn superset x) eqn:Hx.
    + rewrite IH. split.
      * intros Hall sub [<- | Hin]; auto.
      * intros Hall sub Hin. apply Hall. auto.
    + split; [discriminate |]. intros Hall.
      rewrite (Hall x (or_introl eq_refl)) in Hx. discriminate.
Qed.

(** X22 -- [isSubset] compares usages by bucket, name, partition and replica
    id, and a usage without instance matches nothing.  So every list
    contains the empty list; a list is a subset of itself exactly when
    each of its usages has an instance; and the relation is transitive. *)
Theorem isSubset_preorder (a b c : list IndexUsage) :
  isSubset a [] = true /\
  (isSubset a a = true <-> Forall (fun u => Instance u <> None) a) /\
  (isSubset a b = true -> isSubset b c = true -> isSubset a c = true).
Proof.
  split; [reflexivity |]. split.
  - rewrite isSubset_true, Forall_forall. split.
    + intros Hall u Hin. specialize (Hall u Hin).
      apply foundIn_true in Hall. destruct Hall as (v & _ & Hs).
      apply sameReplica_true in Hs.
      destruct Hs as (_ & _ & _ & x & y & _ & Hy & _). congruence.
    + intros Hall u Hin. apply foundIn_true. exists u. split; [exact Hin |].
      apply sameReplica_true. specialize (Hall u Hin).
      destruct (Instance u) as [i |]; [| congruence].
      repeat split; eauto.
  - rewrite !isSubset_true. intros Hab Hbc u Hin.
    specialize (Hbc u Hin). apply foundIn_true in Hbc.
    destruct Hbc as (v & Hv & Hvu).
    specialize (Hab v Hv). apply foundIn_true in Hab.
    destruct Hab as (x & Hx & Hxv).
    apply foundIn_true. exists x. split; [exact Hx |].
    apply sameReplica_true in Hvu. apply sameReplica_true in Hxv.
    apply sameReplica_true.
    destruct Hvu as (B1 & N1 & P1 & i1 & j1 & Hi1 & Hj1 & R1).
    destruct Hxv as (B2 & N2 & P2 & i2 & j2 & Hi2 & Hj2 & R2).
    rewrite Hi1 in Hj2. injection Hj2 as <-.
    repeat split; try congruence. exists i2, j1. repeat split; congruence.
Qed.

Lemma isSubset_preorder_witness :
  isSubset (Indexes nodeA) [usage "idx2" 0 0] = true /\
  isSubset (Indexes nodeA) (Indexes nodeA) = true.
Proof.
  destruct (isSubset_preorder (Indexes nodeA) (Indexes nodeA)
              [usage "idx2" 0 0]) as (_ & Hrefl & Htrans).
  assert (Hself : isSubset (Indexes nodeA) (Indexes nodeA) = true).
  { apply Hrefl. repeat constructor; discriminate. }
  split; [apply Htrans; [exact Hself | reflexivity] | exact Hself].
Defined.

Lemma isMember_true (candidates : list IndexerNode) (indexer : IndexerNode) :
  isMember candidates indexer = true <->
  exists candidate, In candidate candidates /\ nodeRef candidate = nodeRef indexer.
Proof.
  induction candidates as [| x rest IH]; cbn [isMember In].
  - split; [discriminate | intros (c0 & [] & _)].
  - destruct (Nat.eqb_spec (nodeRef x) (nodeRef indexer)) as [Heq | Hne].
    + split; [intros _; exists x; auto | reflexivity].
    + rewrite IH. split.
      * intros (c0 & Hin & Hc). exists c0. auto.
      * intros (c0 & [<- | Hin] & Hc); [congruence | eauto].
Qed.

Lemma findMatchingIndexer_loop_spec (indexerId : string)
    (indexes : list IndexUsage) (excludes : list IndexerNode) :
  forall candidates,
    match findMatchingIndexer_loop indexerId indexes candidates excludes with
    | Some node =>
        exists before after,
          candidates = before ++ node :: after /\
          acceptable indexerId indexes excludes node /\
          Forall (fun c => ~ acceptable indexerId indexes excludes c) before
    | None =>
        Forall (fun c => ~ acceptable indexerId indexes excludes c) candidates
    end.
Proof.
  induction candidates as [| x rest IH]; cbn [findMatchingIndexer_loop].
  - constructor.
  - assert (Hskip : ~ acceptable indexerId indexes excludes x ->
      match findMatchingIndexer_loop indexerId indexes rest excludes with
      | Some node =>
          exists before after,
            x :: rest = before ++ node :: after /\
            acceptable indexerId indexes excludes node /\
            Forall (fun c => ~ acceptable indexerId indexes excludes c) before
      | None =>
          Forall (fun c => ~ acceptable indexerId indexes excludes c) (x :: rest)
      end).
    { intros Hx.
      destruct (findMatchingIndexer_loop indexerId indexes rest excludes)
        as [node |].
      - destruct IH as (before & after & -> & Hacc & Hall).
        exists (x :: before), after. split; [reflexivity |].
        split; [exact Hacc | constructor; assumption].
      - constructor; assumption. }
    assert (Hhit : acceptable indexerId indexes excludes x ->
      exists before after,
        x :: rest = before ++ x :: after /\
        acceptable indexerId indexes excludes x /\
        Forall (fun c => ~ acceptable indexerId indexes excludes c) before).
    { intros Hx. exists [], rest. split; [reflexivity |].
      split; [exact Hx | constructor]. }
    destruct (isMember excludes x) eqn:Hmem.
    { apply Hskip. intros [H0 _]. congruence. }
    destruct (String.eqb_spec indexerId (IndexerId x)) as [Hid | Hid].
    { apply Hhit. split; [exact Hmem | left; exact Hid]. }
    destruct (Indexes x) as [| u us] eqn:Hidx; cbn [List.length Nat.eqb negb andb].
    { apply Hskip. intros [_ [H0 | [H0 _]]]; [congruence |].
      rewrite Hidx in H0. congruence. }
    destruct (isSubset indexes (u :: us)) eqn:Hsub.
    + apply Hhit. split; [exact Hmem |]. right. rewrite Hidx.
      split; [discriminate | exact Hsub].
    + apply Hskip. intros [_ [H0 | [_ H0]]]; [congruence |].
      rewrite Hidx in H0. congruence.
Qed.

(** X23 -- [findMatchingIndexer] matches nothing when there are no indexes to
    place.  Otherwise it returns the first candidate, in order, that is
    not excluded and either carries the indexer id or holds a non-empty
    list of indexes contained in the given ones; it returns nil exactly
    when no candidate is acceptable.  An indexer without indexes is
    matched by its id only. *)
Theorem findMatchingIndexer_first_acceptable (indexerId : string)
    (indexes : list IndexUsage) (candidates excludes : list IndexerNode) :
  (indexes = [] ->
   findMatchingIndexer indexerId indexes candidates excludes = None) /\
  (forall node,
     findMatchingIndexer indexerId indexes candidates excludes = Some node ->
     exists before after,
       candidates = before ++ node :: after /\
       acceptable indexerId indexes excludes node /\
       Forall (fun c => ~ acceptable indexerId indexes excludes c) before) /\
  (indexes <> [] ->
   findMatchingIndexer indexerId indexes candidates excludes = None ->
   Forall (fun c => ~ acceptable indexerId indexes excludes c) candidates).
Proof.
  pose proof (findMatchingIndexer_loop_spec indexerId indexes excludes candidates)
    as Hloop.
  unfold findMatchingIndexer.
  destruct indexes as [| u us]; cbn [List.length Nat.eqb].
  - split; [reflexivity |]. split; [discriminate | congruence].
  - split; [discriminate |]. split.
    + intros node Heq. rewrite Heq in Hloop. exact Hloop.
    + intros _ Heq. rewrite Heq in Hloop. exact Hloop.
Qed.

Lemma findMatchingIndexer_first_acceptable_witness :
  findMatchingIndexer "indexer-x" [usage "idx1" 0 1; usage "idx2" 0 0]
                      [nodeEmpty; nodeA; nodeB] [nodeA] = Some nodeB /\
  acceptable "indexer-x" [usage "idx1" 0 1; usage "idx2" 0 0] [nodeA] nodeB.
Proof.
  split; [reflexivity |].
  destruct (findMatchingIndexer_first_acceptable "indexer-x"
              [usage "idx1" 0 1; usage "idx2" 0 0]
              [nodeEmpty; nodeA; nodeB] [nodeA]) as (_ & Hsome & _).
  destruct (Hsome nodeB eq_refl) as (before & after & Hsplit & Hacc & _).
  exact Hacc.
Defined.

(** ** The three finders *)

Lemma firstUsage_some (test : IndexUsage -> IndexInst -> bool)
    (indexes : list IndexUsage) (u : IndexUsage) :
  firstUsage test indexes = Some u ->
  In u indexes /\ exists inst, Instance u = Some inst /\ test u inst = true.
Proof.
  induction indexes as [| x rest IH]; cbn [firstUsage In]; [discriminate |].
  destruct (Instance x) as [inst |] eqn:Hi.
  - destruct (test x inst) eqn:Ht.
    + intros Heq. injection Heq as <-. split; [auto | eauto].
    + intros H0. destruct (IH H0) as [Hin Hrest]. auto.
  - intros H0. destruct (IH H0) as [Hin Hrest]. auto.
Qed.

Lemma firstUsage_none (test : IndexUsage -> IndexInst -> bool)
    (indexes : list IndexUsage) :
  firstUsage test indexes = None ->
  forall u inst, In u indexes -> Instance u = Some inst -> test u inst = false.
Proof.
  induction indexes as [| x rest IH]; cbn [firstUsage In]; [intros _ u inst [] |].
  destruct (Instance x) as [i |] eqn:Hi.
  - destruct (test x i) eqn:Ht; [discriminate |].
    intros H0 u inst [<- | Hin] Hu; [congruence | eauto].
  - intros H0 u inst [<- | Hin] Hu; [congruence | eauto].
Qed.

Lemma firstInPlacement_some (test : IndexUsage -> IndexInst -> bool)
    (placement : list IndexerNode) (u : IndexUsage) :
  firstInPlacement test placement = Some u ->
  exists node inst,
    In node placement /\ In u (Indexes node) /\
    Instance u = Some inst /\ test u inst = true.
Proof.
  induction placement as [| x rest IH]; cbn [firstInPlacement In];
    [discriminate |].
  destruct (firstUsage test (Indexes x)) as [v |] eqn:Hf.
  - intros Heq. injection Heq as <-.
    destruct (firstUsage_some _ _ _ Hf) as (Hin & inst & Hi & Ht).
    exists x, inst. auto.
  - intros H0. destruct (IH H0) as (node & inst & Hn & Hrest).
    exists node, inst. auto.
Qed.

Lemma firstInPlacement_none (test : IndexUsage -> IndexInst -> bool)
    (placement : list IndexerNode) :
  firstInPlacement test placement = None ->
  forall node u inst,
    In node placement -> In u (Indexes node) -> Instance u = Some inst ->
    test u inst = false.
Proof.
  induction placement as [| x rest IH]; cbn [firstInPlacement In];
    [intros _ node u inst [] |].
  destruct (firstUsage test (Indexes x)) as [v |] eqn:Hf; [discriminate |].
  intros H0 node u inst [<- | Hin] Hu Hi.
  - apply (firstUsage_none _ _ Hf u inst Hu Hi).
  - apply (IH H0 node u inst Hin Hu Hi).
Qed.

(** X24 -- The finders agree.  What [findMatchingReplica] returns sits in the
    placement, has an instance and carries the bucket, name, partition
    and replica id asked for; and whenever it finds a usage,
    [findAnyReplica] (same replica id, any partition) and
    [findMatchingInst] (any replica) find one too.  When
    [findMatchingInst] finds nothing, neither of the two others does. *)
Theorem finders_agree (current : Plan) (bucket name : string)
    (partnId replicaId : Z) :
  (forall u,
     findMatchingReplica current bucket name partnId replicaId = Some u ->
     (exists node inst,
        In node (Placement current) /\ In u (Indexes node) /\
        Instance u = Some inst /\ Bucket u = bucket /\ Name u = name /\
        PartnId u = partnId /\ ReplicaId inst = replicaId) /\
     (exists v, findAnyReplica current bucket name replicaId = Some v) /\
     (exists v, findMatchingInst current bucket name = Some v)) /\
  (findMatchingInst current bucket name = None ->
   findAnyReplica current bucket name replicaId = None /\
   findMatchingReplica current bucket name partnId replicaId = None).
Proof.
  unfold findMatchingReplica, findAnyReplica, findMatchingInst. split.
  - intros u Hu.
    destruct (firstInPlacement_some _ _ _ Hu) as (node & inst & Hn & Hin & Hi & Ht).
    rewrite !andb_true_iff, !String.eqb_eq, !Z.eqb_eq in Ht.
    destruct Ht as [[[Hb Hna] Hp] Hr].
    split; [exists node, inst; repeat split; assumption |]. split.
    + match goal with
      | |- exists v, ?t = Some v => destruct t as [v |] eqn:Hany
      end; [eauto |].
      pose proof (firstInPlacement_none _ _ Hany node u inst Hn Hin Hi) as Hf.
      cbn in Hf. rewrite Hb, Hna, Hr, !String.eqb_refl, Z.eqb_refl in Hf.
      discriminate.
    + match goal with
      | |- exists v, ?t = Some v => destruct t as [v |] eqn:Hany
      end; [eauto |].
      pose proof (firstInPlacement_none _ _ Hany node u inst Hn Hin Hi) as Hf.
      cbn in Hf. rewrite Hb, Hna, !String.eqb_refl in Hf. discriminate.
  - intros Hnone.
    assert (Hweak : forall test : IndexUsage -> IndexInst -> bool,
              (forall u inst, test u inst = true ->
                 String.eqb (Bucket u) bucket && String.eqb (Name u) name = true) ->
              firstInPlacement test (Placement current) = None).
    { intros test Himp.
      destruct (firstInPlacement test (Placement current)) as [v |] eqn:Hv;
        [| reflexivity].
      destruct (firstInPlacement_some _ _ _ Hv)
        as (node & inst & Hn & Hin & Hi & Ht).
      pose proof (firstInPlacement_none _ _ Hnone node v inst Hn Hin Hi) as Hf.
      cbn in Hf. rewrite (Himp v inst Ht) in Hf. discriminate. }
    split; apply Hweak; intros u inst Ht;
      rewrite !andb_true_iff in Ht; rewrite andb_true_iff; tauto.
Qed.

Lemma finders_agree_witness :
  findMatchingReplica (mkPlan [nodeEmpty; nodeA; nodeB]) "default" "idx1" 0 1
    = Some (usage "idx1" 0 1) /\
  exists v, findMatchingInst (mkPlan [nodeEmpty; nodeA; nodeB]) "default" "idx1"
            = Some v.
Proof.
  split; [reflexivity |].
  destruct (finders_agree (mkPlan [nodeEmpty; nodeA; nodeB]) "default" "idx1" 0 1)
    as [Hsome _].
  destruct (Hsome (usage "idx1" 0 1) eq_refl) as (_ & _ & Hinst).
  exact Hinst.
Defined.

(** ** Counting replicas *)

Lemma setKey_spec (m : list Z) (id : Z) :
  NoDup m ->
  NoDup (setKey m id) /\ (forall x, In x (setKey m id) <-> x = id \/ In x m).
Proof.
  intros Hnd. unfold setKey.
  destruct (existsb (Z.eqb id) m) eqn:Hex.
  - split; [exact Hnd |]. intros x. split; [auto |].
    intros [-> | Hin]; [| exact Hin].
    apply existsb_exists in Hex. destruct Hex as (y & Hy & Heq).
    apply Z.eqb_eq in Heq. subst y. exact Hy.
  - split.
    + constructor; [| exact Hnd]. intros Hin.
      assert (Htrue : existsb (Z.eqb id) m = true).
      { apply existsb_exists. exists id. split; [exact Hin | apply Z.eqb_refl]. }
      congruence.
    + intros x. cbn [In]. split; intros [H0 | H0]; auto.
Qed.

Lemma numReplica_indexes_spec (defnId : Z) (indexes : list IndexUsage) :
  forall m,
    NoDup m ->
    match numReplica_indexes indexes defnId m with
    | Some m' =>
        NoDup m' /\ ~ lacksInstance defnId indexes /\
        (forall id, In id m' <-> In id m \/ replicaOf defnId indexes id)
    | None => lacksInstance defnId indexes
    end.
Proof.
  induction indexes as [| x rest IH]; intros m Hnd; cbn [numReplica_indexes].
  - split; [exact Hnd |]. split.
    + intros (u & [] & _).
    + intros id. split; [auto |]. intros [H0 | (u & inst & [] & _)]. exact H0.
  - destruct (Z.eqb_spec defnId (DefnId x)) as [Hd | Hd].
    + destruct (Instance x) as [inst |] eqn:Hi.
      * destruct (setKey_spec m (ReplicaId inst) Hnd) as [Hnd' Hin'].
        specialize (IH (setKey m (ReplicaId inst)) Hnd').
        destruct (numReplica_indexes rest defnId (setKey m (ReplicaId inst)))
          as [m' |].
        -- destruct IH as (Hnd'' & Hno & Hmem). split; [exact Hnd'' |]. split.
           ++ intros (u & [<- | Hin] & Hdu & Hiu); [congruence |].
              apply Hno. exists u. auto.
           ++ intros id. rewrite Hmem, Hin'. split.
              ** intros [[-> | H0] | (u & i & Hin & Hdu & Hiu & Hr)].
                 --- right. exists x, inst. cbn [In]. auto.
                 --- auto.
                 --- right. exists u, i. cbn [In]. auto.
              ** intros [H0 | (u & i & [<- | Hin] & Hdu & Hiu & Hr)].
                 --- auto.
                 --- left. left. congruence.
                 --- right. exists u, i. auto.
        -- destruct IH as (u & Hin & Hdu & Hiu). exists u. cbn [In]. auto.
      * exists x. cbn [In]. auto.
    + specialize (IH m Hnd).
      destruct (numReplica_indexes rest defnId m) as [m' |].
      * destruct IH as (Hnd'' & Hno & Hmem). split; [exact Hnd'' |]. split.
        -- intros (u & [<- | Hin] & Hdu & Hiu); [congruence |].
           apply Hno. exists u. auto.
        -- intros id. rewrite Hmem. split.
           ++ intros [H0 | (u & i & Hin & Hrest)]; [auto |].
              right. exists u, i. cbn [In]. auto.
           ++ intros [H0 | (u & i & [<- | Hin] & Hdu & Hrest)];
                [auto | congruence | right; exists u, i; auto].
      * destruct IH as (u & Hin & Hdu & Hiu). exists u. cbn [In]. auto.
Qed.

Lemma numReplica_nodes_spec (defnId : Z) (indexers : list IndexerNode) :
  forall m,
    NoDup m ->
    match numReplica_nodes indexers defnId m with
    | Some m' =>
        NoDup m' /\
        (forall node, In node indexers -> ~ lacksInstance defnId (Indexes node)) /\
        (forall id, In id m' <->
                    In id m \/
                    exists node, In node indexers /\
                                 replicaOf defnId (Indexes node) id)
    | None =>
        exists node, In node indexers /\ lacksInstance defnId (Indexes node)
    end.
Proof.
  induction indexers as [| x rest IH]; intros m Hnd; cbn [numReplica_nodes].
  - split; [exact Hnd |]. split; [intros node [] |].
    intros id. split; [auto |]. intros [H0 | (node & [] & _)]. exact H0.
  - pose proof (numReplica_indexes_spec defnId (Indexes x) m Hnd) as Hx.
    destruct (numReplica_indexes (Indexes x) defnId m) as [m1 |].
    + destruct Hx as (Hnd1 & Hno1 & Hmem1).
      specialize (IH m1 Hnd1).
      destruct (numReplica_nodes rest defnId m1) as [m' |].
      * destruct IH as (Hnd' & Hno & Hmem). split; [exact Hnd' |]. split.
        -- intros node [<- | Hin]; auto.
        -- intros id. rewrite Hmem, Hmem1. split.
           ++ intros [[H0 | H0] | (node & Hin & Hr)].
              ** auto.
              ** right. exists x. cbn [In]. auto.
              ** right. exists node. cbn [In]. auto.
           ++ intros [H0 | (node & [<- | Hin] & Hr)]; [auto | auto |].
              right. exists node. auto.
      * destruct IH as (node & Hin & Hl). exists node. cbn [In]. auto.
    + exists x. cbn [In]. auto.
Qed.

(** X25 -- [findNumReplica] counts the distinct replica ids of the usages of the
    given definition, however many partitions or nodes carry them; it
    dereferences a nil instance (and panics) exactly when some usage of
    that definition has none. *)
Theorem findNumReplica_counts_distinct (indexers : list IndexerNode)
    (defnId : Z) :
  (findNumReplica indexers defnId = None <->
   exists node, In node indexers /\ lacksInstance defnId (Indexes node)) /\
  (forall k,
     findNumReplica indexers defnId = Some k ->
     exists ids,
       NoDup ids /\ k = Z.of_nat (List.length ids) /\
       forall id, In id ids <->
                  exists node, In node indexers /\
                               replicaOf defnId (Indexes node) id).
Proof.
  pose proof (numReplica_nodes_spec defnId indexers [] (NoDup_nil Z)) as Hspec.
  unfold findNumReplica.
  destruct (numReplica_nodes indexers defnId []) as [m |]; cbn [option_map].
  - destruct Hspec as (Hnd & Hno & Hmem). split.
    + split; [discriminate |]. intros (node & Hin & Hl).
      exfalso. apply (Hno node Hin Hl).
    + intros k Heq. injection Heq as <-. exists m.
      split; [exact Hnd |]. split; [reflexivity |].
      intros id. rewrite Hmem. cbn [In]. tauto.
  - split; [tauto | discriminate].
Qed.

Lemma findNumReplica_counts_distinct_witness :
  findNumReplica [nodeEmpty; nodeA; nodeB] 1 = Some 2 /\
  exists ids : list Z, NoDup ids /\ 2 = Z.of_nat (List.length ids).
Proof.
  split; [reflexivity |].
  destruct (findNumReplica_counts_distinct [nodeEmpty; nodeA; nodeB] 1)
    as [_ Hsome].
  destruct (Hsome 2 eq_refl) as (ids & Hnd & Hk & _).
  exists ids. split; assumption.
Defined.

(** ** Looking up and counting indexer nodes *)

(** X26 -- [findIndexer] returns the first node of the placement that carries
    the indexer id, and nil exactly when no node carries it. *)
Theorem findIndexer_first (plan : Plan) (indexerId : string) :
  (forall node,
     findIndexer plan indexerId = Some node ->
     exists before after,
       Placement plan = before ++ node :: after /\
       IndexerId node = indexerId /\
       Forall (fun c => IndexerId c <> indexerId) before) /\
  (findIndexer plan indexerId = None <->
   Forall (fun c => IndexerId c <> indexerId) (Placement plan)).
Proof.
  unfold findIndexer. induction (Placement plan) as [| x rest IH];
    cbn [findIndexer_loop].
  - split; [discriminate |]. split; [constructor | reflexivity].
  - destruct IH as [IHsome IHnone].
    destruct (String.eqb_spec (IndexerId x) indexerId) as [Hid | Hid].
    + split.
      * intros node Heq. injection Heq as <-.
        exists [], rest. split; [reflexivity |]. split; [exact Hid | constructor].
      * split; [discriminate |]. intros Hall.
        inversion Hall; subst. congruence.
    + split.
      * intros node Hnode.
        destruct (IHsome node Hnode) as (before & after & -> & Hn & Hall).
        exists (x :: before), after. split; [reflexivity |].
        split; [exact Hn | constructor; assumption].
      * rewrite IHnone. split.
        -- intros Hall. constructor; assumption.
        -- intros Hall. inversion Hall; assumption.
Qed.

Lemma findIndexer_first_witness :
  findIndexer (mkPlan [nodeEmpty; nodeA; nodeB]) "indexer-b" = Some nodeB /\
  findIndexer (mkPlan [nodeEmpty; nodeA; nodeB]) "indexer-z" = None.
Proof.
  split; [reflexivity |].
  destruct (findIndexer_first (mkPlan [nodeEmpty; nodeA; nodeB]) "indexer-z")
    as [_ Hnone].
  apply Hnone. cbn. repeat constructor; discriminate.
Defined.

(** X27 -- [findNumEmptyIndexer] never counts more nodes than it is given, and
    it counts none exactly when every node is excluded or holds an
    index. *)
Theorem findNumEmptyIndexer_bounds (indexers excludes : list IndexerNode) :
  0 <= findNumEmptyIndexer indexers excludes <= Z.of_nat (List.length indexers) /\
  (findNumEmptyIndexer indexers excludes = 0 <->
   Forall (fun node => isMember excludes node = true \/ Indexes node <> [])
          indexers).
Proof.
  induction indexers as [| x rest IH]; cbn [findNumEmptyIndexer List.length].
  - split; [lia |]. split; [constructor | reflexivity].
  - destruct IH as [Hb Hz].
    destruct (isMember excludes x) eqn:Hmem.
    + split; [lia |]. rewrite Hz. split.
      * intros Hall. constructor; auto.
      * intros Hall. inversion Hall; assumption.
    + destruct (Indexes x) as [| u us] eqn:Hidx; cbn [List.length Nat.eqb].
      * split; [lia |]. split; [lia |].
        intros Hall. inversion Hall as [| y l [H0 | H0] Hl]; subst;
          congruence.
      * split; [lia |]. rewrite Hz. split.
        -- intros Hall. constructor; [right; rewrite Hidx; discriminate | exact Hall].
        -- intros Hall. inversion Hall; assumption.
Qed.

Lemma findNumEmptyIndexer_bounds_witness :
  findNumEmptyIndexer [nodeEmpty; nodeA; nodeB] [] = 1 /\
  findNumEmptyIndexer [nodeEmpty; nodeA; nodeB] [nodeEmpty] = 0.
Proof.
  split; [reflexivity |].
  destruct (findNumEmptyIndexer_bounds [nodeEmpty; nodeA; nodeB] [nodeEmpty])
    as [_ Hzero].
  apply Hzero.
  apply Forall_cons; [left; reflexivity |].
  apply Forall_cons; [right; discriminate |].
  apply Forall_cons; [right; discriminate |].
  apply Forall_nil.
Defined.

(** * The pool under concurrent callers *)

(** ** Sums over the goroutines *)







(** ** The channel operations *)



Lemma recv_not_ready {A} (ch : chan A) :
  recv ch = RecvNotReady -> buf ch = [] /\ closed ch = false.
Proof.
  unfold recv. destruct (buf ch); [| discriminate].
  destruct (closed ch); [discriminate | auto].
Qed.



Lemma send_not_ready {A} (ch : chan A) (x : A) :
  send ch x = SendNotReady -> closed ch = false /\ cap ch <= len ch.
Proof.
  unfold send. destruct (closed ch); [discriminate |].
  destruct (Z.ltb_spec (len ch) (cap ch)); [discriminate | auto].
Qed.



(** ** The ledger is kept by every operation *)































(** ** A goroutine running alone is the method *)

(** [GetWithTimeout] is what its goroutine does when nothing overtakes
    it: the same state and the same result, and no result when the
    goroutine is left waiting. *)
Lemma Get_alone (s : state) (d : Z) (evB evC : select_case)
    (mk : mkConn_result) :
  match GetWithTimeout s d evB evC mk with
  | Some (s', g) => alone 5 s GetSelect1 evB evC mk = (s', GetDone g)
  | None => forall g, snd (alone 5 s GetSelect1 evB evC mk) <> GetDone g
  end.
Proof.
  unfold GetWithTimeout, takeConn. cbn [alone step_caller]. unfold take.
  destruct (recv (connections (cp s))) as [c ch' | |] eqn:Hrecv;
    [reflexivity | reflexivity |].
  cbn [option_map alone step_caller]. unfold stageB, takeConn, take.
  destruct evB; rewrite ?Hrecv; cbn [option_map];
    try (intros g; cbn; discriminate).
  cbn [alone step_caller]. unfold stageC, takeConn, take, createConn.
  destruct evC; rewrite ?Hrecv; cbn [option_map];
    try (intros g; cbn; discriminate); try reflexivity.
  destruct (send (createsem (cp s)) true) as [sem' | |];
    try (intros g; cbn; discriminate).
  cbn [alone step_caller]. destruct mk as [connectn [e |]];
    cbn [alone step_caller]; [| reflexivity].
  destruct (recv (createsem
                    (cp (with_pool s (set_createsem (cp s) sem')))))
    as [x sem'' | |]; try (intros g; cbn; discriminate).
  reflexivity.
Qed.

(** [Return] is what its goroutine does when nothing overtakes it; it
    blocks exactly when the goroutine is left waiting for a permit, and it
    never panics. *)
Lemma Return_alone (s : state) (connectn : option connection)
    (healthy : bool) (evB evC : select_case) (mk : mkConn_result) :
  match Return s connectn healthy with
  | Done s' => alone 4 s (RetStart connectn healthy) evB evC mk = (s', RetDone)
  | Blocked =>
      snd (alone 4 s (RetStart connectn healthy) evB evC mk) <> RetDone
  | _ => False
  end.
Proof.
  unfold Return, Return_body. cbn [alone step_caller].
  destruct connectn as [c |]; [| reflexivity].
  destruct (conn c) as [n |] eqn:Hconn; [| reflexivity].
  destruct healthy.
  - destruct (send (connections (cp s)) c) as [ch' | |].
    + reflexivity.
    + reflexivity.
    + cbn [alone step_caller]. unfold releasePermit.
      destruct (recv (createsem (cp s))) as [x sem' | |]; cbn; try discriminate.
      reflexivity.
  - unfold releasePermit.
    destruct (recv (createsem (cp s))) as [x sem' | |]; cbn; try discriminate.
    reflexivity.
Qed.

Lemma drain_alone (p : connectionPool) (capacity : Z) (evB evC : select_case)
    (mk : mkConn_result) (l : list connection) :
  forall closedLog,
    alone (2 * List.length l + 1)
          (mkState (set_connections p (mkChan l capacity true)) closedLog)
          CloseRange evB evC mk
    = (mkState (set_connections p
                  (mkChan (fst (drain l closedLog)) capacity true))
               (snd (drain l closedLog)),
       CloseDone).
Proof.
  induction l as [| c l IH]; intros closedLog.
  - reflexivity.
  - replace (2 * List.length (c :: l) + 1)%nat
      with (S (S (2 * List.length l + 1))) by (cbn [List.length]; lia).
    cbn [alone step_caller recv connections cp set_connections buf closed cap
         with_pool netClosed drain].
    unfold netClose. destruct (conn c) as [n |].
    + cbn [cp netClosed]. exact (IH (closedLog ++ [n])).
    + cbn [fst snd]. destruct (2 * List.length l + 1)%nat; reflexivity.
Qed.

(** [Close] is what its goroutine does when nothing overtakes it. *)
Lemma Close_alone (s : state) (evB evC : select_case) (mk : mkConn_result) :
  match Close s with
  | Done s' =>
      alone (2 * List.length (buf (connections (cp s))) + 3) s CloseSignal
            evB evC mk
        = (s', CloseDone)
  | Blocked =>
      snd (alone (2 * List.length (buf (connections (cp s))) + 3) s
                 CloseSignal evB evC mk)
        = CloseSignal
  | _ => False
  end.
Proof.
  unfold Close.
  replace (2 * List.length (buf (connections (cp s))) + 3)%nat
    with (S (S (2 * List.length (buf (connections (cp s))) + 1))) by lia.
  cbn [alone step_caller].
  destruct (send (stopCh (cp s)) true) as [stop' | |];
    [| reflexivity | reflexivity].
  cbn [alone step_caller cp with_pool connections set_stopCh].
  destruct (closed (connections (cp s))) eqn:Hcl.
  - destruct (2 * List.length (buf (connections (cp s))) + 1)%nat;
      reflexivity.
  - pose proof (drain_alone (set_stopCh (cp s) stop')
                  (cap (connections (cp s))) evB evC mk
                  (buf (connections (cp s))) (netClosed s)) as Hd.
    destruct (drain (buf (connections (cp s))) (netClosed s))
      as [remaining closedLog].
    cbn [fst snd] in Hd. exact Hd.
Qed.






(** ** One permit per connection while the pool is not shrunk *)








